(** * Probabilistic Roadmap planner of pyrobosim: a shallow embedding

    The development follows [pyrobosim/navigation/prm.py]:
    [PRMPlannerPolygon] (roadmap building in [reset], the neighbour
    connector [connect_neighbors], the query planner [plan]) and the
    factory [PRMPlanner].

    Python floats are IEEE binary64 values, carried here as the kernel's
    primitive [float].  Object identity of a [Node] is an allocation
    number drawn from the runtime; the random sampler and the wall clock are
    read through call counters kept in the same runtime record.

    [prm.py] imports its data structures: [Pose], [Path], [Node] and
    [SearchGraph] live in [pyrobosim/utils], the world in
    [pyrobosim/core], and none of them is among the sources.  The graph
    operations and [Path.fill_yaws] are modelled from the spec, which takes
    a [Pose] as an immutable value; the world's oracle, the clock,
    [np.arctan2], the path compressor and the shortest-path search are
    parameters, the last two with the contract the spec gives them.

    [world/room.py] ([Room]) is embedded as well, over the polygon
    operations it imports from shapely. *)

From Stdlib Require Import String Floats.
From Stdlib Require Import List Bool Arith ZArith Lia.
Import ListNotations.

Set Implicit Arguments.

(* ================================================================== *)
(** ** Value types consumed from [pyrobosim.utils] *)

Module Pose.
(** [pyrobosim.utils.pose.Pose]: position and heading. *)
Record t : Set := mk { x : float; y : float; yaw : float }.

Definition set_yaw (p : t) (a : float) : t := mk (x p) (y p) a.
End Pose.

Module Node.
(** [pyrobosim.utils.search_graph.Node].  The class defines no [__eq__]:
    [node == other] is object identity, which the field [id] stands for.
    [parent] is a reference to another node, kept as that node's
    identity. *)
Record t : Set := mk { id : nat; pose : Pose.t; parent : option nat }.

Definition eqb (a b : t) : bool := Nat.eqb (id a) (id b).

Definition ids (l : list t) : list nat := map id l.
End Node.

(** The Geometry Oracle ([self.world]).  The sampler is random: the k-th
    call made in a run answers [sample_free_robot_pose_uniform k]. *)
Record World : Type := mkWorld {
  is_connectable : Pose.t -> Pose.t -> float -> bool;
  sample_free_robot_pose_uniform : nat -> option Pose.t
}.

(* ================================================================== *)
(** ** The roadmap graph *)

Module SearchGraph.

Record t : Set := mk { nodes : list Node.t; edges : list (Node.t * Node.t) }.

(** [SearchGraph(...)]: a graph without nodes or edges. *)
Definition empty : t := mk [] [].

Definition mem_node (g : t) (n : Node.t) : bool :=
  existsb (Node.eqb n) (nodes g).

(** An edge joins [a] and [b] in either orientation. *)
Definition joins (a b : Node.t) (e : Node.t * Node.t) : bool :=
  (Node.eqb (fst e) a && Node.eqb (snd e) b)
  || (Node.eqb (fst e) b && Node.eqb (snd e) a).

Definition has_edge (g : t) (a b : Node.t) : bool :=
  existsb (joins a b) (edges g).

Definition incident (n : Node.t) (e : Node.t * Node.t) : bool :=
  Node.eqb (fst e) n || Node.eqb (snd e) n.

(** Modelled from the spec: [SearchGraph.add_node] of
    [utils/search_graph.py], which is not among the sources.  The roadmap
    is "a set of nodes" that [nodes()] hands out as an "ordered
    collection": a node already present is not inserted again, a new one
    goes last. *)
Definition add_node (g : t) (n : Node.t) : t :=
  if mem_node g n then g else mk (nodes g ++ [n]) (edges g).

(** Modelled from the spec: [SearchGraph.add_edge] of
    [utils/search_graph.py], which is not among the sources.
    "addEdge(nodeA, nodeB) (idempotent, undirected)", "at most one edge
    per unordered node pair". *)
Definition add_edge (g : t) (a b : Node.t) : t :=
  if has_edge g a b then g else mk (nodes g) (edges g ++ [(a, b)]).

(** Modelled from the spec: [SearchGraph.remove_node] of
    [utils/search_graph.py], which is not among the sources.
    "removeNode(node) (removal also detaches incident edges)". *)
Definition remove_node (g : t) (n : Node.t) : t :=
  mk (filter (fun o => negb (Node.eqb o n)) (nodes g))
     (filter (fun e => negb (incident n e)) (edges g)).

(** The data-model invariant of the spec: every edge's endpoints are
    members of the node set, no edge is a self-loop, and no two member
    nodes share an identity. *)
Record wf (g : t) : Prop := {
  wf_nodup : NoDup (Node.ids (nodes g));
  wf_endpoints : forall e, In e (edges g) ->
      In (fst e) (nodes g) /\ In (snd e) (nodes g);
  wf_no_loop : forall e, In e (edges g) -> Node.id (fst e) <> Node.id (snd e)
}.

End SearchGraph.

Module Path.
(** [pyrobosim.utils.motion.Path]: an ordered sequence of poses. *)
Record t : Set := mk { poses : list Pose.t }.

(** [Path()] *)
Definition empty : t := mk [].

Definition num_poses (p : t) : nat := length (poses p).
End Path.

(* ================================================================== *)
(** ** Collaborators that are called but not defined in [prm.py] *)

(** [np.arctan2] and [time.time] (its k-th reading), the Path Compressor
    and the roadmap's shortest-path search.  The planner only calls them;
    what the spec promises about the last two is stated separately as
    [CompressorContract], [SearchContract] and [SearchDetermined]. *)
Class Externals : Type := {
  arctan2 : float -> float -> float;
  time_time : nat -> float;
  reduce_waypoints_polygon : World -> list Pose.t -> list Pose.t;
  find_path : SearchGraph.t -> Node.t -> Node.t -> list Node.t
}.

(* ================================================================== *)
(** ** Runtime effects *)

(** [warnings.warn(f"Could not sample more than {i} nodes")] *)
Inductive Warning : Set :=
| CouldNotSampleMoreThan (i : nat).

(** What a run threads besides the planner object: the next object
    identity, how often the sampler and the clock were read, and the
    diagnostics emitted so far. *)
Record Runtime : Set := mkRuntime {
  next_id : nat;
  rng_calls : nat;
  clock_reads : nat;
  warnings : list Warning
}.

Definition M (A : Type) : Type := Runtime -> A * Runtime.

Definition ret {A : Type} (a : A) : M A := fun r => (a, r).

Definition bind {A B : Type} (c : M A) (k : A -> M B) : M B :=
  fun r => let (a, r') := c r in k a r'.

Notation "x <- c ;; k" := (bind c (fun x => k))
  (at level 61, c at next level, right associativity).

(** [Node(pose, parent)]: a new object, distinct from every earlier one. *)
Definition new_Node (p : Pose.t) (parent : option nat) : M Node.t :=
  fun r => (Node.mk (next_id r) p parent,
            mkRuntime (S (next_id r)) (rng_calls r) (clock_reads r) (warnings r)).

Definition warn (w : Warning) : M unit :=
  fun r => (tt, mkRuntime (next_id r) (rng_calls r) (clock_reads r)
                          (warnings r ++ [w])).

Definition now `{Externals} : M float :=
  fun r => (time_time (clock_reads r),
            mkRuntime (next_id r) (rng_calls r) (S (clock_reads r)) (warnings r)).

Definition draw_sample (w : World) : M (option Pose.t) :=
  fun r => (sample_free_robot_pose_uniform w (rng_calls r),
            mkRuntime (next_id r) (S (rng_calls r)) (clock_reads r) (warnings r)).

(** Modelled from the spec: [Path.fill_yaws] of [utils/motion.py], which is
    not among the sources.  "Derive per-waypoint headings from consecutive
    positions", while "the returned Path's first and last Pose equal the
    start/goal Poses": every interior waypoint gets the heading of the step
    that reaches it from its predecessor, the two end poses are kept. *)
Fixpoint fill_from `{Externals} (prev : Pose.t) (rest : list Pose.t)
  : list Pose.t :=
  match rest with
  | [] => []
  | cur :: tl =>
      match tl with
      | [] => [cur]
      | _ :: _ =>
          Pose.set_yaw cur
            (arctan2 (Pose.y cur - Pose.y prev) (Pose.x cur - Pose.x prev))
          :: fill_from cur tl
      end
  end.

Definition fill_yaws `{Externals} (p : Path.t) : Path.t :=
  match Path.poses p with
  | [] => p
  | first :: rest => Path.mk (first :: fill_from first rest)
  end.

(** [start] and [goal] of a query: "Start pose or graph node". *)
Inductive PoseOrNode : Set :=
| IsPose (p : Pose.t)
| IsNode (n : Node.t).

(* ================================================================== *)
(** ** [class PRMPlannerPolygon] *)

Module PRMPlannerPolygon.

Record t : Type := mk {
  max_connection_dist : float;
  max_nodes : nat;
  world : World;
  compress_path : bool;
  planning_time : float;
  sampling_time : float;
  latest_path : Path.t;
  graph : SearchGraph.t
}.

Definition set_planning_time (self : t) (v : float) : t :=
  mk (max_connection_dist self) (max_nodes self) (world self)
     (compress_path self) v (sampling_time self) (latest_path self)
     (graph self).

Definition set_sampling_time (self : t) (v : float) : t :=
  mk (max_connection_dist self) (max_nodes self) (world self)
     (compress_path self) (planning_time self) v (latest_path self)
     (graph self).

Definition set_latest_path (self : t) (v : Path.t) : t :=
  mk (max_connection_dist self) (max_nodes self) (world self)
     (compress_path self) (planning_time self) (sampling_time self) v
     (graph self).

Definition set_graph (self : t) (v : SearchGraph.t) : t :=
  mk (max_connection_dist self) (max_nodes self) (world self)
     (compress_path self) (planning_time self) (sampling_time self)
     (latest_path self) v.

(** [sample_configuration]: one call of the world's sampler. *)
Definition sample_configuration (self : t) : M (option Pose.t) :=
  draw_sample (world self).

(** The body of [connect_neighbors]: [for other in self.graph.nodes],
    over the nodes still to visit, with the graph built so far. *)
Fixpoint connect_loop (w : World) (d : float) (node : Node.t)
    (others : list Node.t) (g : SearchGraph.t) : SearchGraph.t :=
  match others with
  | [] => g
  | other :: rest =>
      if Node.eqb node other then connect_loop w d node rest g
      else if is_connectable w (Node.pose node) (Node.pose other) d
      then connect_loop w d node rest (SearchGraph.add_edge g node other)
      else connect_loop w d node rest g
  end.

Definition connect_graph (w : World) (d : float) (g : SearchGraph.t)
    (node : Node.t) : SearchGraph.t :=
  connect_loop w d node (SearchGraph.nodes g) g.

Definition connect_neighbors (self : t) (node : Node.t) : t :=
  set_graph self
    (connect_graph (world self) (max_connection_dist self) (graph self) node).

(** The sampling loop of [reset]: [for i in range(self.max_nodes)], with
    [todo] iterations left when the loop variable is [i]. *)
Fixpoint sample_nodes (self : t) (todo i : nat) : M t :=
  match todo with
  | O => ret self
  | S todo' =>
      n_sample <- sample_configuration self ;;
      match n_sample with
      | None => _ <- warn (CouldNotSampleMoreThan i) ;; ret self
      | Some p =>
          n <- new_Node p None ;;
          sample_nodes
            (set_graph self (SearchGraph.add_node (graph self) n))
            todo' (S i)
      end
  end.

Section Methods.
Context `{Externals}.

Definition reset (self : t) : M t :=
  let self := set_sampling_time (set_planning_time self 0%float) 0%float in
  let self := set_latest_path self Path.empty in
  let self := set_graph self SearchGraph.empty in
  t_start <- now ;;
  self <- sample_nodes self (max_nodes self) 0 ;;
  t_end <- now ;;
  let self := set_sampling_time self (t_end - t_start)%float in
  ret (fold_left connect_neighbors (SearchGraph.nodes (graph self)) self).

(** [__init__]: stores the parameters and calls [reset], which assigns
    every other attribute. *)
Definition init (compress_path : bool) (max_connection_dist : float)
    (max_nodes : nat) (world : World) : M t :=
  reset (mk max_connection_dist max_nodes world compress_path
            0%float 0%float Path.empty SearchGraph.empty).

(** [if isinstance(x, Pose): x = Node(x, parent=None)] *)
Definition as_node (x : PoseOrNode) : M Node.t :=
  match x with
  | IsPose p => new_Node p None
  | IsNode n => ret n
  end.

Definition plan (self : t) (start goal : PoseOrNode) : M (Path.t * t) :=
  let self := set_latest_path self Path.empty in
  let self := set_planning_time self 0%float in
  start <- as_node start ;;
  let self := set_graph self (SearchGraph.add_node (graph self) start) in
  goal <- as_node goal ;;
  let self := set_graph self (SearchGraph.add_node (graph self) goal) in
  let self := connect_neighbors self start in
  let self := connect_neighbors self goal in
  t_start <- now ;;
  let waypoints := find_path (graph self) start goal in
  match waypoints with
  | [] => ret (latest_path self, self)
  | _ :: _ =>
      let path_poses := map Node.pose waypoints in
      let path_poses :=
        if compress_path self
        then reduce_waypoints_polygon (world self) path_poses
        else path_poses in
      let self := set_latest_path self (Path.mk path_poses) in
      let self := set_latest_path self (fill_yaws (latest_path self)) in
      t_end <- now ;;
      let self := set_planning_time self (t_end - t_start)%float in
      let self :=
        set_graph self (SearchGraph.remove_node (graph self) start) in
      let self :=
        set_graph self (SearchGraph.remove_node (graph self) goal) in
      ret (latest_path self, self)
  end.

Definition get_graphs (self : t) : list SearchGraph.t := [graph self].

End Methods.

End PRMPlannerPolygon.

(* ================================================================== *)
(** ** [class PRMPlanner]: the factory *)

(** The exceptions a construction can end in: the one [__init__] raises,
    with its message; a [TypeError] for a keyword argument the callee does
    not declare, with the keyword; an [AttributeError] for an attribute
    looked up on [None], with the attribute. *)
Inductive Exception : Set :=
| NotImplementedError (msg : string)
| TypeError (keyword : string)
| AttributeError (attribute : string).

Inductive outcome (A : Type) : Type :=
| Returns (a : A)
| Raises (e : Exception).
Arguments Returns {A} a.
Arguments Raises {A} e.

(** A Python value as far as its truth value goes ([if v:]). *)
Inductive PyValue : Set :=
| PyNone
| PyBool (b : bool)
| PyInt (n : nat)
| PyStr (s : string)
| PyObject.

Definition truthy (v : PyValue) : bool :=
  match v with
  | PyNone => false
  | PyBool b => b
  | PyInt n => negb (Nat.eqb n 0)
  | PyStr s => negb (String.eqb s EmptyString)
  | PyObject => true
  end.

(** The keyword dictionary [planner_config].  The four parameters that
    [PRMPlannerPolygon.__init__] declares are present or not, with values
    of their documented types; [world] absent and [world=None] are the
    same to the constructor, whose default is [None].  Every other
    keyword, [grid] among them, is in [cfg_undeclared], in the order of
    the call and with any value. *)
Record planner_config : Type := mkConfig {
  cfg_compress_path : option bool;
  cfg_max_connection_dist : option float;
  cfg_max_nodes : option nat;
  cfg_world : option World;
  cfg_undeclared : list (string * PyValue)
}.

(** The entry of a keyword, if the dictionary has one. *)
Fixpoint lookup (key : string) (entries : list (string * PyValue))
  : option PyValue :=
  match entries with
  | [] => None
  | (k, v) :: rest => if String.eqb k key then Some v else lookup key rest
  end.

Definition cfg_grid (cfg : planner_config) : option PyValue :=
  lookup "grid" (cfg_undeclared cfg).

(** [dict.get(key, default)] *)
Definition get {A : Type} (entry : option A) (default : A) : A :=
  match entry with Some v => v | None => default end.

(** [PathPlannerBase], the base class of [PRMPlanner], is not among the
    sources.  Of its constructor, which [PRMPlanner.__init__] calls first,
    the development takes the values it leaves in the three attributes
    that [PRMPlanner.plan] assigns later ([None] for an attribute it does
    not assign); the constructor is taken to return. *)
Class PathPlannerBase : Type := {
  base_latest_path : option Path.t;
  base_planning_time : option float;
  base_graphs : option (list SearchGraph.t)
}.

Module PRMPlanner.

(** The attributes [prm.py] reads or assigns: [impl] at construction, the
    others in [plan]; before the first query they are what the base class
    left ([None]: not assigned). *)
Record t : Type := mk {
  impl : PRMPlannerPolygon.t;
  latest_path : option Path.t;
  planning_time : option float;
  graphs : option (list SearchGraph.t)
}.

(** A [PRMPlannerPolygon] whose [world] is [None]: the attributes [reset]
    has assigned.  Its methods end in an [AttributeError] where they reach
    the world; they are not part of this development. *)
Record Worldless : Type := mkWorldless {
  wl_max_connection_dist : float;
  wl_max_nodes : nat;
  wl_compress_path : bool;
  wl_planning_time : float;
  wl_sampling_time : float;
  wl_latest_path : Path.t;
  wl_graph : SearchGraph.t
}.

(** What [PRMPlannerPolygon] constructs: a planner over a world, or one
    without. *)
Inductive polygon_planner : Type :=
| OverWorld (p : PRMPlannerPolygon.t)
| WithoutWorld (p : Worldless).

(** What [PRMPlanner] constructs: a planner whose [impl] has a world, or
    one whose [impl] has none, with the attributes of the base class. *)
Inductive built : Type :=
| Planner (p : t)
| PlannerWithoutWorld (impl : Worldless) (latest_path : option Path.t)
    (planning_time : option float) (graphs : option (list SearchGraph.t)).

Section Methods.
Context `{Externals} `{PathPlannerBase}.

(** [PRMPlannerPolygon.__init__] with [world=None].  [reset] reads the
    clock and enters the sampling loop; its first iteration calls
    [self.world.sample_free_robot_pose_uniform()], an [AttributeError] on
    [None].  With [max_nodes = 0] neither loop of [reset] has an
    iteration, and the constructor returns. *)
Definition init_without_world (compress_path : bool)
    (max_connection_dist : float) (max_nodes : nat)
  : M (outcome polygon_planner) :=
  t_start <- now ;;
  match max_nodes with
  | S _ =>
      ret (Raises (AttributeError "sample_free_robot_pose_uniform"))
  | O =>
      t_end <- now ;;
      ret (Returns (WithoutWorld
             (mkWorldless max_connection_dist 0 compress_path 0%float
                (t_end - t_start)%float Path.empty SearchGraph.empty)))
  end.

(** [PRMPlannerPolygon] called with the keywords of the configuration: a
    keyword the constructor does not declare is a [TypeError] that names
    it, the first such keyword when there are several; a missing keyword
    takes the default of the signature. *)
Definition construct_polygon (cfg : planner_config)
  : M (outcome polygon_planner) :=
  match cfg_undeclared cfg with
  | (key, _) :: _ =>
      ret (Raises (TypeError key))
  | [] =>
      match cfg_world cfg with
      | Some world =>
          p <- PRMPlannerPolygon.init
                 (get (cfg_compress_path cfg) false)
                 (get (cfg_max_connection_dist cfg) 2%float)
                 (get (cfg_max_nodes cfg) 50)
                 world ;;
          ret (Returns (OverWorld p))
      | None =>
          init_without_world
            (get (cfg_compress_path cfg) false)
            (get (cfg_max_connection_dist cfg) 2%float)
            (get (cfg_max_nodes cfg) 50)
      end
  end.

(** [__init__]: after the constructor of the base class, the test of
    [grid], then the construction of [impl]. *)
Definition init (cfg : planner_config) : M (outcome built) :=
  if truthy (get (cfg_grid cfg) PyNone)
  then ret (Raises (NotImplementedError
                      "Grid based PRM is not supported. "))
  else
    r <- construct_polygon cfg ;;
    match r with
    | Returns (OverWorld p) =>
        ret (Returns (Planner (mk p base_latest_path base_planning_time
                                  base_graphs)))
    | Returns (WithoutWorld p) =>
        ret (Returns (PlannerWithoutWorld p base_latest_path
                        base_planning_time base_graphs))
    | Raises e => ret (Raises e)
    end.

Definition plan (self : t) (start goal : PoseOrNode) : M (Path.t * t) :=
  start_time <- now ;;
  r <- PRMPlannerPolygon.plan (impl self) start goal ;;
  let (path, impl') := r in
  end_time <- now ;;
  ret (path,
       mk impl' (Some path) (Some (end_time - start_time)%float)
          (Some (PRMPlannerPolygon.get_graphs impl'))).

End Methods.

End PRMPlanner.

(* ================================================================== *)
(** ** Definitions used to state the properties *)

(** Whether the connector of a planner with world [w] and connection
    distance [d], run for [n], links [n] to [o]. *)
Definition links (w : World) (d : float) (n o : Node.t) : bool :=
  negb (Node.eqb n o) && is_connectable w (Node.pose n) (Node.pose o) d.

(** The poses the sampler hands out from its [k]-th call on, up to its
    first failure and at most [todo] of them. *)
Fixpoint sampled_prefix (w : World) (k todo : nat) : list Pose.t :=
  match todo with
  | O => []
  | S todo' =>
      match sample_free_robot_pose_uniform w k with
      | None => []
      | Some p => p :: sampled_prefix w (S k) todo'
      end
  end.

(** Parentless nodes created one after the other, the first with identity
    [id0]. *)
Fixpoint fresh_nodes (id0 : nat) (ps : list Pose.t) : list Node.t :=
  match ps with
  | [] => []
  | p :: tl => Node.mk id0 p None :: fresh_nodes (S id0) tl
  end.


(** The second pass of [reset] seen on the graph alone. *)
Definition connect_all (w : World) (d : float) (ns : list Node.t)
    (g : SearchGraph.t) : SearchGraph.t :=
  fold_left (PRMPlannerPolygon.connect_graph w d) ns g.

(* ================================================================== *)
(** ** What the spec promises about the collaborators *)

(** [p] leads from [a] to [b] along edges of [g], through members of [g]. *)
Inductive walk (g : SearchGraph.t) : Node.t -> Node.t -> list Node.t -> Prop :=
| walk_here (a : Node.t) :
    In a (SearchGraph.nodes g) -> walk g a a [a]
| walk_step (a b c : Node.t) (p : list Node.t) :
    In a (SearchGraph.nodes g) ->
    SearchGraph.has_edge g a b = true ->
    walk g b c p ->
    walk g a c (a :: p).

(** Modelled from the spec: the contract of [SearchGraph.find_path]
    ([utils/search_graph.py] is not among the sources).  It "returns an
    ordered list of nodes, or an empty result if unreachable": a non-empty
    answer is a path of the graph from start to goal that visits no node
    twice, and an answer is given whenever the goal can be reached. *)
Record SearchContract (E : Externals) : Prop := {
  search_sound : forall g s t,
    SearchGraph.wf g ->
    In s (SearchGraph.nodes g) -> In t (SearchGraph.nodes g) ->
    find_path g s t <> [] ->
    walk g s t (find_path g s t) /\ NoDup (Node.ids (find_path g s t));
  search_complete : forall g s t p,
    SearchGraph.wf g -> walk g s t p -> find_path g s t <> []
}.

(** [same_graph phi psi g' g]: [phi], with inverse [psi], matches the nodes
    of [g'] one to one with the nodes of [g], and keeps poses and edges. *)
Record same_graph (phi psi : Node.t -> Node.t) (g' g : SearchGraph.t)
  : Prop := {
  sg_into : forall x, In x (SearchGraph.nodes g') ->
      In (phi x) (SearchGraph.nodes g);
  sg_back : forall y, In y (SearchGraph.nodes g) ->
      In (psi y) (SearchGraph.nodes g');
  sg_left : forall x, In x (SearchGraph.nodes g') -> psi (phi x) = x;
  sg_right : forall y, In y (SearchGraph.nodes g) -> phi (psi y) = y;
  sg_pose : forall x, In x (SearchGraph.nodes g') ->
      Node.pose (phi x) = Node.pose x;
  sg_edge : forall x y,
      In x (SearchGraph.nodes g') -> In y (SearchGraph.nodes g') ->
      SearchGraph.has_edge g' x y = SearchGraph.has_edge g (phi x) (phi y)
}.

(** Modelled from the spec: its determinism property, "identical inputs
    produce identical Paths", read for [SearchGraph.find_path], which is
    not among the sources.  The roadmap is "a set of nodes and a set of
    edges over them", and the search "returns the optimal-by-edge-weight
    node sequence or signals unreachability": on the same graph, from the
    same start to the same goal, it returns the same poses.  Each call of
    [plan] makes the node objects of its query anew, so the same graph is
    one with the same posed nodes and the same edges, whichever objects
    stand for the nodes and in whatever order they were inserted. *)
Definition SearchDetermined (E : Externals) : Prop :=
  forall phi psi g' g s t,
    SearchGraph.wf g' -> SearchGraph.wf g ->
    same_graph phi psi g' g ->
    In s (SearchGraph.nodes g') -> In t (SearchGraph.nodes g') ->
    map Node.pose (find_path g' s t)
    = map Node.pose (find_path g (phi s) (phi t)).

(** [l'] is [l] with some elements left out. *)
Inductive subseq {A : Type} : list A -> list A -> Prop :=
| subseq_nil : subseq [] []
| subseq_keep (a : A) (l' l : list A) : subseq l' l -> subseq (a :: l') (a :: l)
| subseq_drop (a : A) (l' l : list A) : subseq l' l -> subseq l' (a :: l).

(** Modelled from the spec: the contract of [reduce_waypoints_polygon]
    ([utils/motion.py] is not among the sources): "first and last Pose are
    always preserved by the compressor; only interior waypoints may be
    dropped". *)
Definition CompressorContract (E : Externals) : Prop :=
  forall (w : World) (first last : Pose.t) (interior : list Pose.t),
  exists kept,
    reduce_waypoints_polygon w (first :: interior ++ [last])
    = first :: kept ++ [last]
    /\ subseq kept interior.

(* ================================================================== *)
(** ** Reference collaborators

    One implementation of each collaborator, used to run the planner on
    concrete worlds. *)

Module Reference.

(** [np.arctan2] where its value is exact: on the positive x axis and on
    the positive y axis (pi/2 as a binary64 value).  Elsewhere the value is
    left as [nan]; the examples do not go there. *)
Definition arctan2 (dy dx : float) : float :=
  if (dy =? 0)%float && (0 <? dx)%float then 0%float
  else if (dx =? 0)%float && (0 <? dy)%float then 0x1.921fb54442d18p+0%float
  else nan.

(** A clock that advances by one second per reading. *)
Definition time_time (k : nat) : float :=
  Nat.iter k (fun t => (t + 1)%float) 0%float.

(** A shortcutting compressor: an interior waypoint is dropped when the
    waypoint after it can be reached in a straight line from the last
    waypoint kept. *)
Fixpoint shortcut (w : World) (anchor : Pose.t) (rest : list Pose.t)
  : list Pose.t :=
  match rest with
  | [] => []
  | m :: tl =>
      match tl with
      | [] => [m]
      | n :: _ =>
          if is_connectable w anchor n infinity
          then shortcut w anchor tl
          else m :: shortcut w m tl
      end
  end.

Definition reduce_waypoints_polygon (w : World) (poses : list Pose.t)
  : list Pose.t :=
  match poses with
  | [] => []
  | first :: rest => first :: shortcut w first rest
  end.

(** Euclidean distance between two positions: the weight of an edge. *)
Definition distance (p q : Pose.t) : float :=
  sqrt ((Pose.x p - Pose.x q) * (Pose.x p - Pose.x q)
        + (Pose.y p - Pose.y q) * (Pose.y p - Pose.y q))%float.

Fixpoint path_length (p : list Node.t) : float :=
  match p with
  | [] => 0%float
  | a :: tl =>
      match tl with
      | [] => 0%float
      | b :: _ => (distance (Node.pose a) (Node.pose b) + path_length tl)%float
      end
  end.

Definition neighbors (g : SearchGraph.t) (a : Node.t) : list Node.t :=
  filter (SearchGraph.has_edge g a) (SearchGraph.nodes g).

(** Every path from [cur] to [goal] that avoids [visited] and visits no
    node twice, of at most [fuel] edges. *)
Fixpoint simple_paths (g : SearchGraph.t) (fuel : nat)
    (visited : list Node.t) (cur goal : Node.t) : list (list Node.t) :=
  if Node.eqb cur goal then [[cur]]
  else
    match fuel with
    | O => []
    | S fuel' =>
        flat_map
          (fun nb => map (cons cur)
                       (simple_paths g fuel' (cur :: visited) nb goal))
          (filter (fun nb => negb (existsb (Node.eqb nb) (cur :: visited)))
                  (neighbors g cur))
    end.

(** The first path of least length among [best] and [rest]. *)
Fixpoint shortest (best : list Node.t) (rest : list (list Node.t))
  : list Node.t :=
  match rest with
  | [] => best
  | p :: tl =>
      if (path_length p <? path_length best)%float
      then shortest p tl else shortest best tl
  end.

(** Modelled from the spec: [SearchGraph.find_path], which "returns the
    optimal-by-edge-weight node sequence or signals unreachability", the
    weight of an edge being the Euclidean distance of its ends.  A simple
    path has at most as many edges as the graph has nodes. *)
Definition find_path (g : SearchGraph.t) (start goal : Node.t) : list Node.t :=
  match simple_paths g (length (SearchGraph.nodes g)) [] start goal with
  | [] => []
  | p :: tl => shortest p tl
  end.

(** A base class that starts with an empty path, no time and no
    graphs. *)
#[export] Instance base : PathPlannerBase := {
  base_latest_path := Some Path.empty;
  base_planning_time := Some 0%float;
  base_graphs := Some []
}.

#[export] Instance externals : Externals := {
  arctan2 := Reference.arctan2;
  time_time := Reference.time_time;
  reduce_waypoints_polygon := Reference.reduce_waypoints_polygon;
  find_path := Reference.find_path
}.

End Reference.

(** A search whose answer does not depend on which objects stand for the
    nodes of the graph, or on the order they were inserted in. *)
Module Canonical.

(** A binary64 value as integers: its class, its sign, and for a finite
    value other than zero its exponent and its mantissa.  Two values with
    one code are one value, and the codes of [unsigned] values, compared
    place by place, are ordered as the values are. *)
Definition float_code (x : float) : list Z :=
  match Prim2SF x with
  | S754_zero s => [0; Z.b2z s]
  | S754_finite s m e => [1; Z.b2z s; e; Zpos m]
  | S754_infinity s => [2; Z.b2z s]
  | S754_nan => [3]
  end%Z.

(** Zero, a positive finite value or infinity, the sign bit clear: what
    the weight of a path is, when it is a number. *)
Definition unsigned (x : float) : Prop :=
  match Prim2SF x with
  | S754_zero false | S754_finite false _ _ | S754_infinity false => True
  | _ => False
  end.

(** Lexicographic comparison of two lists. *)
Fixpoint lex {A : Type} (cmp : A -> A -> comparison) (l l' : list A)
  : comparison :=
  match l, l' with
  | [], [] => Eq
  | [], _ :: _ => Lt
  | _ :: _, [] => Gt
  | a :: tl, b :: tl' =>
      match cmp a b with
      | Eq => lex cmp tl tl'
      | c => c
      end
  end.

(** The sum of the edge weights along a sequence of poses. *)
Fixpoint weight (ps : list Pose.t) : float :=
  match ps with
  | [] => 0%float
  | a :: tl =>
      match tl with
      | [] => 0%float
      | b :: _ => (Reference.distance a b + weight tl)%float
      end
  end.

Definition pose_codes (ps : list Pose.t) : list (list Z) :=
  flat_map
    (fun p => [float_code (Pose.x p); float_code (Pose.y p);
               float_code (Pose.yaw p)])
    ps.

(** What a path is ranked by: its weight, then its poses one after the
    other. *)
Definition key (p : list Node.t) : list (list Z) :=
  float_code (weight (map Node.pose p)) :: pose_codes (map Node.pose p).

Definition before (p q : list Node.t) : bool :=
  match lex (lex Z.compare) (key p) (key q) with
  | Lt => true
  | _ => false
  end.

(** The path of least rank among [best] and [rest]. *)
Fixpoint least (best : list Node.t) (rest : list (list Node.t))
  : list Node.t :=
  match rest with
  | [] => best
  | p :: tl => if before p best then least p tl else least best tl
  end.

(** Modelled from the spec: [SearchGraph.find_path], which "returns the
    optimal-by-edge-weight node sequence or signals unreachability", the
    weight of an edge being the Euclidean distance of its ends; of two
    sequences of one weight it returns the one whose poses rank first. *)
Definition find_path (g : SearchGraph.t) (start goal : Node.t) : list Node.t :=
  match Reference.simple_paths g (length (SearchGraph.nodes g)) [] start goal
  with
  | [] => []
  | p :: tl => least p tl
  end.

#[export] Instance externals : Externals := {
  arctan2 := Reference.arctan2;
  time_time := Reference.time_time;
  reduce_waypoints_polygon := Reference.reduce_waypoints_polygon;
  find_path := Canonical.find_path
}.

End Canonical.

(* ================================================================== *)
(** ** A query, step by step *)

(** The node objects a query works with: [start] and [goal] after the two
    [isinstance] tests, and the runtime once both exist. *)
Definition start_node (r : Runtime) (start : PoseOrNode) : Node.t :=
  fst (PRMPlannerPolygon.as_node start r).

Definition goal_node (r : Runtime) (start goal : PoseOrNode) : Node.t :=
  fst (PRMPlannerPolygon.as_node goal
         (snd (PRMPlannerPolygon.as_node start r))).

Definition runtime_with_nodes (r : Runtime) (start goal : PoseOrNode)
  : Runtime :=
  snd (PRMPlannerPolygon.as_node goal
         (snd (PRMPlannerPolygon.as_node start r))).

(** The roadmap as the search of a query sees it: start and goal inserted,
    then connected, start first. *)
Definition query_graph (self : PRMPlannerPolygon.t) (s g : Node.t)
  : SearchGraph.t :=
  let w := PRMPlannerPolygon.world self in
  let d := PRMPlannerPolygon.max_connection_dist self in
  let g0 :=
    SearchGraph.add_node
      (SearchGraph.add_node (PRMPlannerPolygon.graph self) s) g in
  PRMPlannerPolygon.connect_graph w d
    (PRMPlannerPolygon.connect_graph w d g0 s) g.

(** The waypoints the search of the query [plan self start goal] returns
    when the query starts in runtime [r]. *)
Definition waypoints_of `{Externals} (self : PRMPlannerPolygon.t)
    (start goal : PoseOrNode) (r : Runtime) : list Node.t :=
  find_path
    (query_graph self (start_node r start) (goal_node r start goal))
    (start_node r start) (goal_node r start goal).

(** One more reading of the clock. *)
Definition tick (r : Runtime) : Runtime :=
  mkRuntime (next_id r) (rng_calls r) (S (clock_reads r)) (warnings r).

(** A planner between two queries: its roadmap meets the graph invariant,
    and every member node is an object that exists. *)
Definition wf_state (self : PRMPlannerPolygon.t) (r : Runtime) : Prop :=
  SearchGraph.wf (PRMPlannerPolygon.graph self)
  /\ forall n, In n (SearchGraph.nodes (PRMPlannerPolygon.graph self)) ->
               Node.id n < next_id r.

(** A query argument that is no member of the roadmap: a raw pose, or a
    node object that exists and is not in the roadmap. *)
Definition transient (self : PRMPlannerPolygon.t) (r : Runtime)
    (x : PoseOrNode) : Prop :=
  match x with
  | IsPose _ => True
  | IsNode n =>
      Node.id n < next_id r
      /\ ~ In (Node.id n)
              (Node.ids (SearchGraph.nodes (PRMPlannerPolygon.graph self)))
  end.

(** Node objects are told apart by identity: when both arguments of a query
    are node objects with one identity, they are one object. *)
Definition one_object_per_identity (start goal : PoseOrNode) : Prop :=
  match start, goal with
  | IsNode a, IsNode c => Node.id a = Node.id c -> a = c
  | _, _ => True
  end.

(** A query argument as a caller can pass it: a raw pose, or a node object
    that exists; a node object with the identity of a member of the
    roadmap is that member. *)
Definition known (self : PRMPlannerPolygon.t) (r : Runtime)
    (x : PoseOrNode) : Prop :=
  match x with
  | IsPose _ => True
  | IsNode n =>
      Node.id n < next_id r
      /\ (In (Node.id n)
             (Node.ids (SearchGraph.nodes (PRMPlannerPolygon.graph self))) ->
          In n (SearchGraph.nodes (PRMPlannerPolygon.graph self)))
  end.

(** A roadmap of the planner's own oracle: every edge joins two members
    the oracle connects within the planner's connection distance. *)
Definition edges_approved (self : PRMPlannerPolygon.t) : Prop :=
  forall a b,
    In a (SearchGraph.nodes (PRMPlannerPolygon.graph self)) ->
    In b (SearchGraph.nodes (PRMPlannerPolygon.graph self)) ->
    SearchGraph.has_edge (PRMPlannerPolygon.graph self) a b = true ->
    is_connectable (PRMPlannerPolygon.world self) (Node.pose a) (Node.pose b)
      (PRMPlannerPolygon.max_connection_dist self) = true.

Definition position (p : Pose.t) : float * float := (Pose.x p, Pose.y p).

(** The path [plan] returns for the waypoints its search found. *)
Definition path_for `{Externals} (self : PRMPlannerPolygon.t)
    (waypoints : list Node.t) : Path.t :=
  match waypoints with
  | [] => Path.empty
  | _ :: _ =>
      fill_yaws
        (Path.mk
           (if PRMPlannerPolygon.compress_path self
            then reduce_waypoints_polygon (PRMPlannerPolygon.world self)
                   (map Node.pose waypoints)
            else map Node.pose waypoints))
  end.

(** Sends the node [a2] to [a1] and the node [c2] to [c1], and leaves every
    other node alone. *)
Definition fold_onto (a2 a1 c2 c1 x : Node.t) : Node.t :=
  if Node.eqb x a2 then a1
  else if Node.eqb x c2 then c1
  else x.

(* ================================================================== *)
(** ** Properties the code does not meet as the spec words them *)

(** C6 as the spec words it: the poses of the returned path are the poses
    of the nodes the search returned, unmodified. *)
Definition returns_node_poses `{Externals} (self : PRMPlannerPolygon.t)
    (start goal : PoseOrNode) (r : Runtime) : Prop :=
  Path.poses (fst (fst (PRMPlannerPolygon.plan self start goal r)))
  = map Node.pose (waypoints_of self start goal r).

(** C1 and C2 as the spec words them: after the query the roadmap has the
    members it had before, nodes and edges alike. *)
Definition same_members (g g' : SearchGraph.t) : Prop :=
  (forall n, In n (SearchGraph.nodes g) <-> In n (SearchGraph.nodes g'))
  /\ (forall e, In e (SearchGraph.edges g) <-> In e (SearchGraph.edges g')).

Definition roadmap_restored `{Externals} (self : PRMPlannerPolygon.t)
    (start goal : PoseOrNode) (r : Runtime) : Prop :=
  same_members
    (PRMPlannerPolygon.graph
       (snd (fst (PRMPlannerPolygon.plan self start goal r))))
    (PRMPlannerPolygon.graph self).

(** C9 as the spec words it: the same query, asked twice in a row, returns
    the same path. *)
Definition same_path_twice `{Externals} (self : PRMPlannerPolygon.t)
    (start goal : PoseOrNode) (r : Runtime) : Prop :=
  let first := PRMPlannerPolygon.plan self start goal r in
  let second :=
    PRMPlannerPolygon.plan (snd (fst first)) start goal (snd first) in
  fst (fst second) = fst (fst first).

(* ================================================================== *)
(** ** Worlds and planners to run the code on *)

Module Examples.

#[local] Existing Instance Reference.externals.

Definition pose_at (x y : float) : Pose.t := Pose.mk x y 0%float.

(** Straight-line distance within the bound. *)
Definition within (p q : Pose.t) (d : float) : bool :=
  (Reference.distance p q <=? d)%float.

(** A sampler that hands out the poses of a script, then fails. *)
Definition scripted (script : list Pose.t) (k : nat) : option Pose.t :=
  nth_error script k.

(** A world without obstacles: two poses are connectable when they are
    within the bound of each other.  The oracle is symmetric. *)
Definition open_world (script : list Pose.t) : World :=
  mkWorld within (scripted script).

(** A world without obstacles whose oracle measures the distance in both
    orders of its two poses. *)
Definition mutual_world (script : list Pose.t) : World :=
  mkWorld (fun p q d => within p q d || within q p d) (scripted script).

Definition runtime0 : Runtime := mkRuntime 0 0 0 [].

(** Three collinear poses one unit apart on the y axis, and a pose far
    from them. *)
Definition low : Pose.t := pose_at 0 0.
Definition mid : Pose.t := pose_at 0 1.
Definition high : Pose.t := pose_at 0 2.
Definition far : Pose.t := pose_at 5 0.

(** A planner that was asked for five nodes in an open world whose sampler
    gives out [mid] and then fails: its roadmap is the single node [mid]. *)
Definition corridor_build : PRMPlannerPolygon.t * Runtime :=
  PRMPlannerPolygon.init false 1.5%float 5 (open_world [mid]) runtime0.

Definition corridor : PRMPlannerPolygon.t := fst corridor_build.
Definition corridor_runtime : Runtime := snd corridor_build.

(** A node object the caller makes for the pose [low] once [corridor] is
    built, and the runtime from then on. *)
Definition own_node_build : Node.t * Runtime :=
  new_Node low None corridor_runtime.

Definition own_node : Node.t := fst own_node_build.
Definition own_runtime : Runtime := snd own_node_build.

(** A planner over the open world with the roadmap [low], [mid], [high]:
    neighbours are one unit apart, [low] and [high] two. *)
Definition ladder_build : PRMPlannerPolygon.t * Runtime :=
  PRMPlannerPolygon.init false 1.5%float 3
    (open_world [low; mid; high]) runtime0.

Definition ladder : PRMPlannerPolygon.t := fst ladder_build.
Definition ladder_runtime : Runtime := snd ladder_build.

Definition low_node : Node.t := Node.mk 0 low None.
Definition mid_node : Node.t := Node.mk 1 mid None.
Definition high_node : Node.t := Node.mk 2 high None.

(** The same roadmap built over the mutual world. *)
Definition mutual_ladder_build : PRMPlannerPolygon.t * Runtime :=
  PRMPlannerPolygon.init false 1.5%float 3
    (mutual_world [low; mid; high]) runtime0.

Definition mutual_ladder : PRMPlannerPolygon.t := fst mutual_ladder_build.

(** A planner without roadmap nodes in an open world. *)
Definition bare_build : PRMPlannerPolygon.t * Runtime :=
  PRMPlannerPolygon.init false 1.5%float 0 (open_world []) runtime0.

Definition bare : PRMPlannerPolygon.t := fst bare_build.
Definition bare_runtime : Runtime := snd bare_build.

End Examples.

(* ================================================================== *)
(** ** What a query allocates *)

(** How many node objects [plan] makes for one of its arguments: one for
    a raw pose ([Node(start, parent=None)]), none for a node. *)
Definition objects_made (x : PoseOrNode) : nat :=
  match x with
  | IsPose _ => 1
  | IsNode _ => 0
  end.

(** How often [plan] reads the clock: [t_start], and the second reading
    that only the success branch reaches. *)
Definition clock_readings (waypoints : list Node.t) : nat :=
  match waypoints with
  | [] => 1
  | _ :: _ => 2
  end.

(** A series of queries on raw poses, one [plan] call after the other on
    the same planner: the paths in the order of the queries, and the
    planner the last call leaves. *)
Fixpoint plan_each `{Externals} (self : PRMPlannerPolygon.t)
    (queries : list (Pose.t * Pose.t))
  : M (list Path.t * PRMPlannerPolygon.t) :=
  match queries with
  | [] => ret ([], self)
  | q :: rest =>
      answer <- PRMPlannerPolygon.plan self (IsPose (fst q)) (IsPose (snd q)) ;;
      others <- plan_each (snd answer) rest ;;
      ret (fst answer :: fst others, snd others)
  end.

Definition is_empty (p : Path.t) : bool :=
  match Path.poses p with
  | [] => true
  | _ :: _ => false
  end.

(** How many of the paths have no pose. *)
Definition empty_paths (paths : list Path.t) : nat :=
  length (filter is_empty paths).

(* ================================================================== *)
(** ** [class Room] of [world/room.py] *)

Module Room.

(** What [room.py] imports: shapely's [Polygon] and [Point] with the
    operations the class calls on them, and [inflate_polygon] of [.utils].
    [Polygon(coords)] can reject its coordinates ([None] here); the
    operations on a polygon return.  [centroid_coords p] is
    [list(p.centroid.coords)] and [intersects p (x, y)] is
    [p.intersects(Point(x, y))]. *)
Class Geometry : Type := {
  Polygon : Type;
  new_Polygon : list (float * float) -> option Polygon;
  centroid_coords : Polygon -> list (float * float);
  inflate_polygon : Polygon -> float -> Polygon;
  difference : Polygon -> Polygon -> Polygon;
  intersects : Polygon -> float * float -> bool
}.

(** The exceptions the methods of [Room] can end in. *)
Inductive Error : Set :=
| GeometryError
| IndexError
| AttributeError (attribute : string).

Inductive result (A : Type) : Type :=
| Ok (a : A)
| Fails (e : Error).
Arguments Ok {A} a.
Arguments Fails {A} e.

(** The argument of [is_collision_free]: a [Pose], or anything else, which
    is then indexed ([pose[0]], [pose[1]]): a sequence of numbers. *)
Inductive PoseArg : Set :=
| APose (p : Pose.t)
| ASeq (l : list float).

Section WithGeometry.

Context `{Geometry}.

(** An entry of [self.hallways]: the class reads its [polygon]. *)
Record Hallway : Type := mkHallway { hallway_polygon : Polygon }.

(** [PolygonPatch(polygon, fc=, ec=, lw=, alpha=, zorder=)] of descartes. *)
Record PolygonPatch : Type := mkPatch {
  patch_polygon : Polygon;
  fc : list float;
  ec : list float;
  lw : nat;
  alpha : float;
  zorder : nat
}.

(** The attributes of a room.  [__init__] assigns the first six itself and
    the next three through [update_visualization_polygon];
    [collision_polygon] is assigned by [update_collision_polygon] alone.
    An attribute that has not been assigned is [None]. *)
Record t : Type := mk {
  name : option string;
  wall_width : float;
  color : list float;
  hallways : list Hallway;
  polygon : Polygon;
  centroid : float * float;
  buffered_polygon : option Polygon;
  viz_polygon : option Polygon;
  viz_patch : option PolygonPatch;
  collision_polygon : option Polygon
}.

(** The defaults of [__init__]: [name=None], [color=[0.4, 0.4, 0.4]],
    [wall_width=0.2], the two numbers as the binary64 values Python reads
    them as. *)
Definition default_name : option string := None.
Definition default_color : list float :=
  [0x1.999999999999ap-2; 0x1.999999999999ap-2; 0x1.999999999999ap-2]%float.
Definition default_wall_width : float := 0x1.999999999999ap-3%float.

(** [update_collision_polygon(inflation_radius)]: the room polygon
    deflated by the radius. *)
Definition update_collision_polygon (self : t) (inflation_radius : float)
  : t :=
  mk (name self) (wall_width self) (color self) (hallways self)
     (polygon self) (centroid self) (buffered_polygon self)
     (viz_polygon self) (viz_patch self)
     (Some (inflate_polygon (polygon self) (- inflation_radius)%float)).

(** [for h in self.hallways: self.viz_polygon =
    self.viz_polygon.difference(h.polygon)] *)
Definition cut_hallways (viz : Polygon) (hs : list Hallway) : Polygon :=
  fold_left (fun v h => difference v (hallway_polygon h)) hs viz.

(** [update_visualization_polygon]: the walls, which are the room polygon
    grown by the wall width without the room itself and without the
    hallways, and their patch. *)
Definition update_visualization_polygon (self : t) : t :=
  let buffered := inflate_polygon (polygon self) (wall_width self) in
  let viz := cut_hallways (difference buffered (polygon self))
                          (hallways self) in
  mk (name self) (wall_width self) (color self) (hallways self)
     (polygon self) (centroid self)
     (Some buffered) (Some viz)
     (Some (mkPatch viz (color self) (color self) 2 0.75%float 2))
     (collision_polygon self).

(** [__init__]: [list(self.polygon.centroid.coords)[0]] is an
    [IndexError] when the centroid has no coordinates. *)
Definition init (coords : list (float * float)) (name : option string)
    (color : list float) (wall_width : float) : result t :=
  match new_Polygon coords with
  | None => Fails GeometryError
  | Some polygon =>
      match centroid_coords polygon with
      | [] => Fails IndexError
      | c :: _ =>
          Ok (update_visualization_polygon
                (mk name wall_width color [] polygon c
                    None None None None))
      end
  end.

(** [Point(pose.x, pose.y)] for a [Pose], [Point(pose[0], pose[1])]
    otherwise. *)
Definition point_of (pose : PoseArg) : result (float * float) :=
  match pose with
  | APose p => Ok (Pose.x p, Pose.y p)
  | ASeq (x :: y :: _) => Ok (x, y)
  | ASeq _ => Fails IndexError
  end.

(** A sequence too short to be indexed at 0 and at 1. *)
Definition too_short (pose : PoseArg) : bool :=
  match pose with
  | APose _ => false
  | ASeq l => length l <? 2
  end.

(** [is_collision_free]: the point is built first, then
    [self.collision_polygon] is read. *)
Definition is_collision_free (self : t) (pose : PoseArg) : result bool :=
  match point_of pose with
  | Fails e => Fails e
  | Ok p =>
      match collision_polygon self with
      | None => Fails (AttributeError "collision_polygon")
      | Some c => Ok (intersects c p)
      end
  end.

End WithGeometry.

End Room.

(* ================================================================== *)
(** ** A geometry of boxes to run [Room] on *)

Module Boxes.

(** An axis-parallel box, and a box with boxes cut out of it. *)
Record Box : Set := mkBox { x0 : float; x1 : float; y0 : float; y1 : float }.

Record Shape : Set := mkShape { outer : Box; holes : list Box }.

Definition inside (b : Box) (p : float * float) : bool :=
  ((x0 b <=? fst p) && (fst p <=? x1 b)
   && (y0 b <=? snd p) && (snd p <=? y1 b))%float.

Definition strictly_inside (b : Box) (p : float * float) : bool :=
  ((x0 b <? fst p) && (fst p <? x1 b)
   && (y0 b <? snd p) && (snd p <? y1 b))%float.

Definition fmin (a b : float) : float := if (a <? b)%float then a else b.
Definition fmax (a b : float) : float := if (a <? b)%float then b else a.

(** The bounding box of a coordinate list; none for fewer than three
    coordinates. *)
Definition bounding (coords : list (float * float)) : option Shape :=
  match coords with
  | c :: (_ :: _ :: _) as rest =>
      Some (mkShape
              (fold_left
                 (fun b p => mkBox (fmin (x0 b) (fst p)) (fmax (x1 b) (fst p))
                                   (fmin (y0 b) (snd p)) (fmax (y1 b) (snd p)))
                 rest (mkBox (fst c) (fst c) (snd c) (snd c)))
              [])
  | _ => None
  end.

Definition middle (s : Shape) : list (float * float) :=
  [(((x0 (outer s) + x1 (outer s)) / 2)%float,
    ((y0 (outer s) + y1 (outer s)) / 2)%float)].

Definition grow (s : Shape) (d : float) : Shape :=
  mkShape (mkBox (x0 (outer s) - d) (x1 (outer s) + d)
                 (y0 (outer s) - d) (y1 (outer s) + d))%float
          (holes s).

Definition without (a b : Shape) : Shape :=
  mkShape (outer a) (holes a ++ [outer b]).

Definition touches (s : Shape) (p : float * float) : bool :=
  inside (outer s) p && negb (existsb (fun h => strictly_inside h p) (holes s)).

#[export] Instance geometry : Room.Geometry := {
  Room.Polygon := Shape;
  Room.new_Polygon := bounding;
  Room.centroid_coords := middle;
  Room.inflate_polygon := grow;
  Room.difference := without;
  Room.intersects := touches
}.

(** A room of four by three units, with the defaults of [__init__]. *)
Definition kitchen_coords : list (float * float) :=
  [(0, 0); (4, 0); (4, 3); (0, 3)]%float.

Definition kitchen_built : Room.result Room.t :=
  Room.init kitchen_coords (Some "kitchen"%string) Room.default_color
            Room.default_wall_width.

(** A hallway that leaves the kitchen through its right wall. *)
Definition door : Room.Hallway :=
  Room.mkHallway (mkShape (mkBox 4 5 1 2) []).

End Boxes.

(* ================================================================== *)
(** ** More planners to run the code on *)

Module MoreExamples.

Import Examples.

#[local] Existing Instance Reference.externals.

(** A configuration that names a roadmap size and a world, and nothing
    else. *)
Definition plain_config : planner_config :=
  mkConfig None None (Some 5) (Some (open_world [mid])) [].

(** The same configuration with a [grid] keyword that counts as false. *)
Definition grid_off_config : planner_config :=
  mkConfig None None (Some 5) (Some (open_world [mid]))
           [("grid"%string, PyBool false)].

(** No keyword at all: every parameter takes its default, the world
    [None]. *)
Definition bare_config : planner_config :=
  mkConfig None None None None [].

(** No world, and no node asked for. *)
Definition idle_config : planner_config :=
  mkConfig None None (Some 0) None [].

(** The [ladder] roadmap in a planner that compresses its paths. *)
Definition short_ladder_build : PRMPlannerPolygon.t * Runtime :=
  PRMPlannerPolygon.init true 1.5%float 3
    (open_world [low; mid; high]) runtime0.

Definition short_ladder : PRMPlannerPolygon.t := fst short_ladder_build.
Definition short_ladder_runtime : Runtime := snd short_ladder_build.

(** Poses one unit below [low] and one unit above [high]. *)
Definition below : Pose.t := pose_at 0 (-1).
Definition above : Pose.t := pose_at 0 3.

(** The open world, except that nothing can be connected from a pose at
    the height of [mid]. *)
Definition walled_world : World :=
  mkWorld (fun p q d => negb (Pose.y p =? 1)%float && within p q d)
          (scripted [mid]).

(** [corridor] with the walled world in the place of the open one. *)
Definition walled_corridor : PRMPlannerPolygon.t :=
  PRMPlannerPolygon.mk
    (PRMPlannerPolygon.max_connection_dist corridor)
    (PRMPlannerPolygon.max_nodes corridor)
    walled_world
    (PRMPlannerPolygon.compress_path corridor)
    (PRMPlannerPolygon.planning_time corridor)
    (PRMPlannerPolygon.sampling_time corridor)
    (PRMPlannerPolygon.latest_path corridor)
    (PRMPlannerPolygon.graph corridor).

(** Queries on [corridor]: one that finds a path between two that do
    not. *)
Definition errands : list (Pose.t * Pose.t) :=
  [(low, far); (low, high); (high, far)].

(** [corridor] after the failed query from [low] to [far]. *)
Definition stuck_build : Path.t * PRMPlannerPolygon.t * Runtime :=
  PRMPlannerPolygon.plan corridor (IsPose low) (IsPose far) corridor_runtime.

Definition stuck : PRMPlannerPolygon.t := snd (fst stuck_build).
Definition stuck_runtime : Runtime := snd stuck_build.

End MoreExamples.

(* ================================================================== *)
(** ** Facts about node identity and the roadmap graph *)

Section GraphFacts.

Import SearchGraph.

Lemma eqb_iff (a b : Node.t) : Node.eqb a b = true <-> Node.id a = Node.id b.
Proof. unfold Node.eqb. apply Nat.eqb_eq. Qed.

Lemma eqb_false_iff (a b : Node.t) :
  Node.eqb a b = false <-> Node.id a <> Node.id b.
Proof. unfold Node.eqb. apply Nat.eqb_neq. Qed.

Lemma eqb_refl (a : Node.t) : Node.eqb a a = true.
Proof. apply eqb_iff. reflexivity. Qed.

Lemma eqb_sym (a b : Node.t) : Node.eqb a b = Node.eqb b a.
Proof. unfold Node.eqb. apply Nat.eqb_sym. Qed.

Lemma in_ids (n : Node.t) (l : list Node.t) :
  In n l -> In (Node.id n) (Node.ids l).
Proof. apply in_map. Qed.

Lemma mem_node_iff (g : t) (n : Node.t) :
  mem_node g n = true <-> In (Node.id n) (Node.ids (nodes g)).
Proof.
  unfold mem_node, Node.ids. rewrite existsb_exists, in_map_iff. split.
  - intros [o [Hin He]]. apply eqb_iff in He. exists o. split; congruence.
  - intros [o [He Hin]]. exists o. split; [assumption | now apply eqb_iff].
Qed.

Lemma mem_node_false_iff (g : t) (n : Node.t) :
  mem_node g n = false <-> ~ In (Node.id n) (Node.ids (nodes g)).
Proof.
  rewrite <- mem_node_iff. destruct (mem_node g n); split; intros; congruence.
Qed.

(** Among the members of a well-formed graph the identity determines the
    node. *)
Lemma same_id_same_node (l : list Node.t) (a b : Node.t) :
  NoDup (Node.ids l) -> In a l -> In b l -> Node.id a = Node.id b -> a = b.
Proof.
  induction l as [|c l IH]; simpl; intros Hnd Ha Hb Hid; [contradiction|].
  inversion Hnd as [|? ? Hnotin Hnd']; subst.
  destruct Ha as [-> | Ha], Hb as [-> | Hb]; auto.
  - exfalso. apply Hnotin. rewrite Hid. now apply in_ids.
  - exfalso. apply Hnotin. rewrite <- Hid. now apply in_ids.
Qed.

Lemma joins_sym (a b : Node.t) (e : Node.t * Node.t) :
  joins a b e = joins b a e.
Proof. unfold joins. apply orb_comm. Qed.

Lemma has_edge_sym (g : t) (a b : Node.t) : has_edge g a b = has_edge g b a.
Proof.
  unfold has_edge. induction (edges g) as [|e l IH]; simpl; [reflexivity|].
  now rewrite IH, joins_sym.
Qed.

Lemma nodes_add_node_new (g : t) (n : Node.t) :
  mem_node g n = false -> nodes (add_node g n) = nodes g ++ [n].
Proof. unfold add_node. now intros ->. Qed.

Lemma add_node_member (g : t) (n : Node.t) :
  mem_node g n = true -> add_node g n = g.
Proof. unfold add_node. now intros ->. Qed.

Lemma edges_add_node (g : t) (n : Node.t) : edges (add_node g n) = edges g.
Proof. unfold add_node. now destruct (mem_node g n). Qed.

Lemma nodes_add_edge (g : t) (a b : Node.t) : nodes (add_edge g a b) = nodes g.
Proof. unfold add_edge. now destruct (has_edge g a b). Qed.

Lemma has_edge_add_edge (g : t) (a b c d : Node.t) :
  has_edge (add_edge g a b) c d = has_edge g c d || joins c d (a, b).
Proof.
  unfold add_edge. destruct (has_edge g a b) eqn:Hab.
  - destruct (joins c d (a, b)) eqn:Hj; [|now rewrite orb_false_r].
    rewrite orb_true_r. unfold joins in Hj. simpl in Hj.
    unfold has_edge in *. apply existsb_exists in Hab.
    destruct Hab as [e [Hin He]]. apply existsb_exists. exists e.
    split; [assumption|]. unfold joins in *.
    rewrite !orb_true_iff, !andb_true_iff, !eqb_iff in *.
    destruct Hj as [[H1 H2] | [H1 H2]], He as [[H3 H4] | [H3 H4]];
      [left | right | right | left]; split; congruence.
  - unfold has_edge. simpl. rewrite existsb_app. simpl.
    now rewrite orb_false_r.
Qed.

Lemma edges_add_edge (g : t) (a b : Node.t) :
  edges (add_edge g a b) = edges g
  \/ edges (add_edge g a b) = edges g ++ [(a, b)].
Proof. unfold add_edge. destruct (has_edge g a b); auto. Qed.

Lemma nodes_remove_node (g : t) (n : Node.t) :
  nodes (remove_node g n) = filter (fun o => negb (Node.eqb o n)) (nodes g).
Proof. reflexivity. Qed.

Lemma edges_remove_node (g : t) (n : Node.t) :
  edges (remove_node g n) = filter (fun e => negb (incident n e)) (edges g).
Proof. reflexivity. Qed.

(** Filtering keeps a list on which the test holds everywhere, and
    empties one on which it fails everywhere. *)
Lemma filter_all {A : Type} (f : A -> bool) (l : list A) :
  (forall a, In a l -> f a = true) -> filter f l = l.
Proof.
  induction l as [|a l IH]; simpl; intros Hall; [reflexivity|].
  rewrite (Hall a) by auto. f_equal. apply IH. auto.
Qed.

Lemma filter_none {A : Type} (f : A -> bool) (l : list A) :
  (forall a, In a l -> f a = false) -> filter f l = [].
Proof.
  induction l as [|a l IH]; simpl; intros Hall; [reflexivity|].
  rewrite (Hall a) by auto. apply IH. auto.
Qed.

End GraphFacts.

(** ** Facts about the neighbour connector *)

Section ConnectFacts.

Import SearchGraph.
Local Abbreviation connect_loop := PRMPlannerPolygon.connect_loop.
Local Abbreviation connect_graph := PRMPlannerPolygon.connect_graph.

Variables (w : World) (d : float).

Lemma nodes_connect_loop (n : Node.t) (others : list Node.t) (g : t) :
  nodes (connect_loop w d n others g) = nodes g.
Proof.
  revert g. induction others as [|o rest IH]; intros g; simpl; [reflexivity|].
  destruct (Node.eqb n o); [apply IH|].
  destruct (is_connectable w _ _ d); [|apply IH].
  now rewrite IH, nodes_add_edge.
Qed.

Lemma nodes_connect_graph (g : t) (n : Node.t) :
  nodes (connect_graph w d g n) = nodes g.
Proof. apply nodes_connect_loop. Qed.

Lemma has_edge_connect_loop (n : Node.t) (others : list Node.t) (g : t)
    (a b : Node.t) :
  has_edge (connect_loop w d n others g) a b
  = has_edge g a b
    || existsb (fun o => links w d n o && joins a b (n, o)) others.
Proof.
  revert g. induction others as [|o rest IH]; intros g; simpl.
  - now rewrite orb_false_r.
  - unfold links at 1. destruct (Node.eqb n o); simpl; [apply IH|].
    destruct (is_connectable w _ _ d); simpl; [|apply IH].
    rewrite IH, has_edge_add_edge. now rewrite orb_assoc.
Qed.

(** The connector only appends edges that leave [n] for one of the
    [others] it is linked to. *)
Lemma edges_connect_loop (n : Node.t) (others : list Node.t) (g : t) :
  exists new,
    edges (connect_loop w d n others g) = edges g ++ new
    /\ forall e, In e new ->
         fst e = n /\ In (snd e) others /\ links w d n (snd e) = true.
Proof.
  revert g. induction others as [|o rest IH]; intros g; simpl.
  - exists []. split; [now rewrite app_nil_r | contradiction].
  - destruct (Node.eqb n o) eqn:Hno.
    { destruct (IH g) as [new [E Hnew]]. exists new. split; [exact E|].
      intros e He. destruct (Hnew e He) as [? [? ?]]. auto. }
    destruct (is_connectable w (Node.pose n) (Node.pose o) d) eqn:Hc.
    2:{ destruct (IH g) as [new [E Hnew]]. exists new. split; [exact E|].
        intros e He. destruct (Hnew e He) as [? [? ?]]. auto. }
    destruct (IH (add_edge g n o)) as [new [E Hnew]].
    destruct (edges_add_edge g n o) as [E' | E']; rewrite E' in E.
    + exists new. split; [exact E|].
      intros e He. destruct (Hnew e He) as [? [? ?]]. auto.
    + exists ((n, o) :: new). split.
      * rewrite E, <- app_assoc. reflexivity.
      * intros e [<- | He].
        -- simpl. unfold links. rewrite Hno, Hc. auto.
        -- destruct (Hnew e He) as [? [? ?]]. auto.
Qed.

End ConnectFacts.

(* ================================================================== *)
(** ** Building the roadmap: [reset] *)

Section ResetFacts.

Import PRMPlannerPolygon.

Lemma sampled_prefix_length (w : World) (k todo : nat) :
  length (sampled_prefix w k todo) <= todo.
Proof.
  revert k. induction todo as [|todo IH]; intros k; simpl; [lia|].
  destruct (sample_free_robot_pose_uniform w k); simpl; [|lia].
  specialize (IH (S k)). lia.
Qed.

Lemma sampled_prefix_full (w : World) (k todo : nat) :
  (forall j, j < todo -> sample_free_robot_pose_uniform w (k + j) <> None) ->
  length (sampled_prefix w k todo) = todo.
Proof.
  revert k. induction todo as [|todo IH]; intros k Hall; simpl; [reflexivity|].
  destruct (sample_free_robot_pose_uniform w k) eqn:Hs.
  - simpl. f_equal. apply IH. intros j Hj.
    replace (S k + j) with (k + S j) by lia. apply Hall. lia.
  - exfalso. apply (Hall 0); [lia|]. now rewrite Nat.add_0_r.
Qed.

Lemma sampled_prefix_stops (w : World) (k todo i : nat) :
  i < todo ->
  (forall j, j < i -> sample_free_robot_pose_uniform w (k + j) <> None) ->
  sample_free_robot_pose_uniform w (k + i) = None ->
  length (sampled_prefix w k todo) = i.
Proof.
  revert k i. induction todo as [|todo IH]; intros k i Hi Hok Hfail; [lia|].
  simpl. destruct i as [|i].
  - rewrite Nat.add_0_r in Hfail. now rewrite Hfail.
  - destruct (sample_free_robot_pose_uniform w k) eqn:Hs.
    + simpl. f_equal. apply IH; [lia| |].
      * intros j Hj. replace (S k + j) with (k + S j) by lia.
        apply Hok. lia.
      * now replace (S k + i) with (k + S i) by lia.
    + exfalso. apply (Hok 0); [lia|]. now rewrite Nat.add_0_r.
Qed.

Lemma fresh_nodes_length (id0 : nat) (ps : list Pose.t) :
  length (fresh_nodes id0 ps) = length ps.
Proof.
  revert id0. induction ps as [|p ps IH]; intros id0; simpl; auto.
Qed.

Lemma fresh_nodes_poses (id0 : nat) (ps : list Pose.t) :
  map Node.pose (fresh_nodes id0 ps) = ps.
Proof.
  revert id0. induction ps as [|p ps IH]; intros id0; simpl; [auto|].
  now rewrite IH.
Qed.

Lemma fresh_nodes_ids (id0 : nat) (ps : list Pose.t) :
  Node.ids (fresh_nodes id0 ps) = seq id0 (length ps).
Proof.
  revert id0. induction ps as [|p ps IH]; intros id0; simpl; [auto|].
  unfold Node.ids in IH. now rewrite IH.
Qed.

(** What the sampling loop leaves behind, in closed form: the sampled
    poses become new nodes, appended in sampling order; the loop stops at
    the first failed attempt, which is counted and reported, and not
    repeated. *)
Lemma sample_nodes_run (todo : nat) (self : t) (i : nat) (r : Runtime) :
  (forall n, In n (SearchGraph.nodes (graph self)) -> Node.id n < next_id r) ->
  let ps := sampled_prefix (world self) (rng_calls r) todo in
  let k := length ps in
  sample_nodes self todo i r
  = (set_graph self
       (SearchGraph.mk
          (SearchGraph.nodes (graph self) ++ fresh_nodes (next_id r) ps)
          (SearchGraph.edges (graph self))),
     mkRuntime (next_id r + k)
               (rng_calls r + (if k <? todo then S k else k))
               (clock_reads r)
               (warnings r ++
                  (if k <? todo then [CouldNotSampleMoreThan (i + k)]
                   else []))).
Proof.
  revert self i r. induction todo as [|todo IH]; intros self i r Hfresh.
  - simpl. unfold ret. rewrite !app_nil_r, !Nat.add_0_r.
    destruct self as [? ? ? ? ? ? ? [ns es]], r; reflexivity.
  - simpl sampled_prefix. cbn [sample_nodes].
    unfold bind, sample_configuration, draw_sample. cbn [rng_calls].
    destruct (sample_free_robot_pose_uniform (world self) (rng_calls r))
      as [p|] eqn:Hs.
    + unfold new_Node at 1. cbn [next_id rng_calls clock_reads warnings].
      rewrite IH; cbn [graph set_graph world next_id rng_calls clock_reads
                       warnings].
      * assert (Hmem : SearchGraph.mem_node (graph self)
                         (Node.mk (next_id r) p None) = false).
        { apply mem_node_false_iff. intros Hin. unfold Node.ids in Hin.
          apply in_map_iff in Hin. destruct Hin as [o [Ho Hino]].
          apply Hfresh in Hino. simpl in Ho. lia. }
        rewrite (nodes_add_node_new _ _ Hmem), edges_add_node.
        rewrite <- app_assoc. cbn [app length].
        replace (S todo) with (1 + todo) by lia.
        change (S (length (sampled_prefix (world self) (S (rng_calls r)) todo))
                <? 1 + todo)
          with (length (sampled_prefix (world self) (S (rng_calls r)) todo)
                <? todo).
        unfold set_graph. cbn [max_connection_dist max_nodes world
          compress_path planning_time sampling_time latest_path graph].
        rewrite !Nat.add_succ_comm.
        destruct (length (sampled_prefix (world self) (S (rng_calls r)) todo)
                  <? todo); reflexivity.
      * intros n Hn. unfold SearchGraph.add_node in Hn.
        destruct (SearchGraph.mem_node (graph self) _).
        -- apply Hfresh in Hn. lia.
        -- simpl in Hn. apply in_app_or in Hn. destruct Hn as [Hn | [<- | []]].
           ++ apply Hfresh in Hn. lia.
           ++ simpl. lia.
    + unfold warn, ret. cbn [next_id rng_calls clock_reads warnings length].
      rewrite app_nil_r, !Nat.add_0_r.
      destruct self as [? ? ? ? ? ? ? [ns es]]; simpl.
      rewrite Nat.add_1_r. reflexivity.
Qed.

End ResetFacts.


Section ResetRun.

Context `{Externals}.
Import PRMPlannerPolygon.

Lemma fold_connect_neighbors (ns : list Node.t) (self : t) :
  fold_left connect_neighbors ns self
  = set_graph self
      (connect_all (world self) (max_connection_dist self) ns (graph self)).
Proof.
  revert self. induction ns as [|n ns IH]; intros self; simpl.
  - now destruct self.
  - rewrite IH. reflexivity.
Qed.

Lemma nodes_connect_all (w : World) (d : float) (ns : list Node.t)
    (g : SearchGraph.t) :
  SearchGraph.nodes (connect_all w d ns g) = SearchGraph.nodes g.
Proof.
  revert g. induction ns as [|n ns IH]; intros g; simpl; [reflexivity|].
  unfold connect_all in *. simpl. now rewrite IH, nodes_connect_graph.
Qed.

Lemma has_edge_connect_all (w : World) (d : float) (ns : list Node.t)
    (g : SearchGraph.t) (a b : Node.t) :
  SearchGraph.has_edge (connect_all w d ns g) a b
  = SearchGraph.has_edge g a b
    || existsb (fun n =>
          existsb (fun o => links w d n o && SearchGraph.joins a b (n, o))
                  (SearchGraph.nodes g)) ns.
Proof.
  revert g. induction ns as [|n ns IH]; intros g; simpl.
  - now rewrite orb_false_r.
  - unfold connect_all in *. simpl. rewrite IH.
    rewrite nodes_connect_graph. unfold connect_graph.
    rewrite has_edge_connect_loop. now rewrite orb_assoc.
Qed.

(** [reset] in closed form. *)
Lemma reset_run (self : t) (r : Runtime) :
  let ps := sampled_prefix (world self) (rng_calls r) (max_nodes self) in
  let k := length ps in
  let ns := fresh_nodes (next_id r) ps in
  reset self r
  = (mk (max_connection_dist self) (max_nodes self) (world self)
        (compress_path self) 0%float
        (time_time (S (clock_reads r)) - time_time (clock_reads r))%float
        Path.empty
        (connect_all (world self) (max_connection_dist self) ns
           (SearchGraph.mk ns [])),
     mkRuntime (next_id r + k)
               (rng_calls r + (if k <? max_nodes self then S k else k))
               (S (S (clock_reads r)))
               (warnings r ++
                  (if k <? max_nodes self then [CouldNotSampleMoreThan k]
                   else []))).
Proof.
  intros ps k ns. unfold reset, bind, now.
  rewrite sample_nodes_run by (simpl; contradiction).
  cbn. rewrite fold_connect_neighbors. reflexivity.
Qed.

End ResetRun.

(* ================================================================== *)
(** ** The graph invariant is kept by every graph operation the planner
       performs *)

Section WellFormed.

Import SearchGraph.
Local Abbreviation connect_loop := PRMPlannerPolygon.connect_loop.
Local Abbreviation connect_graph := PRMPlannerPolygon.connect_graph.

Lemma wf_no_edges (ns : list Node.t) :
  NoDup (Node.ids ns) -> wf (mk ns []).
Proof. intros Hnd. split; simpl; [assumption | contradiction | contradiction]. Qed.

Lemma wf_add_node (g : t) (n : Node.t) : wf g -> wf (add_node g n).
Proof.
  intros [Hnd Hend Hloop]. unfold add_node.
  destruct (mem_node g n) eqn:Hm; [now split|].
  apply mem_node_false_iff in Hm. split; simpl.
  - unfold Node.ids in *. rewrite map_app. simpl.
    apply NoDup_app; [assumption | repeat constructor; intros [] |].
    intros i Hi [<- | []]. contradiction.
  - intros e He. destruct (Hend e He). split; apply in_or_app; now left.
  - assumption.
Qed.

Lemma wf_add_edge (g : t) (a b : Node.t) :
  wf g -> In a (nodes g) -> In b (nodes g) -> Node.id a <> Node.id b ->
  wf (add_edge g a b).
Proof.
  intros [Hnd Hend Hloop] Ha Hb Hab. unfold add_edge.
  destruct (has_edge g a b); [now split|].
  split; simpl; [assumption | |].
  - intros e He. apply in_app_or in He. destruct He as [He | [<- | []]]; auto.
  - intros e He. apply in_app_or in He. destruct He as [He | [<- | []]]; auto.
Qed.

Variables (w : World) (d : float).

Lemma wf_connect_loop (n : Node.t) (others : list Node.t) (g : t) :
  wf g -> In n (nodes g) -> incl others (nodes g) ->
  wf (connect_loop w d n others g).
Proof.
  revert g. induction others as [|o rest IH]; intros g Hwf Hn Hincl; simpl;
    [assumption|].
  assert (Hrest : incl rest (nodes g)) by (intros c Hc; apply Hincl; now right).
  destruct (Node.eqb n o) eqn:Hno; [now apply IH|].
  destruct (is_connectable w _ _ d); [|now apply IH].
  apply IH; rewrite ?nodes_add_edge; auto.
  apply wf_add_edge; auto.
  - apply Hincl. now left.
  - now apply eqb_false_iff.
Qed.

Lemma wf_connect_graph (g : t) (n : Node.t) :
  wf g -> In n (nodes g) -> wf (connect_graph w d g n).
Proof. intros. apply wf_connect_loop; auto. apply incl_refl. Qed.

Lemma wf_connect_all (ns : list Node.t) (g : t) :
  wf g -> incl ns (nodes g) -> wf (connect_all w d ns g).
Proof.
  revert g. induction ns as [|n ns IH]; intros g Hwf Hincl; [assumption|].
  unfold connect_all in *. simpl. apply IH.
  - apply wf_connect_graph; auto. apply Hincl. now left.
  - rewrite nodes_connect_graph. intros c Hc. apply Hincl. now right.
Qed.

Lemma wf_remove_node (g : t) (n : Node.t) : wf g -> wf (remove_node g n).
Proof.
  intros [Hnd Hend Hloop]. split; simpl.
  - unfold Node.ids in *. clear Hend Hloop.
    induction (nodes g) as [|c l IH]; simpl; [constructor|].
    inversion Hnd as [|? ? Hnotin Hnd']; subst.
    destruct (negb (Node.eqb c n)); simpl; auto.
    constructor; auto. intros Hin. apply Hnotin.
    apply in_map_iff in Hin. destruct Hin as [o [Ho Hino]].
    apply filter_In in Hino. apply in_map_iff. exists o. tauto.
  - intros e He. apply filter_In in He. destruct He as [He Hinc].
    destruct (Hend e He) as [H1 H2]. unfold incident in Hinc.
    rewrite negb_orb, andb_true_iff in Hinc. destruct Hinc as [Hf Hs].
    split; apply filter_In; auto.
  - intros e He. apply filter_In in He. apply Hloop. tauto.
Qed.

End WellFormed.

(* ================================================================== *)
(** ** The built roadmap *)

Section Built.

Context `{Externals}.
Import PRMPlannerPolygon.

Lemma sampled_prefix_values (w : World) (k todo : nat) :
  map Some (sampled_prefix w k todo)
  = map (fun j => sample_free_robot_pose_uniform w (k + j))
        (seq 0 (length (sampled_prefix w k todo))).
Proof.
  revert k. induction todo as [|todo IH]; intros k; simpl; [reflexivity|].
  destruct (sample_free_robot_pose_uniform w k) eqn:Hs; simpl; [|reflexivity].
  rewrite Nat.add_0_r, Hs. f_equal.
  rewrite IH, <- seq_shift, map_map.
  apply map_ext. intros j. f_equal. lia.
Qed.

Lemma reset_nodes (self : t) (r : Runtime) :
  SearchGraph.nodes (graph (fst (reset self r)))
  = fresh_nodes (next_id r)
      (sampled_prefix (world self) (rng_calls r) (max_nodes self)).
Proof. rewrite reset_run. simpl. now rewrite nodes_connect_all. Qed.

Lemma fresh_nodes_nodup (id0 : nat) (ps : list Pose.t) :
  NoDup (Node.ids (fresh_nodes id0 ps)).
Proof. rewrite fresh_nodes_ids. apply seq_NoDup. Qed.

Lemma reset_wf (self : t) (r : Runtime) :
  SearchGraph.wf (graph (fst (reset self r))).
Proof.
  rewrite reset_run. simpl. apply wf_connect_all.
  - apply wf_no_edges, fresh_nodes_nodup.
  - apply incl_refl.
Qed.

(** C5.  A build with [max_nodes = N] leaves at most N nodes, one per
    successful sample and in sampling order.  It leaves exactly N, without
    a diagnostic, when none of the N attempts fails.  When attempt [i] is
    the first to fail, the build stops there: the sampler has been called
    [i + 1] times and not again, the [i] nodes sampled so far are kept, and
    one warning reporting [i] has been emitted. *)
Theorem reset_samples_up_to_max_nodes (self : t) (r : Runtime) :
  let built := fst (reset self r) in
  let r' := snd (reset self r) in
  let N := max_nodes self in
  let count := length (SearchGraph.nodes (graph built)) in
  let attempt j := sample_free_robot_pose_uniform (world self) (rng_calls r + j) in
  count <= N
  /\ map (fun n => Some (Node.pose n)) (SearchGraph.nodes (graph built))
     = map attempt (seq 0 count)
  /\ ((forall j, j < N -> attempt j <> None) ->
      count = N /\ warnings r' = warnings r /\ rng_calls r' = rng_calls r + N)
  /\ (forall i, i < N ->
      (forall j, j < i -> attempt j <> None) -> attempt i = None ->
      count = i
      /\ rng_calls r' = rng_calls r + S i
      /\ warnings r' = warnings r ++ [CouldNotSampleMoreThan i]).
Proof.
  intros built r' N count attempt.
  assert (Hcount : count
            = length (sampled_prefix (world self) (rng_calls r) N)).
  { unfold count, built. now rewrite reset_nodes, fresh_nodes_length. }
  split; [rewrite Hcount; apply sampled_prefix_length|].
  split.
  { rewrite Hcount. unfold built. rewrite reset_nodes.
    rewrite <- (map_map Node.pose Some), fresh_nodes_poses.
    apply sampled_prefix_values. }
  unfold r'. rewrite reset_run. cbn [snd warnings rng_calls].
  fold N. rewrite <- Hcount. split.
  - intros Hall. assert (HN : count = N).
    { rewrite Hcount. now apply sampled_prefix_full. }
    rewrite HN, Nat.ltb_irrefl, app_nil_r. auto.
  - intros i Hi Hok Hfail. assert (Hc : count = i).
    { rewrite Hcount. now apply sampled_prefix_stops. }
    rewrite Hc. apply Nat.ltb_lt in Hi. rewrite Hi. auto.
Qed.

(** C4.  After [reset] no edge is a self-loop, and connection is decided
    on the final node set: the pass runs after sampling is over.  For an
    oracle that is symmetric in its two poses, as the spec assumes, two
    distinct nodes of the roadmap are joined by an edge exactly when the
    oracle connects the first to the second.  Without that assumption they
    are joined exactly when the oracle connects one of them to the other,
    in either order of its two pose arguments. *)
Theorem reset_edge_iff_connectable_either_way (self : t) (r : Runtime) :
  let built := fst (reset self r) in
  let connectable a b :=
    is_connectable (world built) (Node.pose a) (Node.pose b)
      (max_connection_dist built) in
  (forall e, In e (SearchGraph.edges (graph built)) ->
             Node.id (fst e) <> Node.id (snd e))
  /\ (forall a b,
        In a (SearchGraph.nodes (graph built)) ->
        In b (SearchGraph.nodes (graph built)) ->
        a <> b ->
        (SearchGraph.has_edge (graph built) a b = true
         <-> connectable a b = true \/ connectable b a = true))
  /\ ((forall a b, connectable a b = connectable b a) ->
      forall a b,
        In a (SearchGraph.nodes (graph built)) ->
        In b (SearchGraph.nodes (graph built)) ->
        a <> b ->
        (SearchGraph.has_edge (graph built) a b = true
         <-> connectable a b = true)).
Proof.
  intros built connectable.
  assert (Hpairs : forall a b,
        In a (SearchGraph.nodes (graph built)) ->
        In b (SearchGraph.nodes (graph built)) ->
        a <> b ->
        (SearchGraph.has_edge (graph built) a b = true
         <-> connectable a b = true \/ connectable b a = true));
    [| split; [apply SearchGraph.wf_no_loop, reset_wf | split; [exact Hpairs|]];
       intros Hsym a b Ha Hb Hab; rewrite (Hpairs a b Ha Hb Hab);
       rewrite (Hsym b a); tauto ].
  intros a b Ha Hb Hab.
  assert (Hnd : NoDup (Node.ids (SearchGraph.nodes (graph built)))).
  { apply SearchGraph.wf_nodup, reset_wf. }
  assert (Hid : Node.id a <> Node.id b).
  { intros Hid. apply Hab. eapply same_id_same_node; eauto. }
  revert Ha Hb Hnd. unfold connectable, built. rewrite reset_run.
  cbn [fst graph world max_connection_dist].
  rewrite nodes_connect_all, has_edge_connect_all.
  cbn [SearchGraph.nodes SearchGraph.has_edge SearchGraph.edges existsb orb].
  set (ns := fresh_nodes _ _). intros Ha Hb Hnd.
  rewrite existsb_exists. split.
  - intros [n [Hn Hex]]. apply existsb_exists in Hex.
    destruct Hex as [o [Ho Hlk]]. apply andb_true_iff in Hlk.
    destruct Hlk as [Hlk Hj]. unfold links in Hlk.
    apply andb_true_iff in Hlk. destruct Hlk as [_ Hc].
    unfold SearchGraph.joins in Hj. simpl in Hj.
    rewrite orb_true_iff, !andb_true_iff, !eqb_iff in Hj.
    destruct Hj as [[H1 H2] | [H1 H2]].
    + assert (n = a) by (eapply same_id_same_node; eauto).
      assert (o = b) by (eapply same_id_same_node; eauto).
      subst. now left.
    + assert (n = b) by (eapply same_id_same_node; eauto).
      assert (o = a) by (eapply same_id_same_node; eauto).
      subst. now right.
  - intros [Hc | Hc].
    + exists a. split; [assumption|]. apply existsb_exists.
      exists b. split; [assumption|]. unfold links, SearchGraph.joins.
      simpl. rewrite Hc, !eqb_refl.
      apply eqb_false_iff in Hid. now rewrite Hid.
    + exists b. split; [assumption|]. apply existsb_exists.
      exists a. split; [assumption|]. unfold links, SearchGraph.joins.
      simpl. rewrite Hc, !eqb_refl.
      assert (Hba : Node.eqb b a = false)
        by (apply eqb_false_iff; congruence).
      now rewrite Hba.
Qed.

End Built.

(* ================================================================== *)
(** ** Queries: [plan] *)

Section PlanRun.

Context `{Externals}.
Import PRMPlannerPolygon.

(** [plan] in closed form, by the outcome of the search. *)
Lemma plan_run (self : t) (start goal : PoseOrNode) (r : Runtime) :
  let s := start_node r start in
  let g := goal_node r start goal in
  let r2 := runtime_with_nodes r start goal in
  let G := query_graph self s g in
  plan self start goal r
  = match waypoints_of self start goal r with
    | [] =>
        (Path.empty,
         mk (max_connection_dist self) (max_nodes self) (world self)
            (compress_path self) 0%float (sampling_time self) Path.empty G,
         tick r2)
    | n :: l =>
        let path_poses :=
          if compress_path self
          then reduce_waypoints_polygon (world self) (map Node.pose (n :: l))
          else map Node.pose (n :: l) in
        let path := fill_yaws (Path.mk path_poses) in
        (path,
         mk (max_connection_dist self) (max_nodes self) (world self)
            (compress_path self)
            (time_time (S (clock_reads r2)) - time_time (clock_reads r2))%float
            (sampling_time self) path
            (SearchGraph.remove_node (SearchGraph.remove_node G s) g),
         tick (tick r2))
    end.
Proof.
  unfold waypoints_of, start_node, goal_node, runtime_with_nodes, query_graph.
  unfold plan, bind.
  destruct (as_node start r) as [s r1]. cbn [fst snd].
  destruct (as_node goal r1) as [g r2]. cbn [fst snd].
  unfold connect_neighbors, now, ret, tick.
  cbn [graph set_graph set_latest_path set_planning_time world
       max_connection_dist max_nodes compress_path planning_time
       sampling_time latest_path].
  destruct (find_path _ s g); reflexivity.
Qed.

End PlanRun.

Section ListFacts.

Context {A : Type}.

Lemma filter_filter_and (f1 f2 : A -> bool) (l : list A) :
  filter f2 (filter f1 l) = filter (fun a => f1 a && f2 a) l.
Proof.
  induction l as [|a l IH]; simpl; [reflexivity|].
  destruct (f1 a); simpl; [|assumption].
  destruct (f2 a); simpl; now rewrite IH.
Qed.

Lemma filter_keep_drop (f : A -> bool) (keep drop : list A) :
  (forall a, In a keep -> f a = true) ->
  (forall a, In a drop -> f a = false) ->
  filter f (keep ++ drop) = keep.
Proof.
  intros Hk Hd. rewrite filter_app, (filter_all _ _ Hk), (filter_none _ _ Hd).
  apply app_nil_r.
Qed.

End ListFacts.

Section QueryGraph.

Import SearchGraph.
Local Abbreviation connect_graph := PRMPlannerPolygon.connect_graph.

Lemma nodes_add_node_shape (g : t) (n : Node.t) :
  exists extra,
    nodes (add_node g n) = nodes g ++ extra
    /\ forall a, In a extra -> a = n.
Proof.
  unfold add_node. destruct (mem_node g n).
  - exists []. split; [now rewrite app_nil_r | contradiction].
  - exists [n]. split; [reflexivity|]. now intros a [<- | []].
Qed.

Lemma add_node_is_member (g : t) (n : Node.t) :
  mem_node (add_node g n) n = true.
Proof.
  unfold add_node. destruct (mem_node g n) eqn:Hm; [assumption|].
  unfold mem_node. simpl. rewrite existsb_app. simpl.
  now rewrite eqb_refl, orb_true_r.
Qed.

Lemma add_node_keeps_nodes (g : t) (n a : Node.t) :
  In a (nodes g) -> In a (nodes (add_node g n)).
Proof.
  unfold add_node. destruct (mem_node g n); [auto|].
  simpl. intros. apply in_or_app. now left.
Qed.

Lemma add_node_new_in (g : t) (n : Node.t) :
  mem_node g n = false -> In n (nodes (add_node g n)).
Proof.
  intros Hm. rewrite (nodes_add_node_new _ _ Hm). apply in_or_app.
  right. now left.
Qed.

Variable self : PRMPlannerPolygon.t.

Lemma nodes_query_graph (s g : Node.t) :
  nodes (query_graph self s g)
  = nodes (add_node (add_node (PRMPlannerPolygon.graph self) s) g).
Proof. unfold query_graph. now rewrite !nodes_connect_graph. Qed.

Lemma query_graph_keeps_nodes (s g m : Node.t) :
  In m (nodes (PRMPlannerPolygon.graph self)) ->
  In m (nodes (query_graph self s g)).
Proof.
  intros Hm. rewrite nodes_query_graph. now repeat apply add_node_keeps_nodes.
Qed.

Lemma edges_query_graph (s g : Node.t) :
  exists new_s new_g,
    edges (query_graph self s g)
    = edges (PRMPlannerPolygon.graph self) ++ new_s ++ new_g
    /\ (forall e, In e new_s -> fst e = s)
    /\ (forall e, In e new_g -> fst e = g).
Proof.
  unfold query_graph, PRMPlannerPolygon.connect_graph.
  set (w := PRMPlannerPolygon.world self).
  set (d := PRMPlannerPolygon.max_connection_dist self).
  set (g0 := add_node (add_node (PRMPlannerPolygon.graph self) s) g).
  destruct (edges_connect_loop w d s (nodes g0) g0) as [new_s [Es Hs]].
  set (g1 := PRMPlannerPolygon.connect_loop w d s (nodes g0) g0) in *.
  destruct (edges_connect_loop w d g (nodes g1) g1) as [new_g [Eg Hg]].
  exists new_s, new_g. split; [|split].
  - rewrite Eg, Es. unfold g0. rewrite !edges_add_node.
    now rewrite app_assoc.
  - intros e He. now destruct (Hs e He).
  - intros e He. now destruct (Hg e He).
Qed.

(** Which pairs of nodes the roadmap of the query joins. *)
Lemma has_edge_query_graph (s g x y : Node.t) :
  has_edge (query_graph self s g) x y
  = has_edge (PRMPlannerPolygon.graph self) x y
    || existsb
         (fun o =>
            links (PRMPlannerPolygon.world self)
                  (PRMPlannerPolygon.max_connection_dist self) s o
            && joins x y (s, o))
         (nodes (query_graph self s g))
    || existsb
         (fun o =>
            links (PRMPlannerPolygon.world self)
                  (PRMPlannerPolygon.max_connection_dist self) g o
            && joins x y (g, o))
         (nodes (query_graph self s g)).
Proof.
  rewrite nodes_query_graph.
  unfold query_graph, PRMPlannerPolygon.connect_graph.
  rewrite has_edge_connect_loop, nodes_connect_loop.
  rewrite has_edge_connect_loop.
  f_equal. f_equal. unfold has_edge. now rewrite !edges_add_node.
Qed.

Lemma query_graph_links_start (s g y : Node.t) :
  In y (nodes (query_graph self s g)) ->
  links (PRMPlannerPolygon.world self)
        (PRMPlannerPolygon.max_connection_dist self) s y = true ->
  has_edge (query_graph self s g) s y = true.
Proof.
  intros Hy Hl. rewrite has_edge_query_graph.
  apply orb_true_iff. left. apply orb_true_iff. right.
  apply existsb_exists. exists y. split; [assumption|].
  rewrite Hl. unfold joins. simpl. now rewrite !eqb_refl.
Qed.

Lemma query_graph_links_goal (s g y : Node.t) :
  In y (nodes (query_graph self s g)) ->
  links (PRMPlannerPolygon.world self)
        (PRMPlannerPolygon.max_connection_dist self) g y = true ->
  has_edge (query_graph self s g) g y = true.
Proof.
  intros Hy Hl. rewrite has_edge_query_graph.
  apply orb_true_iff. right.
  apply existsb_exists. exists y. split; [assumption|].
  rewrite Hl. unfold joins. simpl. now rewrite !eqb_refl.
Qed.

(** The roadmap of a query is well formed when its two nodes are in it. *)
Lemma wf_query_graph_members (s g : Node.t) :
  wf (PRMPlannerPolygon.graph self) ->
  In s (nodes (query_graph self s g)) ->
  In g (nodes (query_graph self s g)) ->
  wf (query_graph self s g).
Proof.
  rewrite nodes_query_graph. intros Hwf Hs Hg.
  unfold query_graph. apply wf_connect_graph.
  - apply wf_connect_graph; [now repeat apply wf_add_node | assumption].
  - now rewrite nodes_connect_graph.
Qed.

(** Every node of the roadmap of a query is a member of the roadmap or one
    of the two query nodes. *)
Lemma query_graph_node_cases (s g x : Node.t) :
  In x (nodes (query_graph self s g)) ->
  In x (nodes (PRMPlannerPolygon.graph self)) \/ x = s \/ x = g.
Proof.
  rewrite nodes_query_graph.
  destruct (nodes_add_node_shape
              (add_node (PRMPlannerPolygon.graph self) s) g)
    as [xg [-> Hxg]].
  destruct (nodes_add_node_shape (PRMPlannerPolygon.graph self) s)
    as [xs [-> Hxs]].
  intros Hx. apply in_app_or in Hx. destruct Hx as [Hx | Hx]; [|auto].
  apply in_app_or in Hx. destruct Hx as [Hx | Hx]; auto.
Qed.

(** Removing the two query nodes undoes the query's changes to a roadmap
    that held neither of them. *)
Lemma remove_query_nodes (s g : Node.t) :
  wf (PRMPlannerPolygon.graph self) ->
  ~ In (Node.id s) (Node.ids (nodes (PRMPlannerPolygon.graph self))) ->
  ~ In (Node.id g) (Node.ids (nodes (PRMPlannerPolygon.graph self))) ->
  remove_node (remove_node (query_graph self s g) s) g
  = PRMPlannerPolygon.graph self.
Proof.
  intros Hwf Hs Hg.
  assert (Hns : forall a, In a (nodes (PRMPlannerPolygon.graph self)) ->
                  Node.eqb a s = false /\ Node.eqb a g = false).
  { intros a Ha. split; apply eqb_false_iff; intros Hid;
      [apply Hs | apply Hg]; rewrite <- Hid; now apply in_ids. }
  unfold remove_node. cbn [nodes edges].
  rewrite !filter_filter_and, nodes_query_graph.
  destruct (edges_query_graph s g) as [new_s [new_g [E [Hnew_s Hnew_g]]]].
  rewrite E.
  destruct (nodes_add_node_shape (PRMPlannerPolygon.graph self) s)
    as [xs [Ns Hxs]].
  destruct (nodes_add_node_shape
              (add_node (PRMPlannerPolygon.graph self) s) g)
    as [xg [Ng Hxg]].
  rewrite Ng, Ns, <- app_assoc.
  rewrite !filter_keep_drop.
  - now destruct (PRMPlannerPolygon.graph self).
  - intros e He. destruct (wf_endpoints Hwf e He) as [H1 H2].
    unfold incident. destruct (Hns _ H1) as [-> ->].
    now destruct (Hns _ H2) as [-> ->].
  - intros e He. unfold incident. apply in_app_or in He.
    destruct He as [He | He].
    + rewrite (Hnew_s e He), eqb_refl. reflexivity.
    + rewrite (Hnew_g e He), eqb_refl. simpl. apply andb_false_r.
  - intros a Ha. now destruct (Hns a Ha) as [-> ->].
  - intros a Ha. apply in_app_or in Ha. destruct Ha as [Ha | Ha].
    + rewrite (Hxs a Ha), eqb_refl. reflexivity.
    + rewrite (Hxg a Ha), eqb_refl. simpl. apply andb_false_r.
Qed.

End QueryGraph.

Section FillYaws.

Context `{Externals}.

Lemma fill_from_positions (prev : Pose.t) (rest : list Pose.t) :
  map position (fill_from prev rest) = map position rest.
Proof.
  revert prev. induction rest as [|cur tl IH]; intros prev; [reflexivity|].
  destruct tl as [|nxt tl]; [reflexivity|].
  change (fill_from prev (cur :: nxt :: tl))
    with (Pose.set_yaw cur
            (arctan2 (Pose.y cur - Pose.y prev) (Pose.x cur - Pose.x prev))
          :: fill_from cur (nxt :: tl)).
  rewrite map_cons, IH. reflexivity.
Qed.

Lemma fill_from_last (prev : Pose.t) (rest : list Pose.t) (d : Pose.t) :
  last (fill_from prev rest) d = last rest d.
Proof.
  revert prev. induction rest as [|cur tl IH]; intros prev; [reflexivity|].
  destruct tl as [|nxt tl]; [reflexivity|].
  change (fill_from prev (cur :: nxt :: tl))
    with (Pose.set_yaw cur
            (arctan2 (Pose.y cur - Pose.y prev) (Pose.x cur - Pose.x prev))
          :: fill_from cur (nxt :: tl)).
  specialize (IH cur). destruct (fill_from cur (nxt :: tl)) eqn:Hf.
  - apply (f_equal (map position)) in Hf.
    rewrite fill_from_positions in Hf. discriminate.
  - exact IH.
Qed.

Lemma fill_yaws_positions (p : Path.t) :
  map position (Path.poses (fill_yaws p)) = map position (Path.poses p).
Proof.
  unfold fill_yaws. destruct (Path.poses p) as [|first rest] eqn:Hp;
    [now rewrite Hp|].
  simpl. now rewrite fill_from_positions.
Qed.

Lemma fill_yaws_first (p : Path.t) :
  hd_error (Path.poses (fill_yaws p)) = hd_error (Path.poses p).
Proof.
  unfold fill_yaws. destruct (Path.poses p) eqn:Hp; [now rewrite Hp|].
  reflexivity.
Qed.

Lemma fill_yaws_last (p : Path.t) (d : Pose.t) :
  last (Path.poses (fill_yaws p)) d = last (Path.poses p) d.
Proof.
  unfold fill_yaws. destruct (Path.poses p) as [|first rest] eqn:Hp;
    [now rewrite Hp|].
  cbn [Path.poses]. destruct rest as [|cur tl]; [reflexivity|].
  pose proof (fill_from_last first (cur :: tl) d) as Hl.
  destruct (fill_from first (cur :: tl)) eqn:Hf.
  - apply (f_equal (map position)) in Hf.
    rewrite fill_from_positions in Hf. discriminate.
  - exact Hl.
Qed.

(** A path of one or two poses has no interior waypoint. *)
Lemma fill_yaws_two (a b : Pose.t) :
  fill_yaws (Path.mk [a; b]) = Path.mk [a; b].
Proof. reflexivity. Qed.

End FillYaws.

Section PlanProperties.

Context `{Externals} `{PathPlannerBase}.
Import PRMPlannerPolygon.

Lemma next_id_after_start (r : Runtime) (start : PoseOrNode) :
  next_id r <= next_id (snd (as_node start r)).
Proof. destruct start; simpl; lia. Qed.

Lemma transient_start_fresh (self : t) (r : Runtime) (start : PoseOrNode) :
  wf_state self r -> transient self r start ->
  ~ In (Node.id (start_node r start))
       (Node.ids (SearchGraph.nodes (graph self))).
Proof.
  intros [_ Hlt] Htr. destruct start as [p | n]; simpl in *; [|tauto].
  intros Hin. unfold Node.ids in Hin. apply in_map_iff in Hin.
  destruct Hin as [o [Hid Ho]]. apply Hlt in Ho. lia.
Qed.

Lemma transient_goal_fresh (self : t) (r : Runtime) (start goal : PoseOrNode) :
  wf_state self r -> transient self r goal ->
  ~ In (Node.id (goal_node r start goal))
       (Node.ids (SearchGraph.nodes (graph self))).
Proof.
  intros [_ Hlt] Htr. unfold goal_node.
  destruct goal as [p | n]; simpl in *; [|tauto].
  intros Hin. unfold Node.ids in Hin. apply in_map_iff in Hin.
  destruct Hin as [o [Hid Ho]]. apply Hlt in Ho.
  pose proof (next_id_after_start r start). lia.
Qed.

(** C3.  When the search of a query reports that the goal cannot be
    reached, [plan] returns a path without poses (it is the planner's
    latest path too), and the planning time stays at the value it was reset
    to, 0.  [plan] has no exceptional outcome. *)
Theorem plan_unreachable_returns_empty_path
    (self : t) (start goal : PoseOrNode) (r : Runtime) :
  waypoints_of self start goal r = [] ->
  let path := fst (fst (plan self start goal r)) in
  let self' := snd (fst (plan self start goal r)) in
  Path.poses path = []
  /\ Path.num_poses path = 0
  /\ latest_path self' = path
  /\ planning_time self' = 0%float.
Proof.
  intros Hwp. rewrite plan_run, Hwp. cbn. auto.
Qed.

(** C6, amended.  On a successful query with [compress_path = false] the
    returned path is [fill_yaws] applied to the poses of the nodes the
    search returned: as many poses, in the same order and at the same
    positions, the first and the last pose unmodified; the headings of the
    waypoints in between are the ones [fill_yaws] derives. *)
Theorem plan_uncompressed_path_follows_waypoints
    (self : t) (start goal : PoseOrNode) (r : Runtime) :
  compress_path self = false ->
  waypoints_of self start goal r <> [] ->
  let path := fst (fst (plan self start goal r)) in
  let node_poses := map Node.pose (waypoints_of self start goal r) in
  path = fill_yaws (Path.mk node_poses)
  /\ map position (Path.poses path) = map position node_poses
  /\ length (Path.poses path) = length node_poses
  /\ hd_error (Path.poses path) = hd_error node_poses
  /\ (forall d, last (Path.poses path) d = last node_poses d).
Proof.
  intros Hc Hwp. cbv zeta. rewrite plan_run.
  destruct (waypoints_of self start goal r) as [|n l] eqn:E; [congruence|].
  rewrite Hc. cbn [fst].
  set (ps := map Node.pose (n :: l)).
  pose proof (fill_yaws_positions (Path.mk ps)) as Hpos.
  split; [reflexivity|]. split; [exact Hpos|]. split; [|split].
  - apply (f_equal (@length _)) in Hpos. now rewrite !length_map in Hpos.
  - apply fill_yaws_first.
  - intros d. apply fill_yaws_last.
Qed.

(** C10.  A query whose start or goal is given as a node that is a member
    of the roadmap removes that node on success: when [plan] returns, no
    member has its identity and no edge touches it.  The removal makes no
    difference between the query nodes: every member that is neither start
    nor goal stays. *)
Theorem plan_removes_member_query_node
    (self : t) (start goal : PoseOrNode) (r : Runtime) (n : Node.t) :
  start = IsNode n \/ goal = IsNode n ->
  In n (SearchGraph.nodes (graph self)) ->
  waypoints_of self start goal r <> [] ->
  let self' := snd (fst (plan self start goal r)) in
  ~ In (Node.id n) (Node.ids (SearchGraph.nodes (graph self')))
  /\ (forall e, In e (SearchGraph.edges (graph self')) ->
                SearchGraph.incident n e = false)
  /\ (forall o, SearchGraph.has_edge (graph self') n o = false)
  /\ (forall m, In m (SearchGraph.nodes (graph self)) ->
                Node.id m <> Node.id (start_node r start) ->
                Node.id m <> Node.id (goal_node r start goal) ->
                In m (SearchGraph.nodes (graph self'))).
Proof.
  intros Harg Hmem Hwp. cbv zeta. rewrite plan_run.
  destruct (waypoints_of self start goal r) as [|m l] eqn:E; [congruence|].
  cbn [fst snd graph].
  set (s := start_node r start). set (g := goal_node r start goal).
  assert (Hn : Node.eqb n s = true \/ Node.eqb n g = true).
  { destruct Harg as [-> | ->].
    - left. apply eqb_refl.
    - right. unfold g, goal_node. simpl. apply eqb_refl. }
  assert (Hedges : forall e,
            In e (SearchGraph.edges
                    (SearchGraph.remove_node
                       (SearchGraph.remove_node (query_graph self s g) s) g)) ->
            SearchGraph.incident n e = false).
  { intros e He. simpl in He. rewrite filter_filter_and in He.
    apply filter_In in He. destruct He as [_ He].
    rewrite andb_true_iff, !negb_true_iff in He. destruct He as [H1 H2].
    destruct Hn as [Hn | Hn]; apply eqb_iff in Hn;
      unfold SearchGraph.incident, Node.eqb in *; rewrite Hn; assumption. }
  split; [|split; [|split]].
  - simpl. rewrite filter_filter_and. intros Hin.
    unfold Node.ids in Hin. apply in_map_iff in Hin.
    destruct Hin as [o [Hid Ho]]. apply filter_In in Ho.
    destruct Ho as [_ Ho]. rewrite andb_true_iff, !negb_true_iff in Ho.
    destruct Ho as [H1 H2]. unfold Node.eqb in *.
    rewrite Hid in H1, H2. destruct Hn; congruence.
  - exact Hedges.
  - intros o. unfold SearchGraph.has_edge.
    destruct (existsb _ _) eqn:Hex; [|reflexivity].
    apply existsb_exists in Hex. destruct Hex as [e [He Hj]].
    apply Hedges in He. unfold SearchGraph.joins, SearchGraph.incident in *.
    rewrite orb_false_iff in He. destruct He as [H1 H2].
    rewrite H1, H2 in Hj. simpl in Hj. now rewrite andb_false_r in Hj.
  - intros o Ho Hos Hog. simpl. rewrite filter_filter_and.
    apply filter_In. split; [now apply query_graph_keeps_nodes|].
    apply andb_true_iff. split; now apply negb_true_iff, eqb_false_iff.
Qed.

(** C2, amended.  A successful query whose start and goal are raw poses,
    or nodes that are not in the roadmap, leaves the roadmap as it found
    it: the same nodes and the same edges, in the same order even. *)
Theorem plan_success_restores_roadmap
    (self : t) (start goal : PoseOrNode) (r : Runtime) :
  wf_state self r ->
  transient self r start -> transient self r goal ->
  waypoints_of self start goal r <> [] ->
  graph (snd (fst (plan self start goal r))) = graph self
  /\ roadmap_restored self start goal r.
Proof.
  intros Hwf Hs Hg Hwp.
  assert (Hsame : graph (snd (fst (plan self start goal r))) = graph self).
  { rewrite plan_run.
    destruct (waypoints_of self start goal r) as [|m l] eqn:E; [congruence|].
    cbn [fst snd graph]. apply remove_query_nodes.
    - apply Hwf.
    - now apply transient_start_fresh.
    - now apply transient_goal_fresh. }
  split; [exact Hsame|].
  unfold roadmap_restored, same_members. rewrite Hsame. split; reflexivity.
Qed.

(** C8.  Constructing the factory with a [grid] that counts as true raises
    [NotImplementedError] at once: no planner is returned, none is built in
    place of the grid variant, and nothing has been sampled, allocated or
    reported by then. *)
Theorem init_grid_requested_raises (cfg : planner_config) (r : Runtime) :
  truthy (get (cfg_grid cfg) PyNone) = true ->
  PRMPlanner.init cfg r
  = (Raises (NotImplementedError "Grid based PRM is not supported. "), r).
Proof.
  intros Hgrid. unfold PRMPlanner.init. now rewrite Hgrid.
Qed.

End PlanProperties.

(* ================================================================== *)
(** ** The reference collaborators meet the contracts *)

Section Walks.

Import SearchGraph.
Variable g : t.

Lemma walk_head (a c : Node.t) (p : list Node.t) :
  walk g a c p -> exists tl, p = a :: tl.
Proof. intros Hw. destruct Hw; eauto. Qed.

Lemma walk_start_member (a c : Node.t) (p : list Node.t) :
  walk g a c p -> In a (nodes g).
Proof. intros Hw. now destruct Hw. Qed.

Lemma walk_members (a c : Node.t) (p : list Node.t) :
  walk g a c p -> forall x, In x p -> In x (nodes g).
Proof.
  induction 1 as [a Ha | a b c p Ha Hab Hw IH]; intros x Hx.
  - destruct Hx as [<- | []]. assumption.
  - destruct Hx as [<- | Hx]; auto.
Qed.

Lemma walk_end_member (a c : Node.t) (p : list Node.t) :
  walk g a c p -> In c (nodes g).
Proof. induction 1; assumption. Qed.

(** A walk can be entered at any node it visits. *)
Lemma walk_from_visited (a c x : Node.t) (p : list Node.t) :
  walk g a c p -> In x p ->
  exists before rest, p = before ++ rest /\ walk g x c rest.
Proof.
  induction 1 as [a Ha | a b c p Ha Hab Hw IH]; intros Hx.
  - destruct Hx as [<- | []]. exists [], [a]. split; [reflexivity|].
    now constructor.
  - destruct Hx as [<- | Hx].
    + exists [], (a :: p). split; [reflexivity|]. econstructor; eauto.
    + destruct (IH Hx) as [before [rest [-> Hrest]]].
      exists (a :: before), rest. split; [reflexivity | assumption].
Qed.

(** Whatever can be reached can be reached without visiting a node twice. *)
Lemma walk_without_loops (a c : Node.t) (p : list Node.t) :
  wf g -> walk g a c p ->
  exists q, walk g a c q /\ NoDup (Node.ids q).
Proof.
  intros Hwf. induction 1 as [a Ha | a b c p Ha Hab Hw IH].
  - exists [a]. split; [now constructor|].
    repeat constructor. intros [].
  - destruct IH as [q [Hq Hnd]].
    destruct (in_dec Nat.eq_dec (Node.id a) (Node.ids q)) as [Hin | Hnotin].
    + unfold Node.ids in Hin. apply in_map_iff in Hin.
      destruct Hin as [x [Hid Hx]].
      assert (x = a).
      { apply (same_id_same_node (nodes g));
          [now apply wf_nodup | eapply walk_members; eauto | assumption
          | assumption]. }
      subst x. destruct (@walk_from_visited _ _ a _ Hq Hx)
        as [before [rest [-> Hrest]]].
      exists rest. split; [assumption|].
      unfold Node.ids in *. rewrite map_app in Hnd.
      eapply NoDup_app_remove_l; eauto.
    + exists (a :: q). split; [econstructor; eauto|].
      simpl. now constructor.
Qed.

Lemma walk_length_bound (a c : Node.t) (q : list Node.t) :
  walk g a c q -> NoDup (Node.ids q) -> length q <= length (nodes g).
Proof.
  intros Hw Hnd. unfold Node.ids in Hnd.
  rewrite <- (length_map Node.id q), <- (length_map Node.id (nodes g)).
  apply NoDup_incl_length; [assumption|].
  intros i Hi. apply in_map_iff in Hi. destruct Hi as [x [<- Hx]].
  apply in_map. eapply walk_members; eauto.
Qed.

End Walks.

Section ReferenceSearch.

Import SearchGraph.
Variable g : t.

Lemma in_neighbors (a b : Node.t) :
  In b (Reference.neighbors g a) <-> In b (nodes g) /\ has_edge g a b = true.
Proof. unfold Reference.neighbors. apply filter_In. Qed.

Lemma simple_paths_unfold (fuel : nat) (visited : list Node.t)
    (cur goal : Node.t) :
  Reference.simple_paths g fuel visited cur goal
  = if Node.eqb cur goal then [[cur]]
    else match fuel with
         | O => []
         | S fuel' =>
             flat_map
               (fun nb => map (cons cur)
                  (Reference.simple_paths g fuel' (cur :: visited) nb goal))
               (filter
                  (fun nb => negb (existsb (Node.eqb nb) (cur :: visited)))
                  (Reference.neighbors g cur))
         end.
Proof. destruct fuel; reflexivity. Qed.

Lemma simple_paths_sound (fuel : nat) :
  wf g ->
  forall visited cur goal p,
    In cur (nodes g) -> In goal (nodes g) ->
    existsb (Node.eqb cur) visited = false ->
    In p (Reference.simple_paths g fuel visited cur goal) ->
    walk g cur goal p
    /\ NoDup (Node.ids p)
    /\ forall x, In x p -> existsb (Node.eqb x) visited = false.
Proof.
  intros Hwf. induction fuel as [|fuel IH];
    intros visited cur goal p Hcur Hgoal Hvis Hp;
    rewrite simple_paths_unfold in Hp;
    destruct (Node.eqb cur goal) eqn:Hcg.
  1,3: destruct Hp as [<- | []];
       assert (cur = goal)
         by (apply (same_id_same_node (nodes g));
             [now apply wf_nodup | assumption | assumption | now apply eqb_iff]);
       subst goal; split; [now constructor|]; split;
       [repeat constructor; intros [] | now intros x [<- | []]].
  - destruct Hp.
  - apply in_flat_map in Hp. destruct Hp as [nb [Hnb Hp]].
    apply filter_In in Hnb. destruct Hnb as [Hnb Hfresh].
    apply in_neighbors in Hnb. destruct Hnb as [Hnbin Hedge].
    apply in_map_iff in Hp. destruct Hp as [q [<- Hq]].
    apply negb_true_iff in Hfresh.
    destruct (IH (cur :: visited) nb goal q Hnbin Hgoal Hfresh Hq)
      as [Hw [Hnd Hav]].
    split; [econstructor; eauto|]. split.
    + simpl. constructor; [|assumption]. intros Hin.
      unfold Node.ids in Hin. apply in_map_iff in Hin.
      destruct Hin as [x [Hid Hx]]. specialize (Hav x Hx). simpl in Hav.
      apply orb_false_iff in Hav. destruct Hav as [Hav _].
      apply eqb_false_iff in Hav. congruence.
    + intros x [<- | Hx]; [assumption|].
      specialize (Hav x Hx). simpl in Hav.
      now apply orb_false_iff in Hav.
Qed.

Lemma flat_map_nonempty {A B : Type} (f : A -> list B) (l : list A) (a : A) :
  In a l -> f a <> [] -> flat_map f l <> [].
Proof.
  induction l as [|b l IH]; simpl; intros Ha Hf; [contradiction|].
  destruct Ha as [-> | Ha].
  - destruct (f a); [congruence | discriminate].
  - intros Hnil. apply app_eq_nil in Hnil. destruct Hnil as [_ Hnil].
    now apply IH.
Qed.

Lemma simple_paths_complete (a c : Node.t) (p : list Node.t) :
  walk g a c p ->
  forall fuel visited,
    NoDup (Node.ids p) ->
    (forall x, In x p -> existsb (Node.eqb x) visited = false) ->
    length p <= S fuel ->
    Reference.simple_paths g fuel visited a c <> [].
Proof.
  induction 1 as [a Ha | a b c p Ha Hab Hw IH];
    intros fuel visited Hnd Hav Hlen; rewrite simple_paths_unfold.
  - rewrite eqb_refl. discriminate.
  - destruct (Node.eqb a c); [discriminate|].
    destruct (walk_head Hw) as [tl ->].
    destruct fuel as [|fuel]; [simpl in Hlen; lia|].
    simpl in Hnd. inversion Hnd as [|? ? Hnotin Hnd']; subst.
    assert (Hfresh : forall x, In x (b :: tl) ->
              existsb (Node.eqb x) (a :: visited) = false).
    { intros x Hx. simpl. apply orb_false_iff. split.
      - apply eqb_false_iff. intros Hid. apply Hnotin.
        change (In (Node.id a) (Node.ids (b :: tl))).
        rewrite <- Hid. now apply in_ids.
      - apply Hav. now right. }
    apply flat_map_nonempty with (a := b).
    + apply filter_In. split.
      * apply in_neighbors. split; [eapply walk_start_member; eauto | assumption].
      * apply negb_true_iff, Hfresh. now left.
    + intros Hnil. apply map_eq_nil in Hnil. revert Hnil.
      apply IH; [assumption | assumption | simpl in *; lia].
Qed.

Lemma shortest_in (best : list Node.t) (rest : list (list Node.t)) :
  In (Reference.shortest best rest) (best :: rest).
Proof.
  revert best. induction rest as [|p rest IH]; intros best; simpl; [auto|].
  destruct (PrimFloat.ltb _ _).
  - right. apply IH.
  - destruct (IH best) as [Hb | Hr]; [now left | right; now right].
Qed.

Lemma reference_find_path_in (s t : Node.t) :
  Reference.find_path g s t <> [] ->
  In (Reference.find_path g s t)
     (Reference.simple_paths g (length (nodes g)) [] s t).
Proof.
  unfold Reference.find_path.
  destruct (Reference.simple_paths g (length (nodes g)) [] s t) as [|p tl];
    [congruence|].
  intros _. apply shortest_in.
Qed.

Lemma reference_find_path_sound (s t : Node.t) :
  wf g -> In s (nodes g) -> In t (nodes g) ->
  Reference.find_path g s t <> [] ->
  walk g s t (Reference.find_path g s t)
  /\ NoDup (Node.ids (Reference.find_path g s t)).
Proof.
  intros Hwf Hs Ht Hne. apply reference_find_path_in in Hne.
  eapply simple_paths_sound in Hne; eauto. tauto.
Qed.

Lemma reference_find_path_complete (s t : Node.t) (p : list Node.t) :
  wf g -> walk g s t p -> Reference.find_path g s t <> [].
Proof.
  intros Hwf Hw. destruct (walk_without_loops Hwf Hw) as [q [Hq Hnd]].
  assert (Hs : In s (nodes g)) by (eapply walk_start_member; eauto).
  assert (Ht : In t (nodes g)) by (eapply walk_end_member; eauto).
  assert (Hsp : Reference.simple_paths g (length (nodes g)) [] s t <> []).
  { apply (simple_paths_complete Hq); auto.
    pose proof (walk_length_bound Hq Hnd). lia. }
  unfold Reference.find_path.
  destruct (Reference.simple_paths g (length (nodes g)) [] s t)
    as [|p0 tl] eqn:E; [congruence|].
  intros Hnil.
  assert (Hin : In [] (Reference.simple_paths g (length (nodes g)) [] s t)).
  { rewrite E, <- Hnil. apply shortest_in. }
  eapply simple_paths_sound in Hin; eauto.
  destruct Hin as [Hin _]. apply walk_head in Hin. destruct Hin. discriminate.
Qed.

End ReferenceSearch.

Section Pointwise.

Lemma existsb_pointwise {A : Type} (p q : A -> bool) (l : list A) :
  (forall a, p a = q a) -> existsb p l = existsb q l.
Proof.
  intros Hpq. induction l as [|a l IH]; simpl; [reflexivity|].
  now rewrite Hpq, IH.
Qed.

End Pointwise.

Section ReferenceContracts.

Lemma reference_search_contract : SearchContract Reference.externals.
Proof.
  split.
  - intros g s t. apply reference_find_path_sound.
  - intros g s t p. apply reference_find_path_complete.
Qed.

Lemma shortcut_keeps_last (w : World) (interior : list Pose.t) :
  forall (anchor last : Pose.t),
  exists kept,
    Reference.shortcut w anchor (interior ++ [last]) = kept ++ [last]
    /\ subseq kept interior.
Proof.
  induction interior as [|m tl IH]; intros anchor last.
  - exists []. split; [reflexivity | constructor].
  - change ((m :: tl) ++ [last]) with (m :: (tl ++ [last])).
    destruct (tl ++ [last]) as [|n rest] eqn:E.
    { destruct tl; discriminate. }
    change (Reference.shortcut w anchor (m :: n :: rest))
      with (if is_connectable w anchor n infinity
            then Reference.shortcut w anchor (n :: rest)
            else m :: Reference.shortcut w m (n :: rest)).
    rewrite <- E. destruct (is_connectable w anchor n infinity).
    + destruct (IH anchor last) as [kept [Hk Hs]].
      exists kept. split; [assumption | now constructor].
    + destruct (IH m last) as [kept [Hk Hs]].
      exists (m :: kept). split; [now rewrite Hk | now constructor].
Qed.

Lemma reference_compressor_contract : CompressorContract Reference.externals.
Proof.
  intros w first last interior.
  destruct (shortcut_keeps_last w interior first last) as [kept [Hk Hs]].
  exists kept. split; [|assumption].
  simpl. unfold Reference.reduce_waypoints_polygon. now rewrite Hk.
Qed.

End ReferenceContracts.

(* ================================================================== *)
(** ** Scenario A: a query on the empty roadmap *)

Section EmptyRoadmap.

Context `{E : Externals}.
Import PRMPlannerPolygon.

Lemma walk_end_in (g : SearchGraph.t) (a c : Node.t) (p : list Node.t) :
  walk g a c p -> In c p.
Proof. induction 1; [now left | now right]. Qed.

(** The only path without repetition between the two nodes of a two-node
    graph is the edge that joins them. *)
Lemma two_node_walk (g : SearchGraph.t) (a c : Node.t) (p : list Node.t) :
  SearchGraph.nodes g = [a; c] ->
  Node.id a <> Node.id c ->
  walk g a c p -> NoDup (Node.ids p) -> p = [a; c].
Proof.
  intros Hn Hac Hw Hnd. inversion Hw as [? Ha | ? b ? q Ha Hab Hq]; subst.
  - congruence.
  - f_equal. destruct (walk_head Hq) as [tl ->].
    assert (Hb : In b (SearchGraph.nodes g))
      by (eapply walk_start_member; eauto).
    rewrite Hn in Hb. simpl in Hnd. inversion Hnd as [|? ? Hnotin Hnd']; subst.
    destruct Hb as [<- | [<- | []]].
    + exfalso. apply Hnotin. now left.
    + f_equal. inversion Hq as [? Hc | ? b' ? q' Hc Hcb Hq']; subst;
        [reflexivity|].
      exfalso. simpl in Hnd'. inversion Hnd' as [|? ? Hnotin' _]; subst.
      apply Hnotin'. apply in_ids. eapply walk_end_in; eauto.
Qed.

Lemma init_without_nodes (compress : bool) (d : float) (w : World)
    (r : Runtime) :
  init compress d 0 w r
  = (mk d 0 w compress 0%float
        (time_time (S (clock_reads r)) - time_time (clock_reads r))%float
        Path.empty SearchGraph.empty,
     mkRuntime (next_id r) (rng_calls r) (S (S (clock_reads r))) (warnings r)).
Proof.
  unfold init. rewrite reset_run. cbn.
  now rewrite !Nat.add_0_r, app_nil_r.
Qed.

Lemma query_graph_on_empty (self : t) (a c : Node.t) :
  graph self = SearchGraph.empty ->
  Node.id a <> Node.id c ->
  is_connectable (world self) (Node.pose a) (Node.pose c)
    (max_connection_dist self) = true ->
  query_graph self a c = SearchGraph.mk [a; c] [(a, c)].
Proof.
  intros Hg Hac Hconn. unfold query_graph. rewrite Hg.
  assert (Hca : Node.eqb c a = false) by (apply eqb_false_iff; congruence).
  assert (Hac' : Node.eqb a c = false) by now apply eqb_false_iff.
  unfold SearchGraph.add_node, SearchGraph.mem_node. cbn -[Node.eqb].
  rewrite Hca. cbn -[Node.eqb]. unfold connect_graph. cbn -[Node.eqb].
  rewrite !eqb_refl, Hac', Hconn. cbn -[Node.eqb].
  rewrite Hca, !eqb_refl.
  destruct (is_connectable (world self) (Node.pose c) (Node.pose a)
              (max_connection_dist self)); [|reflexivity].
  unfold SearchGraph.add_edge, SearchGraph.has_edge, SearchGraph.joins.
  cbn -[Node.eqb]. now rewrite !eqb_refl, Hac'.
Qed.

(** C7.  A planner built with [max_nodes = 0] has an empty roadmap.  When
    the oracle connects start to goal and goal to start within the
    connection distance, [plan] returns the two-pose path [start; goal]:
    both query nodes are in the roadmap before either is connected, so the
    edge between them exists when the search runs. *)
Theorem plan_on_empty_roadmap_links_start_to_goal
    (compress : bool) (d : float) (w : World) (r : Runtime)
    (start goal : Pose.t) :
  SearchContract E ->
  CompressorContract E ->
  is_connectable w start goal d = true ->
  is_connectable w goal start d = true ->
  let built := fst (init compress d 0 w r) in
  let r0 := snd (init compress d 0 w r) in
  SearchGraph.nodes (graph built) = []
  /\ fst (fst (plan built (IsPose start) (IsPose goal) r0))
     = Path.mk [start; goal].
Proof.
  intros Hsearch Hcompress Hsg Hgs. cbv zeta.
  rewrite init_without_nodes. cbn [fst snd graph SearchGraph.empty
                                  SearchGraph.nodes].
  split; [reflexivity|].
  set (self := mk d 0 w compress _ _ _ _).
  set (r0 := mkRuntime _ _ _ _).
  rewrite plan_run. unfold waypoints_of.
  set (a := start_node r0 (IsPose start)).
  set (c := goal_node r0 (IsPose start) (IsPose goal)).
  assert (Hac : Node.id a <> Node.id c) by (simpl; lia).
  assert (HG : query_graph self a c = SearchGraph.mk [a; c] [(a, c)]).
  { apply query_graph_on_empty; [reflexivity | assumption | exact Hsg]. }
  rewrite HG. set (G := SearchGraph.mk [a; c] [(a, c)]).
  assert (Hwf : SearchGraph.wf G).
  { split; simpl.
    - repeat constructor; simpl; [intros [Heq | []]; lia | intros []].
    - intros e [<- | []]. simpl. auto.
    - intros e [<- | []]. exact Hac. }
  assert (Hwalk : walk G a c [a; c]).
  { apply walk_step with (b := c); [simpl; auto | | constructor; simpl; auto].
    unfold SearchGraph.has_edge, SearchGraph.joins. simpl.
    now rewrite !eqb_refl. }
  pose proof (search_complete Hsearch Hwf Hwalk) as Hne.
  destruct (@search_sound E Hsearch G a c Hwf) as [Hw Hnd];
    [simpl; auto | simpl; auto | assumption |].
  rewrite (@two_node_walk G a c _ eq_refl Hac Hw Hnd) in *.
  cbn [fst map Node.pose a c start_node goal_node as_node new_Node].
  replace (if compress_path self
           then reduce_waypoints_polygon (world self) [start; goal]
           else [start; goal]) with [start; goal]; [reflexivity|].
  destruct (compress_path self); [|reflexivity].
  destruct (Hcompress (world self) start goal []) as [kept [Hk Hs]].
  inversion Hs; subst. cbn [app] in Hk. now rewrite Hk.
Qed.

End EmptyRoadmap.

(* ================================================================== *)
(** ** The roadmap a query searches, when its two nodes are new *)

Section FreshQuery.

Import SearchGraph.
Variable self : PRMPlannerPolygon.t.
Variables a c : Node.t.

Local Abbreviation G := (PRMPlannerPolygon.graph self).
Local Abbreviation w := (PRMPlannerPolygon.world self).
Local Abbreviation d := (PRMPlannerPolygon.max_connection_dist self).

Hypothesis G_wf : wf G.
Hypothesis a_new : ~ In (Node.id a) (Node.ids (nodes G)).
Hypothesis c_new : ~ In (Node.id c) (Node.ids (nodes G)).
Hypothesis a_not_c : Node.id a <> Node.id c.

Lemma nodes_query_graph_fresh :
  nodes (query_graph self a c) = nodes G ++ [a; c].
Proof.
  rewrite nodes_query_graph.
  assert (Ha : mem_node G a = false) by now apply mem_node_false_iff.
  assert (Hc : mem_node (add_node G a) c = false).
  { apply mem_node_false_iff. rewrite (nodes_add_node_new _ _ Ha).
    unfold Node.ids in *. rewrite map_app, in_app_iff. simpl.
    intros [Hin | [Hid | []]]; [contradiction | congruence]. }
  rewrite (nodes_add_node_new _ _ Hc), (nodes_add_node_new _ _ Ha).
  now rewrite <- app_assoc.
Qed.

Lemma wf_query_graph : wf (query_graph self a c).
Proof.
  pose proof nodes_query_graph_fresh as Hn.
  rewrite nodes_query_graph in Hn.
  unfold query_graph. apply wf_connect_graph.
  - apply wf_connect_graph; [now repeat apply wf_add_node|].
    rewrite Hn. apply in_or_app. right. now left.
  - rewrite nodes_connect_graph, Hn. apply in_or_app. right. right. now left.
Qed.

End FreshQuery.

Section EdgeBounds.

Import SearchGraph.

(** An edge of a well-formed graph only joins identities of members. *)
Lemma has_edge_members (g : t) (x y : Node.t) :
  wf g -> has_edge g x y = true ->
  In (Node.id x) (Node.ids (nodes g)) /\ In (Node.id y) (Node.ids (nodes g)).
Proof.
  intros Hwf He. unfold has_edge in He. apply existsb_exists in He.
  destruct He as [e [Hin Hj]]. destruct (wf_endpoints Hwf e Hin) as [H1 H2].
  apply in_ids in H1, H2. unfold joins in Hj.
  rewrite orb_true_iff, !andb_true_iff, !eqb_iff in Hj.
  destruct Hj as [[E1 E2] | [E1 E2]]; rewrite <- ?E1, <- ?E2; auto.
Qed.

End EdgeBounds.

(* ================================================================== *)
(** ** What one query leaves for the next *)

Section AfterPlan.

Context `{E : Externals}.
Import PRMPlannerPolygon.

Variables (self : t) (start goal : PoseOrNode) (r : Runtime).

Lemma plan_path :
  fst (fst (plan self start goal r))
  = path_for self (waypoints_of self start goal r).
Proof.
  rewrite plan_run. unfold path_for.
  now destruct (waypoints_of self start goal r).
Qed.

Lemma plan_keeps_parameters :
  let self' := snd (fst (plan self start goal r)) in
  world self' = world self
  /\ max_connection_dist self' = max_connection_dist self
  /\ compress_path self' = compress_path self
  /\ max_nodes self' = max_nodes self.
Proof.
  cbv zeta. rewrite plan_run.
  now destruct (waypoints_of self start goal r).
Qed.

Lemma plan_graph_after :
  graph (snd (fst (plan self start goal r)))
  = match waypoints_of self start goal r with
    | [] => query_graph self (start_node r start) (goal_node r start goal)
    | _ :: _ =>
        SearchGraph.remove_node
          (SearchGraph.remove_node
             (query_graph self (start_node r start) (goal_node r start goal))
             (start_node r start))
          (goal_node r start goal)
    end.
Proof.
  rewrite plan_run. now destruct (waypoints_of self start goal r).
Qed.

Lemma plan_next_id :
  next_id (snd (plan self start goal r))
  = next_id (runtime_with_nodes r start goal).
Proof.
  rewrite plan_run. now destruct (waypoints_of self start goal r).
Qed.

End AfterPlan.

Section QueryExt.

Context `{E : Externals}.
Import PRMPlannerPolygon.

Lemma query_graph_ext (self self' : t) (a c : Node.t) :
  graph self' = graph self -> world self' = world self ->
  max_connection_dist self' = max_connection_dist self ->
  query_graph self' a c = query_graph self a c.
Proof. intros Hg Hw Hd. unfold query_graph. now rewrite Hg, Hw, Hd. Qed.

Lemma path_for_ext (self self' : t) (wp wp' : list Node.t) :
  world self' = world self -> compress_path self' = compress_path self ->
  map Node.pose wp' = map Node.pose wp ->
  path_for self' wp' = path_for self wp.
Proof.
  intros Hw Hc Hp. unfold path_for. rewrite Hw, Hc.
  destruct wp, wp'; try discriminate; [reflexivity|]. now rewrite Hp.
Qed.

Lemma waypoints_of_poses (self : t) (s g : Pose.t) (r : Runtime) :
  waypoints_of self (IsPose s) (IsPose g) r
  = find_path
      (query_graph self (Node.mk (next_id r) s None)
                        (Node.mk (S (next_id r)) g None))
      (Node.mk (next_id r) s None) (Node.mk (S (next_id r)) g None).
Proof. reflexivity. Qed.

End QueryExt.

(* ================================================================== *)
(** ** A search that is determined by the graph *)

Section Lex.

Variable A : Type.
Variable cmp : A -> A -> comparison.
Hypothesis cmp_eq : forall a b, cmp a b = Eq -> a = b.
Hypothesis cmp_refl : forall a, cmp a a = Eq.
Hypothesis cmp_opp : forall a b, cmp b a = CompOpp (cmp a b).
Hypothesis cmp_trans :
  forall a b c, cmp a b = Lt -> cmp b c = Lt -> cmp a c = Lt.

Lemma lex_eq (l l' : list A) : Canonical.lex cmp l l' = Eq -> l = l'.
Proof.
  clear cmp_refl cmp_opp cmp_trans.
  revert l'. induction l as [|a l IH]; intros [|b l']; simpl;
    try discriminate; [reflexivity|].
  destruct (cmp a b) eqn:Hab; try discriminate.
  intros Hl. apply cmp_eq in Hab. apply IH in Hl. congruence.
Qed.

Lemma lex_refl (l : list A) : Canonical.lex cmp l l = Eq.
Proof.
  clear cmp_eq cmp_opp cmp_trans.
  induction l as [|a l IH]; simpl; [reflexivity|]. now rewrite cmp_refl.
Qed.

Lemma lex_opp (l l' : list A) :
  Canonical.lex cmp l' l = CompOpp (Canonical.lex cmp l l').
Proof.
  clear cmp_eq cmp_refl cmp_trans.
  revert l'. induction l as [|a l IH]; intros [|b l']; simpl;
    try reflexivity.
  rewrite (cmp_opp a b). destruct (cmp a b); simpl; auto.
Qed.

Lemma lex_trans (l1 l2 l3 : list A) :
  Canonical.lex cmp l1 l2 = Lt -> Canonical.lex cmp l2 l3 = Lt ->
  Canonical.lex cmp l1 l3 = Lt.
Proof.
  clear cmp_opp.
  revert l2 l3. induction l1 as [|a l1 IH]; intros [|b l2] [|c l3]; simpl;
    try discriminate; try reflexivity.
  destruct (cmp a b) eqn:Hab; try discriminate;
    destruct (cmp b c) eqn:Hbc; try discriminate.
  - apply cmp_eq in Hab, Hbc. subst. rewrite cmp_refl. apply IH.
  - apply cmp_eq in Hab. subst. now rewrite Hbc.
  - apply cmp_eq in Hbc. subst. now rewrite Hab.
  - now rewrite (cmp_trans Hab Hbc).
Qed.

(** Not after: the order that goes with [cmp]. *)
Lemma not_after_trans (a b c : A) :
  cmp a b <> Gt -> cmp b c <> Gt -> cmp a c <> Gt.
Proof.
  clear cmp_opp.
  destruct (cmp a b) eqn:Hab; [| |congruence];
    destruct (cmp b c) eqn:Hbc; try congruence; intros _ _.
  - apply cmp_eq in Hab, Hbc. subst. now rewrite cmp_refl.
  - apply cmp_eq in Hab. subst. now rewrite Hbc.
  - apply cmp_eq in Hbc. subst. now rewrite Hab.
  - now rewrite (cmp_trans Hab Hbc).
Qed.

Lemma not_after_both (a b : A) :
  cmp a b <> Gt -> cmp b a <> Gt -> a = b.
Proof.
  clear cmp_refl cmp_trans.
  rewrite (cmp_opp a b). destruct (cmp a b) eqn:Hab; simpl; try congruence.
  intros _ _. now apply cmp_eq.
Qed.

End Lex.

Section Ranks.

Local Abbreviation code_cmp := (Canonical.lex Z.compare).
Local Abbreviation rank_cmp := (Canonical.lex (Canonical.lex Z.compare)).

Lemma code_cmp_eq (a b : list Z) : code_cmp a b = Eq -> a = b.
Proof. apply lex_eq. exact Z.compare_eq. Qed.

Lemma code_cmp_refl (a : list Z) : code_cmp a a = Eq.
Proof. apply lex_refl. exact Z.compare_refl. Qed.

Lemma code_cmp_opp (a b : list Z) : code_cmp b a = CompOpp (code_cmp a b).
Proof. apply lex_opp. intros x y. apply Z.compare_antisym. Qed.

Lemma code_cmp_trans (a b c : list Z) :
  code_cmp a b = Lt -> code_cmp b c = Lt -> code_cmp a c = Lt.
Proof.
  apply lex_trans.
  - exact Z.compare_eq.
  - exact Z.compare_refl.
  - intros x y z. rewrite !Z.compare_lt_iff. apply Z.lt_trans.
Qed.

Lemma rank_not_after_trans (a b c : list (list Z)) :
  rank_cmp a b <> Gt -> rank_cmp b c <> Gt -> rank_cmp a c <> Gt.
Proof.
  apply not_after_trans.
  - apply lex_eq, code_cmp_eq.
  - apply lex_refl, code_cmp_refl.
  - apply lex_trans;
      [exact code_cmp_eq | exact code_cmp_refl | exact code_cmp_trans].
Qed.

Lemma rank_not_after_both (a b : list (list Z)) :
  rank_cmp a b <> Gt -> rank_cmp b a <> Gt -> a = b.
Proof.
  apply not_after_both.
  - apply lex_eq, code_cmp_eq.
  - apply lex_opp, code_cmp_opp.
Qed.

Lemma rank_cmp_opp (a b : list (list Z)) :
  rank_cmp b a = CompOpp (rank_cmp a b).
Proof. apply lex_opp, code_cmp_opp. Qed.

Lemma rank_cmp_refl (a : list (list Z)) : rank_cmp a a = Eq.
Proof. apply lex_refl, code_cmp_refl. Qed.

(** Two binary64 values with one code are one value. *)
Lemma float_code_inj (x y : float) :
  Canonical.float_code x = Canonical.float_code y -> x = y.
Proof.
  unfold Canonical.float_code. intros Hc.
  rewrite <- (SF2Prim_Prim2SF x), <- (SF2Prim_Prim2SF y). f_equal.
  destruct (Prim2SF x) as [[|]|[|]| |[|] ? ?],
           (Prim2SF y) as [[|]|[|]| |[|] ? ?];
    simpl in Hc; try discriminate; try reflexivity;
    injection Hc; intros; subst; reflexivity.
Qed.

(** On unsigned values the order of the codes is the order of the
    values. *)
Lemma float_code_order (x y : float) :
  Canonical.unsigned x -> Canonical.unsigned y ->
  (Canonical.lex Z.compare (Canonical.float_code x) (Canonical.float_code y)
   = Lt
   <-> (x <? y)%float = true).
Proof.
  rewrite ltb_spec. unfold Canonical.unsigned, Canonical.float_code, SFltb, SFcompare.
  destruct (Prim2SF x) as [[|]|[|]| |[|] m1 e1],
           (Prim2SF y) as [[|]|[|]| |[|] m2 e2];
    simpl; try contradiction; intros _ _;
    try (split; [discriminate | discriminate]);
    try (split; reflexivity).
  change (Z.pos m1 ?= Z.pos m2)%Z with (Pos.compare m1 m2).
  unfold Pos.compare.
  destruct (e1 ?= e2)%Z; [|tauto|split; discriminate].
  destruct (Pos.compare_cont Eq m1 m2); [split; discriminate | tauto | split; discriminate].
Qed.

Lemma pose_codes_inj (ps qs : list Pose.t) :
  Canonical.pose_codes ps = Canonical.pose_codes qs -> ps = qs.
Proof.
  revert qs. induction ps as [|p ps IH]; intros [|q qs]; simpl;
    try discriminate; [reflexivity|].
  intros Hc. injection Hc. intros Hrest Hyaw Hy Hx.
  apply float_code_inj in Hyaw, Hy, Hx. apply IH in Hrest.
  destruct p, q. simpl in *. congruence.
Qed.

Lemma key_inj (p q : list Node.t) :
  Canonical.key p = Canonical.key q -> map Node.pose p = map Node.pose q.
Proof.
  unfold Canonical.key. intros Hk. injection Hk. intros Hc _.
  now apply pose_codes_inj.
Qed.

Lemma key_of_poses (p q : list Node.t) :
  map Node.pose p = map Node.pose q -> Canonical.key p = Canonical.key q.
Proof. unfold Canonical.key. now intros ->. Qed.

Lemma least_in (best : list Node.t) (rest : list (list Node.t)) :
  In (Canonical.least best rest) (best :: rest).
Proof.
  revert best. induction rest as [|p rest IH]; intros best; simpl; [auto|].
  destruct (Canonical.before p best).
  - right. apply IH.
  - destruct (IH best) as [Hb | Hr]; [now left | right; now right].
Qed.

Lemma least_not_after (best : list Node.t) (rest : list (list Node.t))
    (p : list Node.t) :
  In p (best :: rest) ->
  rank_cmp (Canonical.key (Canonical.least best rest)) (Canonical.key p)
  <> Gt.
Proof.
  revert best p. induction rest as [|p0 rest IH]; intros best p Hp.
  - destruct Hp as [<- | []]. cbn [Canonical.least].
    rewrite rank_cmp_refl. discriminate.
  - cbn [Canonical.least]. unfold Canonical.before.
    destruct (rank_cmp (Canonical.key p0) (Canonical.key best)) eqn:Hcmp.
    + destruct Hp as [<- | [<- | Hp]].
      * apply IH. now left.
      * apply rank_not_after_trans with (b := Canonical.key best).
        -- apply IH. now left.
        -- rewrite rank_cmp_opp, Hcmp. discriminate.
      * apply IH. now right.
    + destruct Hp as [<- | [<- | Hp]].
      * apply rank_not_after_trans with (b := Canonical.key p0).
        -- apply IH. now left.
        -- rewrite Hcmp. discriminate.
      * apply IH. now left.
      * apply IH. now right.
    + destruct Hp as [<- | [<- | Hp]].
      * apply IH. now left.
      * apply rank_not_after_trans with (b := Canonical.key best).
        -- apply IH. now left.
        -- rewrite rank_cmp_opp, Hcmp. discriminate.
      * apply IH. now right.
Qed.

End Ranks.

Section SimplePaths.

Import SearchGraph.

(** Every path that visits no node twice is among the simple paths. *)
Lemma simple_paths_complete_in (g : t) (a c : Node.t) (p : list Node.t) :
  walk g a c p ->
  forall fuel visited,
    NoDup (Node.ids p) ->
    (forall x, In x p -> existsb (Node.eqb x) visited = false) ->
    length p <= S fuel ->
    In p (Reference.simple_paths g fuel visited a c).
Proof.
  induction 1 as [a Ha | a b c p Ha Hab Hw IH];
    intros fuel visited Hnd Hav Hlen; rewrite simple_paths_unfold.
  - rewrite eqb_refl. now left.
  - simpl in Hnd. inversion Hnd as [|? ? Hnotin Hnd']; subst.
    assert (Hac : Node.eqb a c = false).
    { apply eqb_false_iff. intros Hid. apply Hnotin. rewrite Hid.
      apply in_ids. eapply walk_end_in; eauto. }
    rewrite Hac.
    destruct (walk_head Hw) as [tl ->].
    destruct fuel as [|fuel]; [simpl in Hlen; lia|].
    assert (Hfresh : forall x, In x (b :: tl) ->
              existsb (Node.eqb x) (a :: visited) = false).
    { intros x Hx. simpl. apply orb_false_iff. split.
      - apply eqb_false_iff. intros Hid. apply Hnotin.
        change (In (Node.id a) (Node.ids (b :: tl))).
        rewrite <- Hid. now apply in_ids.
      - apply Hav. now right. }
    apply in_flat_map. exists b. split.
    + apply filter_In. split.
      * apply in_neighbors. split; [eapply walk_start_member; eauto | assumption].
      * apply negb_true_iff, Hfresh. now left.
    + apply in_map. apply IH; [assumption | assumption | simpl in *; lia].
Qed.

Lemma simple_path_listed (g : t) (a c : Node.t) (p : list Node.t) :
  walk g a c p -> NoDup (Node.ids p) ->
  In p (Reference.simple_paths g (length (nodes g)) [] a c).
Proof.
  intros Hw Hnd. apply (simple_paths_complete_in Hw); auto.
  pose proof (walk_length_bound Hw Hnd). lia.
Qed.

Lemma listed_simple_path (g : t) (a c : Node.t) (p : list Node.t) :
  wf g -> In a (nodes g) -> In c (nodes g) ->
  In p (Reference.simple_paths g (length (nodes g)) [] a c) ->
  walk g a c p /\ NoDup (Node.ids p).
Proof.
  intros Hwf Ha Hc Hp.
  eapply simple_paths_sound in Hp; eauto. tauto.
Qed.

(** *** Paths along a map of graphs *)

Variables (h : Node.t -> Node.t) (g1 g2 : t).
Hypothesis h_into : forall x, In x (nodes g1) -> In (h x) (nodes g2).
Hypothesis h_apart : forall x y,
  In x (nodes g1) -> In y (nodes g1) ->
  Node.id (h x) = Node.id (h y) -> x = y.
Hypothesis h_pose : forall x, In x (nodes g1) -> Node.pose (h x) = Node.pose x.
Hypothesis h_edge : forall x y,
  In x (nodes g1) -> In y (nodes g1) ->
  has_edge g1 x y = true -> has_edge g2 (h x) (h y) = true.

Lemma walk_along (a c : Node.t) (p : list Node.t) :
  walk g1 a c p -> walk g2 (h a) (h c) (map h p).
Proof.
  clear h_apart h_pose.
  induction 1 as [a Ha | a b c p Ha Hab Hw IH]; simpl.
  - constructor. now apply h_into.
  - econstructor; eauto. apply h_edge; auto.
    eapply walk_start_member; eauto.
Qed.

Lemma nodup_along (p : list Node.t) :
  (forall x, In x p -> In x (nodes g1)) ->
  NoDup (Node.ids p) -> NoDup (Node.ids (map h p)).
Proof.
  clear h_into h_pose h_edge.
  induction p as [|a p IH]; simpl; intros Hin Hnd; [constructor|].
  inversion Hnd as [|? ? Hnotin Hnd']; subst. constructor.
  - intros Hc. apply Hnotin. unfold Node.ids in Hc.
    rewrite map_map in Hc. apply in_map_iff in Hc.
    destruct Hc as [x [Hid Hx]].
    assert (x = a) by (apply h_apart; auto). subst x. now apply in_ids.
  - apply IH; auto.
Qed.

Lemma poses_along (p : list Node.t) :
  (forall x, In x p -> In x (nodes g1)) ->
  map Node.pose (map h p) = map Node.pose p.
Proof.
  clear h_into h_apart h_edge.
  intros Hin. rewrite map_map. apply map_ext_in.
  intros x Hx. apply h_pose. auto.
Qed.

Lemma simple_paths_along (a c : Node.t) (p : list Node.t) :
  wf g1 -> In a (nodes g1) -> In c (nodes g1) ->
  In p (Reference.simple_paths g1 (length (nodes g1)) [] a c) ->
  In (map h p) (Reference.simple_paths g2 (length (nodes g2)) [] (h a) (h c))
  /\ map Node.pose (map h p) = map Node.pose p.
Proof.
  intros Hwf Ha Hc Hp.
  destruct (@listed_simple_path _ _ _ _ Hwf Ha Hc Hp) as [Hw Hnd].
  pose proof (walk_members Hw) as Hin.
  split.
  - apply simple_path_listed; [now apply walk_along | now apply nodup_along].
  - now apply poses_along.
Qed.

End SimplePaths.

Section CanonicalContracts.

Import SearchGraph.

Lemma canonical_find_path_in (g : t) (s t : Node.t) :
  Canonical.find_path g s t <> [] ->
  In (Canonical.find_path g s t)
     (Reference.simple_paths g (length (nodes g)) [] s t).
Proof.
  unfold Canonical.find_path.
  destruct (Reference.simple_paths g (length (nodes g)) [] s t) as [|p tl];
    [congruence|].
  intros _. apply least_in.
Qed.

Lemma canonical_search_contract : SearchContract Canonical.externals.
Proof.
  split; simpl.
  - intros g s t Hwf Hs Ht Hne. apply canonical_find_path_in in Hne.
    now apply listed_simple_path.
  - intros g s t p Hwf Hw.
    destruct (walk_without_loops Hwf Hw) as [q [Hq Hnd]].
    pose proof (simple_path_listed Hq Hnd) as Hlisted.
    assert (Hs : In s (nodes g)) by (eapply walk_start_member; eauto).
    assert (Ht : In t (nodes g)) by (eapply walk_end_member; eauto).
    unfold Canonical.find_path.
    destruct (Reference.simple_paths g (length (nodes g)) [] s t)
      as [|p0 tl] eqn:E; [contradiction|].
    intros Hnil.
    assert (Hin : In [] (Reference.simple_paths g (length (nodes g)) [] s t)).
    { rewrite E, <- Hnil. apply least_in. }
    apply (@listed_simple_path _ _ _ _ Hwf Hs Ht) in Hin.
    destruct Hin as [Hin _]. apply walk_head in Hin. destruct Hin.
    discriminate.
Qed.

(** No path without repetition weighs less than the one the search
    returns. *)
Lemma canonical_find_path_optimal (g : SearchGraph.t) (s t : Node.t)
    (q : list Node.t) :
  walk g s t q -> NoDup (Node.ids q) ->
  Canonical.unsigned (Canonical.weight (map Node.pose (Canonical.find_path g s t))) ->
  Canonical.unsigned (Canonical.weight (map Node.pose q)) ->
  (Canonical.weight (map Node.pose q)
   <? Canonical.weight (map Node.pose (Canonical.find_path g s t)))%float
  = false.
Proof.
  intros Hw Hnd Hp Hq. pose proof (simple_path_listed Hw Hnd) as Hlisted.
  revert Hp. unfold Canonical.find_path.
  destruct (Reference.simple_paths g (length (SearchGraph.nodes g)) [] s t)
    as [|p0 tl]; [contradiction|]. intros Hp.
  pose proof (@least_not_after p0 tl q Hlisted) as Hrank.
  destruct (_ <? _)%float eqn:Hlt; [|reflexivity].
  exfalso. apply Hrank. apply (@float_code_order _ _ Hq Hp) in Hlt.
  unfold Canonical.key. cbn [Canonical.lex].
  now rewrite code_cmp_opp, Hlt.
Qed.

Lemma canonical_search_determined : SearchDetermined Canonical.externals.
Proof.
  intros phi psi g' g s t Hwf' Hwf Hsame Hs Ht. simpl.
  assert (Hphi_apart : forall x y, In x (nodes g') -> In y (nodes g') ->
            Node.id (phi x) = Node.id (phi y) -> x = y).
  { intros x y Hx Hy Hid.
    rewrite <- (sg_left Hsame x Hx), <- (sg_left Hsame y Hy). f_equal.
    apply (same_id_same_node (nodes g));
      [apply (wf_nodup Hwf) | apply (sg_into Hsame) | apply (sg_into Hsame) |];
      assumption. }
  assert (Hpsi_pose : forall y, In y (nodes g) ->
            Node.pose (psi y) = Node.pose y).
  { intros y Hy. rewrite <- (sg_right Hsame y Hy) at 2.
    symmetry. apply (sg_pose Hsame), (sg_back Hsame), Hy. }
  assert (Hpsi_apart : forall x y, In x (nodes g) -> In y (nodes g) ->
            Node.id (psi x) = Node.id (psi y) -> x = y).
  { intros x y Hx Hy Hid.
    rewrite <- (sg_right Hsame x Hx), <- (sg_right Hsame y Hy). f_equal.
    apply (same_id_same_node (nodes g'));
      [apply (wf_nodup Hwf') | apply (sg_back Hsame) | apply (sg_back Hsame) |];
      assumption. }
  assert (Hpsi_edge : forall x y, In x (nodes g) -> In y (nodes g) ->
            has_edge g x y = true -> has_edge g' (psi x) (psi y) = true).
  { intros x y Hx Hy He.
    rewrite (sg_edge Hsame) by now apply (sg_back Hsame).
    now rewrite !(sg_right Hsame). }
  assert (Hphi_edge : forall x y, In x (nodes g') -> In y (nodes g') ->
            has_edge g' x y = true -> has_edge g (phi x) (phi y) = true).
  { intros x y Hx Hy He. now rewrite <- (sg_edge Hsame). }
  pose proof (fun p =>
    @simple_paths_along phi g' g (sg_into Hsame) Hphi_apart (sg_pose Hsame)
      Hphi_edge s t p Hwf' Hs Ht) as Hforth.
  pose proof (fun q =>
    @simple_paths_along psi g g' (sg_back Hsame) Hpsi_apart Hpsi_pose
      Hpsi_edge (phi s) (phi t) q Hwf
      (sg_into Hsame s Hs) (sg_into Hsame t Ht)) as Hback.
  rewrite !(sg_left Hsame) in Hback by assumption.
  unfold Canonical.find_path.
  destruct (Reference.simple_paths g' (length (nodes g')) [] s t)
    as [|p0 tl'] eqn:E';
    destruct (Reference.simple_paths g (length (nodes g)) [] (phi s) (phi t))
      as [|q0 tl] eqn:E.
  - reflexivity.
  - destruct (Hback q0 (or_introl eq_refl)) as [[] _].
  - destruct (Hforth p0 (or_introl eq_refl)) as [[] _].
  - apply key_inj. apply rank_not_after_both.
    + destruct (Hback (Canonical.least q0 tl) (least_in q0 tl))
        as [Hin Hposes].
      rewrite <- (key_of_poses _ _ Hposes).
      now apply least_not_after.
    + destruct (Hforth (Canonical.least p0 tl') (least_in p0 tl'))
        as [Hin Hposes].
      rewrite <- (key_of_poses _ _ Hposes).
      now apply least_not_after.
Qed.

End CanonicalContracts.

Section EdgeFacts.

Import SearchGraph.

(** Removing a node removes the edges at it and no other. *)
Lemma has_edge_remove_node (g : t) (n x y : Node.t) :
  has_edge (remove_node g n) x y
  = has_edge g x y && negb (Node.eqb x n) && negb (Node.eqb y n).
Proof.
  unfold has_edge, remove_node. cbn [edges].
  induction (edges g) as [|e es IH]; cbn [filter existsb]; [reflexivity|].
  assert (Hkey : joins x y e && negb (incident n e)
                 = joins x y e && negb (Node.eqb x n) && negb (Node.eqb y n)).
  { unfold joins, incident, Node.eqb.
    destruct (Nat.eqb_spec (Node.id (fst e)) (Node.id x)),
             (Nat.eqb_spec (Node.id (snd e)) (Node.id y)),
             (Nat.eqb_spec (Node.id (fst e)) (Node.id y)),
             (Nat.eqb_spec (Node.id (snd e)) (Node.id x)),
             (Nat.eqb_spec (Node.id (fst e)) (Node.id n)),
             (Nat.eqb_spec (Node.id (snd e)) (Node.id n)),
             (Nat.eqb_spec (Node.id x) (Node.id n)),
             (Nat.eqb_spec (Node.id y) (Node.id n));
      simpl; try reflexivity; exfalso; congruence. }
  destruct (incident n e); cbn [negb existsb]; rewrite IH;
    destruct (joins x y e); simpl in *; try reflexivity.
  - rewrite <- andb_assoc, <- Hkey. apply andb_false_r.
  - exact Hkey.
Qed.

(** No edge of a well-formed graph joins a node to itself. *)
Lemma has_edge_apart (g : t) (x y : Node.t) :
  wf g -> has_edge g x y = true -> Node.id x <> Node.id y.
Proof.
  intros Hwf He. unfold has_edge in He. apply existsb_exists in He.
  destruct He as [e [Hin Hj]]. pose proof (wf_no_loop Hwf e Hin) as Hloop.
  unfold joins in Hj.
  rewrite orb_true_iff, !andb_true_iff, !eqb_iff in Hj.
  destruct Hj as [[E1 E2] | [E1 E2]]; congruence.
Qed.

(** The members of a well-formed graph that an edge joins. *)
Lemma has_edge_ends (g : t) (l : list Node.t) (x y : Node.t) :
  wf g -> NoDup (Node.ids l) ->
  (forall n, In n (nodes g) -> In n l) ->
  In x l -> In y l ->
  has_edge g x y = true -> In x (nodes g) /\ In y (nodes g).
Proof.
  intros Hwf Hnd Hsub Hx Hy He.
  destruct (has_edge_members _ _ Hwf He) as [H1 H2].
  unfold Node.ids in H1, H2. apply in_map_iff in H1, H2.
  destruct H1 as [x' [Hidx Hx']], H2 as [y' [Hidy Hy']].
  assert (x' = x) by (apply (same_id_same_node l); auto).
  assert (y' = y) by (apply (same_id_same_node l); auto).
  subst. auto.
Qed.

End EdgeFacts.

Section QueryEdges.

Import SearchGraph.
Variable self : PRMPlannerPolygon.t.
Variables a c : Node.t.

Local Abbreviation G := (PRMPlannerPolygon.graph self).
Local Abbreviation Q := (query_graph self a c).
Local Abbreviation link :=
  (links (PRMPlannerPolygon.world self)
         (PRMPlannerPolygon.max_connection_dist self)).

Hypothesis Q_wf : wf Q.
Hypothesis a_in : In a (nodes Q).
Hypothesis c_in : In c (nodes Q).

(** The edges a query searches: the edges of the roadmap, and the links
    the connector draws from the start node and from the goal node. *)
Lemma query_edge_iff (x y : Node.t) :
  In x (nodes Q) -> In y (nodes Q) ->
  has_edge Q x y = true
  <-> has_edge G x y = true
      \/ (x = a /\ link a y = true) \/ (y = a /\ link a x = true)
      \/ (x = c /\ link c y = true) \/ (y = c /\ link c x = true).
Proof.
  intros Hx Hy.
  assert (Hsame : forall u v, In u (nodes Q) -> In v (nodes Q) ->
            Node.id u = Node.id v -> u = v)
    by (intros u v; apply same_id_same_node, wf_nodup, Q_wf).
  split.
  - rewrite has_edge_query_graph. intros He.
    apply orb_true_iff in He. destruct He as [He | He];
      [apply orb_true_iff in He; destruct He as [He | He]|].
    + now left.
    + apply existsb_exists in He. destruct He as [o [Ho He]].
      apply andb_true_iff in He. destruct He as [Hl Hj].
      unfold joins in Hj. cbn [fst snd] in Hj.
      rewrite orb_true_iff, !andb_true_iff, !eqb_iff in Hj.
      destruct Hj as [[E1 E2] | [E1 E2]].
      * assert (Hxa : x = a) by (apply Hsame; auto).
        assert (Hyo : y = o) by (apply Hsame; auto).
        rewrite Hyo. right. left. now split.
      * assert (Hya : y = a) by (apply Hsame; auto).
        assert (Hxo : x = o) by (apply Hsame; auto).
        rewrite Hxo. right. right. left. now split.
    + apply existsb_exists in He. destruct He as [o [Ho He]].
      apply andb_true_iff in He. destruct He as [Hl Hj].
      unfold joins in Hj. cbn [fst snd] in Hj.
      rewrite orb_true_iff, !andb_true_iff, !eqb_iff in Hj.
      destruct Hj as [[E1 E2] | [E1 E2]].
      * assert (Hxc : x = c) by (apply Hsame; auto).
        assert (Hyo : y = o) by (apply Hsame; auto).
        rewrite Hyo. right. right. right. left. now split.
      * assert (Hyc : y = c) by (apply Hsame; auto).
        assert (Hxo : x = o) by (apply Hsame; auto).
        rewrite Hxo. right. right. right. right. now split.
  - intros [He | [[-> Hl] | [[-> Hl] | [[-> Hl] | [-> Hl]]]]].
    + rewrite has_edge_query_graph, He. reflexivity.
    + now apply query_graph_links_start.
    + rewrite has_edge_sym. now apply query_graph_links_start.
    + now apply query_graph_links_goal.
    + rewrite has_edge_sym. now apply query_graph_links_goal.
Qed.

End QueryEdges.

(* ================================================================== *)
(** ** The second of two queries

    The first query works with the nodes [a1] and [c1], the second with
    [a2] and [c2], which carry the same poses: each is the node of the
    first query again, or a node made for a raw pose, as was the node of
    the first query. *)

Section TwoQueries.

Context `{E : Externals}.
Import PRMPlannerPolygon.

Hypothesis contract : SearchContract E.
Variables (self self1 : t) (a1 c1 a2 c2 : Node.t).

Local Abbreviation N := (SearchGraph.nodes (graph self)).
Local Abbreviation G1 := (query_graph self a1 c1).
Local Abbreviation G2 := (query_graph self1 a2 c2).
Local Abbreviation phi := (fold_onto a2 a1 c2 c1).
Local Abbreviation psi := (fold_onto a1 a2 c1 c2).
Local Abbreviation link := (links (world self) (max_connection_dist self)).

Hypothesis self_wf : SearchGraph.wf (graph self).
Hypothesis same_world : world self1 = world self.
Hypothesis same_dist : max_connection_dist self1 = max_connection_dist self.
Hypothesis a1_in : In a1 (SearchGraph.nodes G1).
Hypothesis c1_in : In c1 (SearchGraph.nodes G1).
Hypothesis a2_c2 : Node.id a2 <> Node.id c2.
Hypothesis a2_pose : Node.pose a2 = Node.pose a1.
Hypothesis c2_pose : Node.pose c2 = Node.pose c1.
Hypothesis a2_again_or_new :
  a2 = a1 \/ ~ In (Node.id a2) (Node.ids (SearchGraph.nodes G1)).
Hypothesis c2_again_or_new :
  c2 = c1 \/ ~ In (Node.id c2) (Node.ids (SearchGraph.nodes G1)).

Lemma first_query_wf : SearchGraph.wf G1.
Proof. now apply wf_query_graph_members. Qed.

Lemma roadmap_in_first_query (n : Node.t) :
  In n N -> In n (SearchGraph.nodes G1).
Proof. apply query_graph_keeps_nodes. Qed.

Lemma first_query_same_id (x y : Node.t) :
  In x (SearchGraph.nodes G1) -> In y (SearchGraph.nodes G1) ->
  Node.id x = Node.id y -> x = y.
Proof. apply same_id_same_node, SearchGraph.wf_nodup, first_query_wf. Qed.

Lemma fold_onto_start : phi a2 = a1.
Proof. unfold fold_onto. now rewrite eqb_refl. Qed.

Lemma fold_onto_goal : phi c2 = c1.
Proof.
  unfold fold_onto. rewrite eqb_refl.
  assert (Hca : Node.eqb c2 a2 = false) by (apply eqb_false_iff; congruence).
  now rewrite Hca.
Qed.

(** *** After a failure *)

Section AfterFailure.

Hypothesis first_left_behind : graph self1 = G1.

Lemma second_query_node_cases (x : Node.t) :
  In x (SearchGraph.nodes G2) ->
  In x (SearchGraph.nodes G1) \/ x = a2 \/ x = c2.
Proof.
  intros Hx. apply query_graph_node_cases in Hx.
  now rewrite first_left_behind in Hx.
Qed.

Lemma first_in_second (x : Node.t) :
  In x (SearchGraph.nodes G1) -> In x (SearchGraph.nodes G2).
Proof.
  intros Hx. apply query_graph_keeps_nodes. now rewrite first_left_behind.
Qed.

Lemma second_start_member : In a2 (SearchGraph.nodes G2).
Proof.
  destruct a2_again_or_new as [Heq | Hnew].
  - set (members := SearchGraph.nodes G2). rewrite Heq. unfold members.
    apply first_in_second, a1_in.
  - rewrite nodes_query_graph, first_left_behind.
    apply add_node_keeps_nodes, add_node_new_in.
    now apply mem_node_false_iff.
Qed.

Lemma second_goal_member : In c2 (SearchGraph.nodes G2).
Proof.
  destruct c2_again_or_new as [Heq | Hnew].
  - set (members := SearchGraph.nodes G2). rewrite Heq. unfold members.
    apply first_in_second, c1_in.
  - rewrite nodes_query_graph, first_left_behind.
    apply add_node_new_in, mem_node_false_iff.
    destruct (nodes_add_node_shape G1 a2) as [extra [-> Hextra]].
    unfold Node.ids in *. rewrite map_app, in_app_iff.
    intros [Hin | Hin]; [contradiction|].
    apply in_map_iff in Hin. destruct Hin as [x [Hid Hx]].
    apply Hextra in Hx. subst x. congruence.
Qed.

Lemma second_query_wf : SearchGraph.wf G2.
Proof.
  apply wf_query_graph_members.
  - rewrite first_left_behind. apply first_query_wf.
  - apply second_start_member.
  - apply second_goal_member.
Qed.

Lemma second_query_same_id (x y : Node.t) :
  In x (SearchGraph.nodes G2) -> In y (SearchGraph.nodes G2) ->
  Node.id x = Node.id y -> x = y.
Proof. apply same_id_same_node, SearchGraph.wf_nodup, second_query_wf. Qed.

Lemma fold_onto_first (x : Node.t) :
  In x (SearchGraph.nodes G1) -> phi x = x.
Proof.
  intros Hx. unfold fold_onto.
  destruct (Node.eqb x a2) eqn:Ha.
  { apply eqb_iff in Ha. destruct a2_again_or_new as [Heq | Hnew].
    - symmetry. apply first_query_same_id;
        [assumption | apply a1_in | congruence].
    - exfalso. apply Hnew. rewrite <- Ha. now apply in_ids. }
  destruct (Node.eqb x c2) eqn:Hc; [|reflexivity].
  apply eqb_iff in Hc. destruct c2_again_or_new as [Heq | Hnew].
  - symmetry. apply first_query_same_id;
      [assumption | apply c1_in | congruence].
  - exfalso. apply Hnew. rewrite <- Hc. now apply in_ids.
Qed.

Lemma fold_onto_member (x : Node.t) :
  In x (SearchGraph.nodes G2) ->
  In (phi x) (SearchGraph.nodes G1) /\ Node.pose (phi x) = Node.pose x.
Proof.
  intros Hx. destruct (second_query_node_cases x Hx) as [H1 | [-> | ->]].
  - now rewrite fold_onto_first.
  - rewrite fold_onto_start. split; [apply a1_in | congruence].
  - rewrite fold_onto_goal. split; [apply c1_in | congruence].
Qed.

(** A link the second query draws from one of its nodes has a counterpart
    the first query drew from the node with the same pose. *)
Lemma fold_onto_link_start (o : Node.t) :
  In o (SearchGraph.nodes G2) ->
  link a2 o = true ->
  a1 = phi o \/ SearchGraph.has_edge G1 a1 (phi o) = true.
Proof.
  intros Ho Hl. destruct (fold_onto_member o Ho) as [Hin Hpose].
  unfold links in Hl. apply andb_true_iff in Hl. destruct Hl as [_ Hconn].
  destruct (Nat.eq_dec (Node.id (phi o)) (Node.id a1)) as [Hid | Hid].
  - left. symmetry. apply first_query_same_id;
      [assumption | apply a1_in | assumption].
  - right. apply query_graph_links_start; [assumption|].
    unfold links. rewrite Hpose, <- a2_pose, Hconn, andb_true_r.
    apply negb_true_iff, eqb_false_iff. congruence.
Qed.

Lemma fold_onto_link_goal (o : Node.t) :
  In o (SearchGraph.nodes G2) ->
  link c2 o = true ->
  c1 = phi o \/ SearchGraph.has_edge G1 c1 (phi o) = true.
Proof.
  intros Ho Hl. destruct (fold_onto_member o Ho) as [Hin Hpose].
  unfold links in Hl. apply andb_true_iff in Hl. destruct Hl as [_ Hconn].
  destruct (Nat.eq_dec (Node.id (phi o)) (Node.id c1)) as [Hid | Hid].
  - left. symmetry. apply first_query_same_id;
      [assumption | apply c1_in | assumption].
  - right. apply query_graph_links_goal; [assumption|].
    unfold links. rewrite Hpose, <- c2_pose, Hconn, andb_true_r.
    apply negb_true_iff, eqb_false_iff. congruence.
Qed.

(** An edge of the first roadmap joins members of the first roadmap. *)
Lemma first_edge_ends (x y : Node.t) :
  In x (SearchGraph.nodes G2) -> In y (SearchGraph.nodes G2) ->
  SearchGraph.has_edge G1 x y = true ->
  In x (SearchGraph.nodes G1) /\ In y (SearchGraph.nodes G1).
Proof.
  intros Hx Hy He.
  apply (@has_edge_ends G1 (SearchGraph.nodes G2) x y);
    auto using first_query_wf, first_in_second.
  apply SearchGraph.wf_nodup, second_query_wf.
Qed.

(** Every edge of the roadmap the second query searches folds onto an edge
    of the roadmap the first one searched, or onto a single node. *)
Lemma fold_onto_edge (x y : Node.t) :
  In x (SearchGraph.nodes G2) -> In y (SearchGraph.nodes G2) ->
  SearchGraph.has_edge G2 x y = true ->
  phi x = phi y \/ SearchGraph.has_edge G1 (phi x) (phi y) = true.
Proof.
  intros Hx Hy He. rewrite has_edge_query_graph in He.
  rewrite same_world, same_dist, first_left_behind in He.
  apply orb_true_iff in He. destruct He as [He | He];
    [apply orb_true_iff in He; destruct He as [He | He]|].
  - right. destruct (first_edge_ends x y Hx Hy He) as [H1 H2].
    now rewrite !fold_onto_first.
  - apply existsb_exists in He. destruct He as [o [Ho He]].
    apply andb_true_iff in He. destruct He as [Hl Hj].
    pose proof (fold_onto_link_start o Ho Hl) as Hlink.
    unfold SearchGraph.joins in Hj. cbn [fst snd] in Hj.
    rewrite orb_true_iff, !andb_true_iff, !eqb_iff in Hj.
    destruct Hj as [[E1 E2] | [E1 E2]].
    + assert (x = a2)
        by (apply second_query_same_id; auto using second_start_member).
      assert (y = o) by (apply second_query_same_id; auto).
      subst x y. now rewrite fold_onto_start.
    + assert (y = a2)
        by (apply second_query_same_id; auto using second_start_member).
      assert (x = o) by (apply second_query_same_id; auto).
      subst x y. rewrite fold_onto_start, has_edge_sym.
      destruct Hlink; [left; congruence | now right].
  - apply existsb_exists in He. destruct He as [o [Ho He]].
    apply andb_true_iff in He. destruct He as [Hl Hj].
    pose proof (fold_onto_link_goal o Ho Hl) as Hlink.
    unfold SearchGraph.joins in Hj. cbn [fst snd] in Hj.
    rewrite orb_true_iff, !andb_true_iff, !eqb_iff in Hj.
    destruct Hj as [[E1 E2] | [E1 E2]].
    + assert (x = c2)
        by (apply second_query_same_id; auto using second_goal_member).
      assert (y = o) by (apply second_query_same_id; auto).
      subst x y. now rewrite fold_onto_goal.
    + assert (y = c2)
        by (apply second_query_same_id; auto using second_goal_member).
      assert (x = o) by (apply second_query_same_id; auto).
      subst x y. rewrite fold_onto_goal, has_edge_sym.
      destruct Hlink; [left; congruence | now right].
Qed.

Lemma fold_onto_walk (x y : Node.t) (p : list Node.t) :
  walk G2 x y p -> exists q, walk G1 (phi x) (phi y) q.
Proof.
  induction 1 as [x Hx | x b y p Hx Hxb Hw [q Hq]].
  - exists [phi x]. constructor. now apply fold_onto_member.
  - assert (Hb : In b (SearchGraph.nodes G2))
      by (eapply walk_start_member; eauto).
    destruct (fold_onto_edge x b Hx Hb Hxb) as [Heq | He].
    + exists q. now rewrite Heq.
    + exists (phi x :: q). econstructor; eauto. now apply fold_onto_member.
Qed.

(** A goal the first query could not reach stays out of reach for the
    second, in spite of the nodes the first one left behind. *)
Lemma second_after_failure :
  find_path G1 a1 c1 = [] -> find_path G2 a2 c2 = [].
Proof.
  intros Hfail.
  destruct (find_path G2 a2 c2) as [|n l] eqn:Hfound; [reflexivity|].
  exfalso.
  destruct (@search_sound E contract G2 a2 c2 second_query_wf
              second_start_member second_goal_member)
    as [Hw _]; [rewrite Hfound; discriminate|].
  destruct (fold_onto_walk Hw) as [q Hq].
  rewrite fold_onto_start, fold_onto_goal in Hq.
  now apply (search_complete contract first_query_wf Hq).
Qed.

End AfterFailure.

(** *** After a success *)

Section AfterSuccess.

Hypothesis determined : SearchDetermined E.
Hypothesis approved : edges_approved self.
Hypothesis a1_c1 : Node.id a1 <> Node.id c1.
Hypothesis first_removed :
  graph self1
  = SearchGraph.remove_node (SearchGraph.remove_node G1 a1) c1.

Local Abbreviation R := (graph self1).

Lemma left_nodes (x : Node.t) :
  In x (SearchGraph.nodes R)
  <-> In x (SearchGraph.nodes G1)
      /\ Node.id x <> Node.id a1 /\ Node.id x <> Node.id c1.
Proof.
  rewrite first_removed. unfold SearchGraph.remove_node.
  cbn [SearchGraph.nodes]. rewrite !filter_In, !negb_true_iff, !eqb_false_iff.
  tauto.
Qed.

Lemma left_wf : SearchGraph.wf R.
Proof.
  rewrite first_removed. apply wf_remove_node, wf_remove_node, first_query_wf.
Qed.

Lemma left_edge (x y : Node.t) :
  SearchGraph.has_edge R x y = true
  <-> SearchGraph.has_edge G1 x y = true
      /\ Node.id x <> Node.id a1 /\ Node.id x <> Node.id c1
      /\ Node.id y <> Node.id a1 /\ Node.id y <> Node.id c1.
Proof.
  rewrite first_removed, !has_edge_remove_node.
  rewrite !andb_true_iff, !negb_true_iff, !eqb_false_iff. tauto.
Qed.

Lemma start_not_left :
  ~ In (Node.id a2) (Node.ids (SearchGraph.nodes R)).
Proof.
  intros Hin. unfold Node.ids in Hin. apply in_map_iff in Hin.
  destruct Hin as [x [Hid Hx]]. apply left_nodes in Hx.
  destruct Hx as [Hx [Hxa Hxc]].
  destruct a2_again_or_new as [Heq | Hnew]; [congruence|].
  apply Hnew. rewrite <- Hid. now apply in_ids.
Qed.

Lemma goal_not_left :
  ~ In (Node.id c2) (Node.ids (SearchGraph.nodes R)).
Proof.
  intros Hin. unfold Node.ids in Hin. apply in_map_iff in Hin.
  destruct Hin as [x [Hid Hx]]. apply left_nodes in Hx.
  destruct Hx as [Hx [Hxa Hxc]].
  destruct c2_again_or_new as [Heq | Hnew]; [congruence|].
  apply Hnew. rewrite <- Hid. now apply in_ids.
Qed.

Lemma again_nodes : SearchGraph.nodes G2 = SearchGraph.nodes R ++ [a2; c2].
Proof.
  apply nodes_query_graph_fresh;
    [apply start_not_left | apply goal_not_left | exact a2_c2].
Qed.

Lemma again_wf : SearchGraph.wf G2.
Proof.
  apply wf_query_graph;
    [apply left_wf | apply start_not_left | apply goal_not_left
    | exact a2_c2].
Qed.

Lemma again_start_member : In a2 (SearchGraph.nodes G2).
Proof. rewrite again_nodes. apply in_or_app. right. now left. Qed.

Lemma again_goal_member : In c2 (SearchGraph.nodes G2).
Proof. rewrite again_nodes. apply in_or_app. right. right. now left. Qed.

Lemma left_in_again (x : Node.t) :
  In x (SearchGraph.nodes R) -> In x (SearchGraph.nodes G2).
Proof. rewrite again_nodes. intros. apply in_or_app. now left. Qed.

Lemma again_node_cases (x : Node.t) :
  In x (SearchGraph.nodes G2) ->
  In x (SearchGraph.nodes R) \/ x = a2 \/ x = c2.
Proof.
  rewrite again_nodes. intros Hx. apply in_app_or in Hx.
  destruct Hx as [Hx | [<- | [<- | []]]]; auto.
Qed.

Lemma first_node_cases (y : Node.t) :
  In y (SearchGraph.nodes G1) ->
  In y (SearchGraph.nodes R) \/ y = a1 \/ y = c1.
Proof.
  intros Hy.
  destruct (Nat.eq_dec (Node.id y) (Node.id a1)) as [Ha | Ha].
  { right. left. now apply first_query_same_id. }
  destruct (Nat.eq_dec (Node.id y) (Node.id c1)) as [Hc | Hc].
  { right. right. now apply first_query_same_id. }
  left. now apply left_nodes.
Qed.

Lemma fold_onto_left (x : Node.t) :
  In x (SearchGraph.nodes R) -> phi x = x /\ psi x = x.
Proof.
  intros Hx. unfold fold_onto.
  assert (H2 : Node.eqb x a2 = false /\ Node.eqb x c2 = false).
  { split; apply eqb_false_iff; intros Hid;
      [apply start_not_left | apply goal_not_left];
      rewrite <- Hid; now apply in_ids. }
  apply left_nodes in Hx. destruct Hx as [_ [Ha Hc]].
  apply eqb_false_iff in Ha, Hc. destruct H2 as [-> ->].
  now rewrite Ha, Hc.
Qed.

Lemma fold_back_start : psi a1 = a2.
Proof. unfold fold_onto. now rewrite eqb_refl. Qed.

Lemma fold_back_goal : psi c1 = c2.
Proof.
  unfold fold_onto. rewrite eqb_refl.
  assert (Hca : Node.eqb c1 a1 = false) by (apply eqb_false_iff; congruence).
  now rewrite Hca.
Qed.

Lemma fold_onto_into (x : Node.t) :
  In x (SearchGraph.nodes G2) ->
  In (phi x) (SearchGraph.nodes G1)
  /\ psi (phi x) = x
  /\ Node.pose (phi x) = Node.pose x.
Proof.
  intros Hx. destruct (again_node_cases x Hx) as [Hl | [-> | ->]].
  - destruct (fold_onto_left x Hl) as [Hphi Hpsi]. rewrite Hphi.
    apply left_nodes in Hl. tauto.
  - rewrite fold_onto_start, fold_back_start. auto.
  - rewrite fold_onto_goal, fold_back_goal. auto.
Qed.

Lemma fold_back_into (y : Node.t) :
  In y (SearchGraph.nodes G1) ->
  In (psi y) (SearchGraph.nodes G2) /\ phi (psi y) = y.
Proof.
  intros Hy. destruct (first_node_cases y Hy) as [Hl | [-> | ->]].
  - destruct (fold_onto_left y Hl) as [Hphi Hpsi]. rewrite Hpsi.
    split; [now apply left_in_again | assumption].
  - rewrite fold_back_start, fold_onto_start.
    split; [apply again_start_member | reflexivity].
  - rewrite fold_back_goal, fold_onto_goal.
    split; [apply again_goal_member | reflexivity].
Qed.

(** Which node folds onto the start node, and which onto the goal node. *)
Lemma fold_onto_start_only (x : Node.t) :
  In x (SearchGraph.nodes G2) -> (x = a2 <-> phi x = a1).
Proof.
  intros Hx. split; [intros ->; apply fold_onto_start|]. intros Hphi.
  destruct (fold_onto_into x Hx) as [_ [Hback _]].
  now rewrite <- Hback, Hphi, fold_back_start.
Qed.

Lemma fold_onto_goal_only (x : Node.t) :
  In x (SearchGraph.nodes G2) -> (x = c2 <-> phi x = c1).
Proof.
  intros Hx. split; [intros ->; apply fold_onto_goal|]. intros Hphi.
  destruct (fold_onto_into x Hx) as [_ [Hback _]].
  now rewrite <- Hback, Hphi, fold_back_goal.
Qed.

Lemma again_same_id (x y : Node.t) :
  In x (SearchGraph.nodes G2) -> In y (SearchGraph.nodes G2) ->
  Node.id x = Node.id y -> x = y.
Proof. apply same_id_same_node, SearchGraph.wf_nodup, again_wf. Qed.

(** The connector of the second query links what the connector of the
    first one linked. *)
Lemma fold_onto_link (n2 n1 y : Node.t) :
  In n2 (SearchGraph.nodes G2) -> phi n2 = n1 ->
  In y (SearchGraph.nodes G2) ->
  link n2 y = link n1 (phi y).
Proof.
  intros Hn Hphi Hy.
  destruct (fold_onto_into n2 Hn) as [Hn1 [_ Hnpose]].
  destruct (fold_onto_into y Hy) as [Hy1 [Hyback Hypose]].
  rewrite Hphi in *.
  unfold links. rewrite Hypose, Hnpose. f_equal. f_equal.
  destruct (Node.eqb n2 y) eqn:H2.
  - apply eqb_iff in H2. assert (n2 = y) by now apply again_same_id.
    subst y. rewrite Hphi. symmetry. apply eqb_refl.
  - symmetry. apply eqb_false_iff. intros Hid.
    apply eqb_false_iff in H2. apply H2. f_equal.
    assert (n1 = phi y) by now apply first_query_same_id.
    destruct (fold_onto_into n2 Hn) as [_ [Hnback _]].
    rewrite <- Hnback, <- Hyback, Hphi. congruence.
Qed.

(** An edge of the roadmap at a member the first query starts from, or
    ends in, is a link the connector draws as well. *)
Lemma roadmap_edge_is_link (n y : Node.t) :
  In n (SearchGraph.nodes G1) -> In y (SearchGraph.nodes G1) ->
  SearchGraph.has_edge (graph self) n y = true ->
  link n y = true.
Proof.
  intros Hn Hy He.
  destruct (@has_edge_ends (graph self) (SearchGraph.nodes G1) n y)
    as [Hn' Hy'];
    auto using roadmap_in_first_query.
  { apply SearchGraph.wf_nodup, first_query_wf. }
  unfold links. apply andb_true_iff. split.
  - apply negb_true_iff, eqb_false_iff.
    exact (@has_edge_apart (graph self) n y self_wf He).
  - now apply approved.
Qed.

Lemma left_edge_folds (x y : Node.t) :
  In x (SearchGraph.nodes G2) -> In y (SearchGraph.nodes G2) ->
  SearchGraph.has_edge R x y = true ->
  SearchGraph.has_edge G1 (phi x) (phi y) = true.
Proof.
  intros Hx Hy He.
  destruct (@has_edge_ends R (SearchGraph.nodes G2) x y) as [Hx' Hy'];
    auto using left_in_again, left_wf.
  { apply SearchGraph.wf_nodup, again_wf. }
  destruct (fold_onto_left x Hx') as [-> _].
  destruct (fold_onto_left y Hy') as [-> _].
  now apply left_edge in He.
Qed.

(** The second query searches the graph the first one searched, its two
    nodes in the place of the two nodes of the first. *)
Lemma fold_onto_edge_same (x y : Node.t) :
  In x (SearchGraph.nodes G2) -> In y (SearchGraph.nodes G2) ->
  SearchGraph.has_edge G2 x y = SearchGraph.has_edge G1 (phi x) (phi y).
Proof.
  intros Hx Hy. apply eq_true_iff_eq.
  destruct (fold_onto_into x Hx) as [Hx1 [Hxback Hxpose]].
  destruct (fold_onto_into y Hy) as [Hy1 [Hyback Hypose]].
  rewrite (@query_edge_iff self1 a2 c2 again_wf again_start_member
             again_goal_member x y Hx Hy).
  rewrite (@query_edge_iff self a1 c1 first_query_wf a1_in c1_in
             (phi x) (phi y) Hx1 Hy1).
  rewrite same_world, same_dist.
  rewrite (fold_onto_start_only x Hx), (fold_onto_start_only y Hy).
  rewrite (fold_onto_goal_only x Hx), (fold_onto_goal_only y Hy).
  rewrite (@fold_onto_link a2 a1 y again_start_member fold_onto_start Hy).
  rewrite (@fold_onto_link a2 a1 x again_start_member fold_onto_start Hx).
  rewrite (@fold_onto_link c2 c1 y again_goal_member fold_onto_goal Hy).
  rewrite (@fold_onto_link c2 c1 x again_goal_member fold_onto_goal Hx).
  split.
  - intros [He | Hlinks]; [|now right].
    apply (@query_edge_iff self a1 c1 first_query_wf a1_in c1_in
             (phi x) (phi y) Hx1 Hy1).
    now apply left_edge_folds.
  - intros [He | Hlinks]; [|now right].
    destruct (Nat.eq_dec (Node.id (phi x)) (Node.id a1)) as [Hxa | Hxa].
    { assert (phi x = a1) by now apply first_query_same_id.
      right. left. split; [assumption|].
      apply roadmap_edge_is_link; congruence. }
    destruct (Nat.eq_dec (Node.id (phi y)) (Node.id a1)) as [Hya | Hya].
    { assert (phi y = a1) by now apply first_query_same_id.
      right. right. left. split; [assumption|].
      rewrite has_edge_sym in He. apply roadmap_edge_is_link; congruence. }
    destruct (Nat.eq_dec (Node.id (phi x)) (Node.id c1)) as [Hxc | Hxc].
    { assert (phi x = c1) by now apply first_query_same_id.
      right. right. right. left. split; [assumption|].
      apply roadmap_edge_is_link; congruence. }
    destruct (Nat.eq_dec (Node.id (phi y)) (Node.id c1)) as [Hyc | Hyc].
    { assert (phi y = c1) by now apply first_query_same_id.
      right. right. right. right. split; [assumption|].
      rewrite has_edge_sym in He. apply roadmap_edge_is_link; congruence. }
    left.
    assert (Hxl : In (phi x) (SearchGraph.nodes R)) by now apply left_nodes.
    assert (Hyl : In (phi y) (SearchGraph.nodes R)) by now apply left_nodes.
    destruct (fold_onto_left _ Hxl) as [_ Hxfix].
    destruct (fold_onto_left _ Hyl) as [_ Hyfix].
    rewrite Hxback in Hxfix. rewrite Hyback in Hyfix.
    rewrite Hxfix, Hyfix. apply left_edge. repeat split; try assumption.
    apply (@query_edge_iff self a1 c1 first_query_wf a1_in c1_in
             (phi x) (phi y) Hx1 Hy1).
    now left.
Qed.

Lemma second_same_graph : same_graph phi psi G2 G1.
Proof.
  split.
  - intros x Hx. now apply fold_onto_into.
  - intros y Hy. now apply fold_back_into.
  - intros x Hx. now apply fold_onto_into.
  - intros y Hy. now apply fold_back_into.
  - intros x Hx. now apply fold_onto_into.
  - exact fold_onto_edge_same.
Qed.

(** After a successful query the next one finds the same poses. *)
Lemma second_after_success :
  map Node.pose (find_path G2 a2 c2) = map Node.pose (find_path G1 a1 c1).
Proof.
  rewrite (@determined phi psi G2 G1 a2 c2 again_wf first_query_wf
             second_same_graph again_start_member again_goal_member).
  now rewrite fold_onto_start, fold_onto_goal.
Qed.

End AfterSuccess.

End TwoQueries.


(* ================================================================== *)
(** ** The node objects of a query *)

Section QueryNodes.

Context `{E : Externals}.
Import PRMPlannerPolygon.

Variables (self : t) (r r1 : Runtime) (start goal : PoseOrNode).

Local Abbreviation a1 := (start_node r start).
Local Abbreviation c1 := (goal_node r start goal).
Local Abbreviation a2 := (start_node r1 start).
Local Abbreviation c2 := (goal_node r1 start goal).

Hypothesis state_wf : wf_state self r.
Hypothesis start_transient : transient self r start.
Hypothesis goal_transient : transient self r goal.

Lemma query_nodes_exist (n : Node.t) :
  In n (SearchGraph.nodes (query_graph self a1 c1)) ->
  Node.id n < next_id (runtime_with_nodes r start goal).
Proof.
  intros Hn. apply query_graph_node_cases in Hn.
  destruct state_wf as [_ Hlt].
  destruct Hn as [Hn | [-> | ->]]; [apply Hlt in Hn | |];
    unfold runtime_with_nodes, start_node, goal_node in *;
    destruct start, goal; simpl in *; lia.
Qed.

Lemma second_nodes_same_poses :
  Node.pose a2 = Node.pose a1 /\ Node.parent a2 = Node.parent a1
  /\ Node.pose c2 = Node.pose c1 /\ Node.parent c2 = Node.parent c1.
Proof.
  clear state_wf start_transient goal_transient.
  now destruct start, goal.
Qed.

End QueryNodes.

(* ================================================================== *)
(** ** The node objects of two consecutive queries *)

Section KnownNodes.

Import PRMPlannerPolygon.

Lemma add_node_in (g : SearchGraph.t) (n : Node.t) :
  (In (Node.id n) (Node.ids (SearchGraph.nodes g)) ->
   In n (SearchGraph.nodes g)) ->
  In n (SearchGraph.nodes (SearchGraph.add_node g n)).
Proof.
  intros Hagain. destruct (SearchGraph.mem_node g n) eqn:Hm.
  - apply add_node_keeps_nodes, Hagain. now apply mem_node_iff.
  - now apply add_node_new_in.
Qed.

Variables (self : t) (r : Runtime).

Local Abbreviation N := (SearchGraph.nodes (graph self)).

Lemma known_start_again (start : PoseOrNode) :
  wf_state self r -> known self r start ->
  In (Node.id (start_node r start)) (Node.ids N) ->
  In (start_node r start) N.
Proof.
  intros [_ Hlt] Hk. destruct start as [p | n]; [|apply Hk].
  intros Hin. exfalso. unfold Node.ids in Hin. apply in_map_iff in Hin.
  destruct Hin as [o [Hid Ho]]. apply Hlt in Ho. simpl in Hid. lia.
Qed.

Lemma known_goal_again (start goal : PoseOrNode) :
  wf_state self r -> known self r goal ->
  In (Node.id (goal_node r start goal)) (Node.ids N) ->
  In (goal_node r start goal) N.
Proof.
  intros [_ Hlt] Hk. unfold goal_node.
  destruct goal as [p | n]; [|apply Hk].
  intros Hin. exfalso. unfold Node.ids in Hin. apply in_map_iff in Hin.
  destruct Hin as [o [Hid Ho]]. apply Hlt in Ho. simpl in Hid.
  pose proof (next_id_after_start r start). lia.
Qed.

Lemma known_one_object (start goal : PoseOrNode) :
  known self r start -> known self r goal ->
  one_object_per_identity start goal ->
  Node.id (start_node r start) = Node.id (goal_node r start goal) ->
  start_node r start = goal_node r start goal.
Proof.
  unfold start_node, goal_node.
  destruct start as [p | a], goal as [q | c]; simpl; intros Hs Hg Hobj Hid;
    try (exfalso; lia); auto.
Qed.

Lemma known_query_members (start goal : PoseOrNode) :
  wf_state self r -> known self r start -> known self r goal ->
  one_object_per_identity start goal ->
  In (start_node r start)
     (SearchGraph.nodes
        (query_graph self (start_node r start) (goal_node r start goal)))
  /\ In (goal_node r start goal)
        (SearchGraph.nodes
           (query_graph self (start_node r start) (goal_node r start goal))).
Proof.
  intros Hwf Hs Hg Hobj. rewrite nodes_query_graph.
  assert (Ha : In (start_node r start)
                  (SearchGraph.nodes
                     (SearchGraph.add_node (graph self) (start_node r start))))
    by now apply add_node_in, known_start_again.
  split; [now apply add_node_keeps_nodes|].
  apply add_node_in. intros Hin.
  destruct (nodes_add_node_shape (graph self) (start_node r start))
    as [extra [Hshape Hextra]].
  rewrite Hshape in *. unfold Node.ids in Hin.
  rewrite map_app, in_app_iff in Hin. destruct Hin as [Hin | Hin].
  - apply in_or_app. left. now apply known_goal_again.
  - apply in_map_iff in Hin. destruct Hin as [x [Hid Hx]].
    apply Hextra in Hx. subst x.
    now rewrite <- (known_one_object start goal Hs Hg Hobj).
Qed.

Lemma known_query_nodes_exist (start goal : PoseOrNode) (n : Node.t) :
  wf_state self r -> known self r start -> known self r goal ->
  In n (SearchGraph.nodes
          (query_graph self (start_node r start) (goal_node r start goal))) ->
  Node.id n < next_id (runtime_with_nodes r start goal).
Proof.
  intros [_ Hlt] Hs Hg Hn. apply query_graph_node_cases in Hn.
  destruct Hn as [Hn | [-> | ->]]; [apply Hlt in Hn | |];
    unfold runtime_with_nodes, start_node, goal_node in *;
    destruct start, goal; simpl in *;
    repeat match goal with H : _ /\ _ |- _ => destruct H end; lia.
Qed.

Variable r1 : Runtime.

Lemma known_second_start (start goal : PoseOrNode) :
  wf_state self r -> known self r start -> known self r goal ->
  next_id (runtime_with_nodes r start goal) <= next_id r1 ->
  start_node r1 start = start_node r start
  \/ ~ In (Node.id (start_node r1 start))
          (Node.ids
             (SearchGraph.nodes
                (query_graph self (start_node r start)
                   (goal_node r start goal)))).
Proof.
  intros Hwf Hs Hg Hlater.
  pose proof (fun o => @known_query_nodes_exist start goal o Hwf Hs Hg)
    as Hbelow.
  destruct start as [p | n]; [right | now left].
  intros Hin. unfold Node.ids in Hin. apply in_map_iff in Hin.
  destruct Hin as [o [Hid Ho]]. apply Hbelow in Ho. simpl in Hid. lia.
Qed.

Lemma known_second_goal (start goal : PoseOrNode) :
  wf_state self r -> known self r start -> known self r goal ->
  next_id (runtime_with_nodes r start goal) <= next_id r1 ->
  goal_node r1 start goal = goal_node r start goal
  \/ ~ In (Node.id (goal_node r1 start goal))
          (Node.ids
             (SearchGraph.nodes
                (query_graph self (start_node r start)
                   (goal_node r start goal)))).
Proof.
  intros Hwf Hs Hg Hlater.
  pose proof (fun o => @known_query_nodes_exist start goal o Hwf Hs Hg)
    as Hbelow.
  pose proof (next_id_after_start r1 start) as Hnext.
  destruct goal as [p | n]; [right | now left].
  intros Hin. unfold Node.ids in Hin. apply in_map_iff in Hin.
  destruct Hin as [o [Hid Ho]]. apply Hbelow in Ho.
  unfold goal_node in Hid. simpl in Hid. lia.
Qed.

Lemma known_second_apart (start goal : PoseOrNode) :
  known self r start -> known self r goal ->
  next_id (runtime_with_nodes r start goal) <= next_id r1 ->
  Node.id (start_node r start) <> Node.id (goal_node r start goal) ->
  Node.id (start_node r1 start) <> Node.id (goal_node r1 start goal).
Proof.
  unfold runtime_with_nodes, start_node, goal_node.
  destruct start, goal; simpl; intros;
    repeat match goal with H : _ /\ _ |- _ => destruct H end; lia.
Qed.

End KnownNodes.

Section Determinism.

Context `{E : Externals}.
Import PRMPlannerPolygon.

(** From a node to itself the search answers with that node alone. *)
Lemma find_path_to_itself (g : SearchGraph.t) (n : Node.t) :
  SearchContract E -> SearchGraph.wf g -> In n (SearchGraph.nodes g) ->
  find_path g n n = [n].
Proof.
  intros contract Hwf Hn.
  assert (Hne : find_path g n n <> []).
  { apply (@search_complete E contract g n n [n] Hwf). now constructor. }
  destruct (@search_sound E contract g n n Hwf Hn Hn Hne) as [Hw Hnd].
  remember (find_path g n n) as p eqn:Hp. clear Hp Hne.
  inversion Hw as [a Ha | a b c q Ha Hab Hq]; subst; [reflexivity|].
  exfalso. simpl in Hnd. inversion Hnd as [|? ? Hnotin _]; subst.
  apply Hnotin, in_ids. eapply walk_end_in; eauto.
Qed.


End Determinism.

(* ================================================================== *)
(** ** The state invariant along a run *)

Section StateInvariant.

Context `{E : Externals}.
Import PRMPlannerPolygon.

Lemma reset_wf_state (self : t) (r : Runtime) :
  wf_state (fst (reset self r)) (snd (reset self r)).
Proof.
  split; [apply reset_wf|].
  intros n Hn. rewrite reset_nodes in Hn. apply in_ids in Hn.
  rewrite fresh_nodes_ids in Hn. apply in_seq in Hn.
  rewrite reset_run. cbn [snd next_id]. lia.
Qed.

Lemma init_wf_state (compress : bool) (d : float) (max : nat) (w : World)
    (r : Runtime) :
  wf_state (fst (init compress d max w r)) (snd (init compress d max w r)).
Proof. apply reset_wf_state. Qed.

(** Making a node object leaves the state well formed. *)
Lemma new_node_keeps_wf_state (self : t) (r : Runtime) (p : Pose.t)
    (parent : option nat) :
  wf_state self r -> wf_state self (snd (new_Node p parent r)).
Proof.
  intros [Hwf Hlt]. split; [exact Hwf|].
  intros n Hn. apply Hlt in Hn. simpl. lia.
Qed.

(** A query on raw poses hands a well-formed state to the next query. *)
Lemma plan_poses_keeps_wf_state (self : t) (r : Runtime) (start goal : Pose.t) :
  wf_state self r ->
  wf_state (snd (fst (plan self (IsPose start) (IsPose goal) r)))
           (snd (plan self (IsPose start) (IsPose goal) r)).
Proof.
  intros Hwf.
  pose proof (transient_start_fresh (IsPose start) Hwf I) as Ha.
  pose proof (transient_goal_fresh (IsPose start) (IsPose goal) Hwf I) as Hc.
  unfold wf_state. rewrite plan_next_id, plan_graph_after.
  destruct (waypoints_of self (IsPose start) (IsPose goal) r) eqn:Hwp.
  - split.
    + apply wf_query_graph; [apply Hwf | exact Ha | exact Hc | simpl; lia].
    + intros n Hn.
      exact (@query_nodes_exist self r (IsPose start) (IsPose goal)
               Hwf I I n Hn).
  - rewrite remove_query_nodes; [| apply Hwf | exact Ha | exact Hc].
    split; [apply Hwf|].
    intros n Hn. apply Hwf in Hn. simpl. lia.
Qed.

(** A failed query on raw poses leaves its two nodes in the roadmap. *)
Lemma failed_query_grows_roadmap (self : t) (r : Runtime) (start goal : Pose.t) :
  wf_state self r ->
  waypoints_of self (IsPose start) (IsPose goal) r = [] ->
  SearchGraph.nodes
    (graph (snd (fst (plan self (IsPose start) (IsPose goal) r))))
  = SearchGraph.nodes (graph self)
    ++ [Node.mk (next_id r) start None; Node.mk (S (next_id r)) goal None].
Proof.
  intros Hwf Hfail. rewrite plan_graph_after, Hfail.
  apply (@nodes_query_graph_fresh self (Node.mk (next_id r) start None)
           (Node.mk (S (next_id r)) goal None)).
  - exact (transient_start_fresh (IsPose start) Hwf I).
  - exact (transient_goal_fresh (IsPose start) (IsPose goal) Hwf I).
  - simpl. lia.
Qed.

End StateInvariant.

(* ================================================================== *)
(** ** Roadmaps of the planner's oracle

    With an oracle that is symmetric in its two poses, as the spec
    assumes, the roadmap [reset] builds is one of the oracle, and so is the
    roadmap every query leaves. *)

Section Approved.

Context `{E : Externals}.
Import PRMPlannerPolygon.

Lemma reset_edges_approved (self : t) (r : Runtime) :
  (forall p q, is_connectable (world self) p q (max_connection_dist self)
               = is_connectable (world self) q p (max_connection_dist self)) ->
  edges_approved (fst (reset self r)).
Proof.
  intros Hsym a b.
  pose proof (SearchGraph.wf_nodup (reset_wf self r)) as Hnd. revert Hnd.
  rewrite reset_run. cbn [fst graph world max_connection_dist].
  rewrite nodes_connect_all, has_edge_connect_all.
  cbn [SearchGraph.nodes SearchGraph.has_edge SearchGraph.edges existsb orb].
  set (ns := fresh_nodes _ _). intros Hnd Ha Hb He.
  apply existsb_exists in He. destruct He as [n [Hn Hex]].
  apply existsb_exists in Hex. destruct Hex as [o [Ho Hlk]].
  apply andb_true_iff in Hlk. destruct Hlk as [Hlk Hj].
  unfold links in Hlk. apply andb_true_iff in Hlk. destruct Hlk as [_ Hc].
  unfold SearchGraph.joins in Hj. simpl in Hj.
  rewrite orb_true_iff, !andb_true_iff, !eqb_iff in Hj.
  destruct Hj as [[H1 H2] | [H1 H2]].
  - assert (n = a) by (eapply same_id_same_node; eauto).
    assert (o = b) by (eapply same_id_same_node; eauto).
    now subst.
  - assert (n = b) by (eapply same_id_same_node; eauto).
    assert (o = a) by (eapply same_id_same_node; eauto).
    subst. now rewrite Hsym.
Qed.

Lemma init_edges_approved (compress : bool) (d : float) (max : nat)
    (w : World) (r : Runtime) :
  (forall p q, is_connectable w p q d = is_connectable w q p d) ->
  edges_approved (fst (init compress d max w r)).
Proof. intros Hsym. now apply reset_edges_approved. Qed.

(** A query on known arguments hands a well-formed state to the next
    query. *)
Lemma plan_keeps_wf_state (self : t) (r : Runtime) (start goal : PoseOrNode) :
  wf_state self r -> known self r start -> known self r goal ->
  one_object_per_identity start goal ->
  wf_state (snd (fst (plan self start goal r))) (snd (plan self start goal r)).
Proof.
  intros Hwf Hs Hg Hobj.
  destruct (known_query_members start goal Hwf Hs Hg Hobj) as [Ha_in Hc_in].
  pose proof (wf_query_graph_members self _ _ (proj1 Hwf) Ha_in Hc_in)
    as Hwf1.
  pose proof (fun n => @known_query_nodes_exist self r start goal n Hwf Hs Hg)
    as Hbelow.
  unfold wf_state. rewrite plan_next_id, plan_graph_after.
  destruct (waypoints_of self start goal r).
  - now split.
  - split; [now apply wf_remove_node, wf_remove_node|].
    intros n Hn. apply Hbelow.
    unfold SearchGraph.remove_node in Hn. cbn [SearchGraph.nodes] in Hn.
    rewrite !filter_In in Hn. tauto.
Qed.

Lemma plan_keeps_edges_approved (self : t) (r : Runtime)
    (start goal : PoseOrNode) :
  (forall p q, is_connectable (world self) p q (max_connection_dist self)
               = is_connectable (world self) q p (max_connection_dist self)) ->
  wf_state self r -> known self r start -> known self r goal ->
  one_object_per_identity start goal ->
  edges_approved self ->
  edges_approved (snd (fst (plan self start goal r))).
Proof.
  intros Hsym Hwf Hs Hg Hobj Happ.
  destruct (known_query_members start goal Hwf Hs Hg Hobj) as [Ha_in Hc_in].
  pose proof (wf_query_graph_members self _ _ (proj1 Hwf) Ha_in Hc_in)
    as Hwf1.
  destruct (plan_keeps_parameters self start goal r) as [Hw [Hd _]].
  set (a1 := start_node r start) in *.
  set (c1 := goal_node r start goal) in *.
  assert (Hquery : forall x y,
            In x (SearchGraph.nodes (query_graph self a1 c1)) ->
            In y (SearchGraph.nodes (query_graph self a1 c1)) ->
            SearchGraph.has_edge (query_graph self a1 c1) x y = true ->
            is_connectable (world self) (Node.pose x) (Node.pose y)
              (max_connection_dist self) = true).
  { intros x y Hx Hy He.
    apply (@query_edge_iff self a1 c1 Hwf1 Ha_in Hc_in x y Hx Hy) in He.
    unfold links in He. rewrite !andb_true_iff in He.
    destruct He as [He | [[-> [_ Hc]] | [[-> [_ Hc]] | [[-> [_ Hc]]
                                                         | [-> [_ Hc]]]]]];
      try assumption; try (now rewrite Hsym).
    destruct (@has_edge_ends (graph self)
                (SearchGraph.nodes (query_graph self a1 c1)) x y)
      as [Hx' Hy']; auto using query_graph_keeps_nodes.
    - apply Hwf.
    - apply SearchGraph.wf_nodup, Hwf1. }
  intros x y. unfold edges_approved. rewrite Hw, Hd, plan_graph_after.
  fold a1 c1. destruct (waypoints_of self start goal r).
  - apply Hquery.
  - rewrite !has_edge_remove_node. unfold SearchGraph.remove_node.
    cbn [SearchGraph.nodes]. rewrite !filter_In, !andb_true_iff.
    intros Hx Hy He. apply Hquery; tauto.
Qed.

(** A roadmap is of the planner's oracle when the test of every pair of
    members says so. *)
Lemma edges_approved_checked (self : PRMPlannerPolygon.t) :
  forallb
    (fun a =>
       forallb
         (fun b =>
            implb (SearchGraph.has_edge (PRMPlannerPolygon.graph self) a b)
                  (is_connectable (PRMPlannerPolygon.world self)
                     (Node.pose a) (Node.pose b)
                     (PRMPlannerPolygon.max_connection_dist self)))
         (SearchGraph.nodes (PRMPlannerPolygon.graph self)))
    (SearchGraph.nodes (PRMPlannerPolygon.graph self)) = true ->
  edges_approved self.
Proof.
  intros Hall a b Ha Hb He. rewrite forallb_forall in Hall.
  specialize (Hall a Ha). rewrite forallb_forall in Hall.
  specialize (Hall b Hb). now rewrite He in Hall.
Qed.

End Approved.

(* ================================================================== *)
(** ** The planner run on concrete worlds *)

Section Runs.

#[local] Existing Instance Reference.externals.
Import Examples.

(** C1 on a query that fails.  From [low] the pose [far] cannot be
    reached; [plan] returns the empty path and leaves the two query nodes,
    and the edge from [low] to the roadmap node, in the roadmap. *)
Lemma failed_query_leaves_its_nodes_behind :
  waypoints_of corridor (IsPose low) (IsPose far) corridor_runtime = []
  /\ SearchGraph.nodes (PRMPlannerPolygon.graph corridor)
     = [Node.mk 0 mid None]
  /\ SearchGraph.nodes
       (PRMPlannerPolygon.graph
          (snd (fst (PRMPlannerPolygon.plan corridor (IsPose low) (IsPose far)
                       corridor_runtime))))
     = [Node.mk 0 mid None; Node.mk 1 low None; Node.mk 2 far None]
  /\ ~ roadmap_restored corridor (IsPose low) (IsPose far) corridor_runtime.
Proof.
  split; [vm_compute; reflexivity|].
  split; [vm_compute; reflexivity|].
  split; [vm_compute; reflexivity|].
  intros [Hn _]. specialize (Hn (Node.mk 1 low None)).
  destruct Hn as [Hn _].
  assert (Hin : In (Node.mk 1 low None)
                  [Node.mk 0 mid None; Node.mk 1 low None; Node.mk 2 far None])
    by (right; now left).
  apply Hn in Hin. vm_compute in Hin. destruct Hin as [Hin | []].
  discriminate Hin.
Qed.

(** C2 as worded fails when a query node is a member of the roadmap: the
    query from [low_node] to [high_node] succeeds and takes both nodes out
    of the roadmap, which is left with [mid_node] alone. *)
Lemma successful_query_can_shrink_the_roadmap :
  waypoints_of ladder (IsNode low_node) (IsNode high_node) ladder_runtime
    = [low_node; mid_node; high_node]
  /\ SearchGraph.nodes (PRMPlannerPolygon.graph ladder)
     = [low_node; mid_node; high_node]
  /\ SearchGraph.nodes
       (PRMPlannerPolygon.graph
          (snd (fst (PRMPlannerPolygon.plan ladder (IsNode low_node)
                       (IsNode high_node) ladder_runtime))))
     = [mid_node]
  /\ ~ roadmap_restored ladder (IsNode low_node) (IsNode high_node)
         ladder_runtime.
Proof.
  split; [vm_compute; reflexivity|].
  split; [vm_compute; reflexivity|].
  split; [vm_compute; reflexivity|].
  intros [Hn _]. specialize (Hn low_node). destruct Hn as [_ Hn].
  assert (Hin : In low_node
                  (SearchGraph.nodes (PRMPlannerPolygon.graph ladder)))
    by (vm_compute; auto).
  apply Hn in Hin. vm_compute in Hin. destruct Hin as [Hin | []].
  discriminate Hin.
Qed.

(** C6 as worded fails on a path with an interior waypoint: the roadmap
    node [mid] has heading 0, the path carries it with the heading of the
    step from [low], a quarter turn. *)
Lemma interior_heading_is_rewritten :
  PRMPlannerPolygon.compress_path corridor = false
  /\ map Node.pose
       (waypoints_of corridor (IsPose low) (IsPose high) corridor_runtime)
     = [low; mid; high]
  /\ ~ returns_node_poses corridor (IsPose low) (IsPose high) corridor_runtime.
Proof.
  split; [reflexivity|]. split; [vm_compute; reflexivity|].
  unfold returns_node_poses. intros Heq.
  apply (f_equal (map (fun p => PrimFloat.eqb (Pose.yaw p) 0))) in Heq.
  vm_compute in Heq. discriminate Heq.
Qed.

End Runs.

Section Instances.

#[local] Existing Instance Reference.externals.
#[local] Existing Instance Reference.base.
Import Examples.

(** The build of [corridor]: five nodes asked for, the second attempt
    fails. *)
Lemma reset_samples_up_to_max_nodes_witness :
  length (SearchGraph.nodes (PRMPlannerPolygon.graph corridor)) = 1
  /\ rng_calls corridor_runtime = 2
  /\ warnings corridor_runtime = [CouldNotSampleMoreThan 1].
Proof.
  pose proof (@reset_samples_up_to_max_nodes Reference.externals
                (PRMPlannerPolygon.mk 1.5%float 5 (open_world [mid]) false
                   0%float 0%float Path.empty SearchGraph.empty)
                runtime0) as Hbuild.
  cbv zeta in Hbuild. destruct Hbuild as [_ [_ [_ Hstop]]].
  apply (Hstop 1); [simpl; lia | |reflexivity].
  intros j Hj. assert (j = 0) by lia. subst j. discriminate.
Defined.

(** The build of [mutual_ladder], whose oracle is symmetric: [low_node]
    and [mid_node] are joined, as the oracle connects them; [low_node] and
    [high_node], two units apart, are not. *)
Lemma reset_edge_iff_connectable_either_way_witness :
  (SearchGraph.has_edge (PRMPlannerPolygon.graph mutual_ladder)
     low_node mid_node = true
   <-> is_connectable (mutual_world [low; mid; high]) low mid 1.5%float
       = true)
  /\ (SearchGraph.has_edge (PRMPlannerPolygon.graph mutual_ladder)
        low_node high_node = true
      <-> is_connectable (mutual_world [low; mid; high]) low high 1.5%float
          = true).
Proof.
  destruct (@reset_edge_iff_connectable_either_way Reference.externals
              (PRMPlannerPolygon.mk 1.5%float 3
                 (mutual_world [low; mid; high]) false
                 0%float 0%float Path.empty SearchGraph.empty)
              runtime0) as [_ [_ Hsymmetric]].
  assert (Hsym : forall a b : Node.t,
            is_connectable (mutual_world [low; mid; high])
              (Node.pose a) (Node.pose b) 1.5%float
            = is_connectable (mutual_world [low; mid; high])
                (Node.pose b) (Node.pose a) 1.5%float).
  { intros a b. apply orb_comm. }
  split.
  - apply (Hsymmetric Hsym low_node mid_node);
      [vm_compute; auto | vm_compute; auto | discriminate].
  - apply (Hsymmetric Hsym low_node high_node);
      [vm_compute; auto | vm_compute; auto | discriminate].
Defined.

Lemma plan_success_restores_roadmap_witness :
  waypoints_of corridor (IsPose low) (IsPose high) corridor_runtime <> []
  /\ PRMPlannerPolygon.graph
       (snd (fst (PRMPlannerPolygon.plan corridor (IsPose low) (IsPose high)
                    corridor_runtime)))
     = PRMPlannerPolygon.graph corridor
  /\ roadmap_restored corridor (IsPose low) (IsPose high) corridor_runtime.
Proof.
  assert (Hok : waypoints_of corridor (IsPose low) (IsPose high)
                  corridor_runtime <> [])
    by (vm_compute; discriminate).
  split; [exact Hok|].
  apply (@plan_success_restores_roadmap Reference.externals corridor
           (IsPose low) (IsPose high) corridor_runtime).
  - apply init_wf_state.
  - exact I.
  - exact I.
  - exact Hok.
Defined.

Lemma plan_unreachable_returns_empty_path_witness :
  waypoints_of corridor (IsPose low) (IsPose far) corridor_runtime = []
  /\ Path.poses
       (fst (fst (PRMPlannerPolygon.plan corridor (IsPose low) (IsPose far)
                    corridor_runtime)))
     = []
  /\ PRMPlannerPolygon.planning_time
       (snd (fst (PRMPlannerPolygon.plan corridor (IsPose low) (IsPose far)
                    corridor_runtime)))
     = 0%float.
Proof.
  assert (Hfail : waypoints_of corridor (IsPose low) (IsPose far)
                    corridor_runtime = [])
    by (vm_compute; reflexivity).
  split; [exact Hfail|].
  destruct (@plan_unreachable_returns_empty_path Reference.externals corridor
              (IsPose low) (IsPose far) corridor_runtime Hfail)
    as [H1 [_ [_ H4]]].
  split; [exact H1 | exact H4].
Defined.

Lemma plan_uncompressed_path_follows_waypoints_witness :
  map position
    (Path.poses
       (fst (fst (PRMPlannerPolygon.plan corridor (IsPose low) (IsPose high)
                    corridor_runtime))))
  = map position [low; mid; high].
Proof.
  assert (Hok : waypoints_of corridor (IsPose low) (IsPose high)
                  corridor_runtime <> [])
    by (vm_compute; discriminate).
  destruct (@plan_uncompressed_path_follows_waypoints Reference.externals
              corridor (IsPose low) (IsPose high) corridor_runtime eq_refl Hok)
    as [_ [Hpos _]].
  exact Hpos.
Defined.

Lemma plan_removes_member_query_node_witness :
  In low_node (SearchGraph.nodes (PRMPlannerPolygon.graph ladder))
  /\ ~ In (Node.id low_node)
         (Node.ids
            (SearchGraph.nodes
               (PRMPlannerPolygon.graph
                  (snd (fst (PRMPlannerPolygon.plan ladder (IsNode low_node)
                               (IsPose high) ladder_runtime)))))).
Proof.
  assert (Hin : In low_node
                  (SearchGraph.nodes (PRMPlannerPolygon.graph ladder)))
    by (vm_compute; auto).
  assert (Hok : waypoints_of ladder (IsNode low_node) (IsPose high)
                  ladder_runtime <> [])
    by (vm_compute; discriminate).
  split; [exact Hin|].
  destruct (@plan_removes_member_query_node Reference.externals ladder
              (IsNode low_node) (IsPose high) ladder_runtime low_node
              (or_introl eq_refl) Hin Hok) as [Hgone _].
  exact Hgone.
Defined.

Lemma init_grid_requested_raises_witness :
  PRMPlanner.init
    (mkConfig None None None (Some (open_world []))
       [("grid"%string, PyBool true)])
    runtime0
  = (Raises (NotImplementedError "Grid based PRM is not supported. "),
     runtime0).
Proof.
  apply (@init_grid_requested_raises Reference.externals Reference.base
           (mkConfig None None None (Some (open_world []))
              [("grid"%string, PyBool true)])
           runtime0).
  reflexivity.
Defined.

Lemma plan_on_empty_roadmap_links_start_to_goal_witness :
  fst (fst (PRMPlannerPolygon.plan bare (IsPose low) (IsPose mid) bare_runtime))
  = Path.mk [low; mid].
Proof.
  destruct (@plan_on_empty_roadmap_links_start_to_goal Reference.externals
              false 1.5%float (open_world []) runtime0 low mid
              reference_search_contract reference_compressor_contract
              eq_refl eq_refl) as [_ Hpath].
  exact Hpath.
Defined.


End Instances.

(* ================================================================== *)
(** ** The factory [PRMPlanner] *)

Section Factory.

Context `{E : Externals} `{B : PathPlannerBase}.

Lemma clock_reads_with_nodes (r : Runtime) (start goal : PoseOrNode) :
  clock_reads (runtime_with_nodes r start goal) = clock_reads r
  /\ rng_calls (runtime_with_nodes r start goal) = rng_calls r
  /\ warnings (runtime_with_nodes r start goal) = warnings r
  /\ next_id (runtime_with_nodes r start goal)
     = next_id r + objects_made start + objects_made goal.
Proof.
  unfold runtime_with_nodes. destruct start, goal; simpl; repeat split; lia.
Qed.


(** X2.  Given a world and no undeclared keyword, the factory builds its
    planner with [PRMPlannerPolygon]'s constructor, a missing keyword
    taking the default of the signature ([compress_path=False],
    [max_connection_dist=2.0], [max_nodes=50]); [latest_path],
    [planning_time] and [graphs] are what the base class left in them.
    The roadmap it starts with has at most [max_nodes] nodes and is in the
    state queries expect: it meets the graph invariant, and every node is
    an object that exists. *)
Theorem factory_builds_with_signature_defaults
    (cfg : planner_config) (world : World) (r : Runtime) :
  cfg_undeclared cfg = [] ->
  cfg_world cfg = Some world ->
  let built :=
    PRMPlannerPolygon.init
      (get (cfg_compress_path cfg) false)
      (get (cfg_max_connection_dist cfg) 2%float)
      (get (cfg_max_nodes cfg) 50)
      world r in
  PRMPlanner.init cfg r
  = (Returns
       (PRMPlanner.Planner
          (PRMPlanner.mk (fst built) base_latest_path base_planning_time
                         base_graphs)),
     snd built)
  /\ PRMPlannerPolygon.compress_path (fst built)
     = get (cfg_compress_path cfg) false
  /\ PRMPlannerPolygon.max_connection_dist (fst built)
     = get (cfg_max_connection_dist cfg) 2%float
  /\ PRMPlannerPolygon.max_nodes (fst built) = get (cfg_max_nodes cfg) 50
  /\ PRMPlannerPolygon.world (fst built) = world
  /\ length (SearchGraph.nodes (PRMPlannerPolygon.graph (fst built)))
     <= get (cfg_max_nodes cfg) 50
  /\ wf_state (fst built) (snd built).
Proof.
  intros Hkeys Hworld built.
  split; [|split; [|split; [|split; [|split; [|split]]]]].
  - unfold PRMPlanner.init, PRMPlanner.construct_polygon, cfg_grid, bind, ret.
    rewrite Hkeys, Hworld. cbn [lookup get truthy]. fold built.
    now destruct built.
  - unfold built, PRMPlannerPolygon.init. now rewrite reset_run.
  - unfold built, PRMPlannerPolygon.init. now rewrite reset_run.
  - unfold built, PRMPlannerPolygon.init. now rewrite reset_run.
  - unfold built, PRMPlannerPolygon.init. now rewrite reset_run.
  - unfold built, PRMPlannerPolygon.init.
    rewrite reset_nodes, fresh_nodes_length. apply sampled_prefix_length.
  - apply init_wf_state.
Qed.

(** X3.  [PRMPlanner.plan] hands the query to its [PRMPlannerPolygon] and
    returns that planner's path.  It keeps the path as [latest_path] and
    publishes exactly one graph, the roadmap as the query left it.  Its own
    [planning_time] spans the whole call: it is assigned whether or not a
    path was found, from one clock reading before the inner call and one
    after it. *)
Theorem wrapper_plan_records_the_query
    (self : PRMPlanner.t) (start goal : PoseOrNode) (r : Runtime) :
  let inner :=
    PRMPlannerPolygon.plan (PRMPlanner.impl self) start goal (tick r) in
  let out := PRMPlanner.plan self start goal r in
  let found := waypoints_of (PRMPlanner.impl self) start goal (tick r) in
  fst (fst out) = fst (fst inner)
  /\ PRMPlanner.impl (snd (fst out)) = snd (fst inner)
  /\ PRMPlanner.latest_path (snd (fst out)) = Some (fst (fst inner))
  /\ PRMPlanner.graphs (snd (fst out))
     = Some [PRMPlannerPolygon.graph (snd (fst inner))]
  /\ PRMPlanner.planning_time (snd (fst out))
     = Some (time_time (S (clock_reads r) + clock_readings found)
             - time_time (clock_reads r))%float
  /\ clock_reads (snd out) = S (S (clock_reads r)) + clock_readings found.
Proof.
  intros inner out found.
  assert (Hclock : clock_reads (snd inner)
                   = S (clock_reads r) + clock_readings found).
  { unfold inner, found. rewrite plan_run.
    destruct (clock_reads_with_nodes (tick r) start goal) as [Hc _].
    destruct (waypoints_of (PRMPlanner.impl self) start goal (tick r));
      cbn [snd tick clock_reads clock_readings]; rewrite Hc; simpl; lia. }
  unfold out, PRMPlanner.plan, bind, now, ret.
  change (mkRuntime (next_id r) (rng_calls r) (S (clock_reads r))
                    (warnings r)) with (tick r).
  fold inner. destruct inner as [[path impl'] r1]. cbn [fst snd] in *.
  cbn [PRMPlanner.impl PRMPlanner.latest_path PRMPlanner.graphs
       PRMPlanner.planning_time clock_reads].
  rewrite Hclock. repeat split; reflexivity.
Qed.

End Factory.

(* ================================================================== *)
(** ** Building the roadmap again *)

Section Rebuild.

Context `{E : Externals}.
Import PRMPlannerPolygon.

Lemma fresh_nodes_parentless (id0 : nat) (ps : list Pose.t) (n : Node.t) :
  In n (fresh_nodes id0 ps) -> Node.parent n = None.
Proof.
  revert id0. induction ps as [|p ps IH]; intros id0; simpl; [contradiction|].
  intros [<- | Hn]; [reflexivity | eauto].
Qed.

(** X4.  [reset] looks at the four parameters of the planner and at
    nothing else of its state: the roadmap, the path and the times of
    before do not reach the result.  Whatever earlier queries left in the
    roadmap is dropped. *)
Theorem reset_forgets_previous_state (self self' : t) (r : Runtime) :
  max_connection_dist self' = max_connection_dist self ->
  max_nodes self' = max_nodes self ->
  world self' = world self ->
  compress_path self' = compress_path self ->
  reset self' r = reset self r.
Proof.
  intros Hd Hn Hw Hc. rewrite !reset_run. cbv zeta.
  now rewrite Hd, Hn, Hw, Hc.
Qed.

(** X5.  The roadmap [reset] builds is made of new objects only: its nodes
    carry the identities handed out during the call, one after the other in
    the order of the node list, and none has a parent.  As many objects are
    made as there are nodes.  The roadmap meets the graph invariant: no
    node twice, every edge between two member nodes, no self-loop. *)
Theorem reset_roadmap_is_made_anew (self : t) (r : Runtime) :
  let built := fst (reset self r) in
  let r' := snd (reset self r) in
  let count := length (SearchGraph.nodes (graph built)) in
  Node.ids (SearchGraph.nodes (graph built)) = seq (next_id r) count
  /\ next_id r' = next_id r + count
  /\ (forall n, In n (SearchGraph.nodes (graph built)) ->
                Node.parent n = None)
  /\ SearchGraph.wf (graph built).
Proof.
  cbv zeta. rewrite reset_nodes, fresh_nodes_ids, fresh_nodes_length.
  split; [reflexivity|]. split; [|split].
  - rewrite reset_run. reflexivity.
  - apply fresh_nodes_parentless.
  - apply reset_wf.
Qed.

End Rebuild.

(* ================================================================== *)
(** ** One pass of the connector *)

Section Connector.

Import SearchGraph.
Local Abbreviation connect_loop := PRMPlannerPolygon.connect_loop.
Local Abbreviation connect_graph := PRMPlannerPolygon.connect_graph.
Local Abbreviation connect_neighbors := PRMPlannerPolygon.connect_neighbors.

Lemma joins_other_nodes (n a b o : Node.t) :
  Node.id a <> Node.id n -> Node.id b <> Node.id n ->
  joins a b (n, o) = false.
Proof.
  intros Ha Hb. unfold joins. cbn [fst snd].
  assert (Hna : Node.eqb n a = false) by (apply eqb_false_iff; congruence).
  assert (Hnb : Node.eqb n b = false) by (apply eqb_false_iff; congruence).
  now rewrite Hna, Hnb.
Qed.

(** X7.  [connect_neighbors(node)] adds no node and drops no edge.  It
    decides the edges of [node], from [node]'s side: afterwards [node] is
    joined to another member exactly when it was joined to it before or
    the oracle connects the pose of [node] to the pose of that member
    within the connection distance.  Edges between two other nodes are
    what they were. *)
Theorem connect_neighbors_links_node_only
    (self : PRMPlannerPolygon.t) (node : Node.t) :
  NoDup (Node.ids (nodes (PRMPlannerPolygon.graph self))) ->
  let after := PRMPlannerPolygon.graph (connect_neighbors self node) in
  nodes after = nodes (PRMPlannerPolygon.graph self)
  /\ (forall a b, has_edge (PRMPlannerPolygon.graph self) a b = true ->
                  has_edge after a b = true)
  /\ (forall o, In o (nodes (PRMPlannerPolygon.graph self)) ->
        Node.id o <> Node.id node ->
        (has_edge after node o = true
         <-> has_edge (PRMPlannerPolygon.graph self) node o = true
             \/ is_connectable (PRMPlannerPolygon.world self)
                  (Node.pose node) (Node.pose o)
                  (PRMPlannerPolygon.max_connection_dist self) = true))
  /\ (forall a b, Node.id a <> Node.id node -> Node.id b <> Node.id node ->
        has_edge after a b = has_edge (PRMPlannerPolygon.graph self) a b).
Proof.
  intros Hnd after. unfold after, connect_neighbors.
  cbn [PRMPlannerPolygon.graph PRMPlannerPolygon.set_graph].
  set (g := PRMPlannerPolygon.graph self).
  set (w := PRMPlannerPolygon.world self).
  set (d := PRMPlannerPolygon.max_connection_dist self).
  split; [apply nodes_connect_graph|]. split; [|split].
  - intros a b Hab. unfold PRMPlannerPolygon.connect_graph.
    now rewrite has_edge_connect_loop, Hab.
  - intros o Ho Hon. unfold PRMPlannerPolygon.connect_graph.
    rewrite has_edge_connect_loop, orb_true_iff. split.
    + intros [Hbefore | Hnew]; [now left | right].
      apply existsb_exists in Hnew. destruct Hnew as [o' [Ho' Hl]].
      apply andb_true_iff in Hl. destruct Hl as [Hl Hj].
      unfold joins in Hj. cbn [fst snd] in Hj.
      rewrite orb_true_iff, !andb_true_iff, !eqb_iff in Hj.
      destruct Hj as [[_ Hid] | [Hid _]]; [|congruence].
      assert (o' = o) by now apply (same_id_same_node (nodes g)).
      subst o'. unfold links in Hl. apply andb_true_iff in Hl. apply Hl.
    + intros [Hbefore | Hconn]; [now left | right].
      apply existsb_exists. exists o. split; [exact Ho|].
      unfold links, joins. cbn [fst snd]. rewrite Hconn, !eqb_refl.
      assert (Hno : Node.eqb node o = false)
        by (apply eqb_false_iff; congruence).
      now rewrite Hno.
  - intros a b Ha Hb. unfold PRMPlannerPolygon.connect_graph.
    rewrite has_edge_connect_loop.
    rewrite (existsb_pointwise _ (fun _ => false)).
    + assert (Hnone : forall l : list Node.t,
                existsb (fun _ => false) l = false)
        by (induction l; simpl; auto).
      now rewrite Hnone, orb_false_r.
    + intros o. rewrite joins_other_nodes by assumption. apply andb_false_r.
Qed.

End Connector.

(* ================================================================== *)
(** ** What a query does besides planning *)

Section QueryEffects.

Context `{E : Externals}.
Import PRMPlannerPolygon.

(** X9.  [plan] never samples and never warns: the sampler's call count
    and the diagnostics are what they were.  It leaves the four parameters
    and the sampling time of the planner alone. *)
Theorem plan_never_samples_or_warns
    (self : t) (start goal : PoseOrNode) (r : Runtime) :
  let self' := snd (fst (plan self start goal r)) in
  let r' := snd (plan self start goal r) in
  rng_calls r' = rng_calls r
  /\ warnings r' = warnings r
  /\ sampling_time self' = sampling_time self
  /\ max_connection_dist self' = max_connection_dist self
  /\ max_nodes self' = max_nodes self
  /\ world self' = world self
  /\ compress_path self' = compress_path self.
Proof.
  cbv zeta. rewrite plan_run. cbv zeta.
  destruct (clock_reads_with_nodes r start goal) as [_ [Hrng [Hwarn _]]].
  destruct (waypoints_of self start goal r);
    cbn [fst snd tick rng_calls warnings sampling_time max_connection_dist
         max_nodes world compress_path];
    rewrite Hrng, Hwarn; repeat split; reflexivity.
Qed.

(** X10.  The books of a query.  The planner's [latest_path] is the path
    [plan] returns, found or not.  One node object is made for each
    argument given as a raw pose, none for an argument given as a node.
    The clock is read once when no path is found and twice otherwise, and
    the planning time is 0 in the first case and the difference of the two
    readings in the second. *)
Theorem plan_accounts_for_objects_and_clock
    (self : t) (start goal : PoseOrNode) (r : Runtime) :
  let path := fst (fst (plan self start goal r)) in
  let self' := snd (fst (plan self start goal r)) in
  let r' := snd (plan self start goal r) in
  let found := waypoints_of self start goal r in
  latest_path self' = path
  /\ next_id r' = next_id r + objects_made start + objects_made goal
  /\ clock_reads r' = clock_reads r + clock_readings found
  /\ planning_time self'
     = match found with
       | [] => 0%float
       | _ :: _ =>
           (time_time (S (clock_reads r)) - time_time (clock_reads r))%float
       end.
Proof.
  cbv zeta. rewrite plan_run. cbv zeta.
  destruct (clock_reads_with_nodes r start goal) as [Hclock [_ [_ Hnext]]].
  destruct (waypoints_of self start goal r);
    cbn [fst snd tick next_id clock_reads latest_path planning_time
         clock_readings];
    rewrite Hclock, Hnext; repeat split; try reflexivity; lia.
Qed.

End QueryEffects.

(* ================================================================== *)
(** ** The path of a successful query *)

Section PathEnds.

Context `{E : Externals}.
Import PRMPlannerPolygon.

Lemma walk_last (g : SearchGraph.t) (a c : Node.t) (p : list Node.t)
    (d : Node.t) :
  walk g a c p -> last p d = c.
Proof.
  induction 1 as [a Ha | a b c p Ha Hab Hw IH]; [reflexivity|].
  destruct (walk_head Hw) as [tl ->]. exact IH.
Qed.

Lemma subseq_length {A : Type} (l' l : list A) :
  subseq l' l -> length l' <= length l.
Proof. induction 1; simpl; lia. Qed.

Lemma fill_yaws_length (p : Path.t) :
  length (Path.poses (fill_yaws p)) = length (Path.poses p).
Proof.
  pose proof (fill_yaws_positions p) as Hpos.
  apply (f_equal (@length _)) in Hpos. now rewrite !length_map in Hpos.
Qed.

(** The search result of a query on raw poses: it leads from the start
    node to the goal node, with nodes in between. *)
Lemma waypoints_between_poses (self : t) (start goal : Pose.t) (r : Runtime) :
  SearchContract E -> wf_state self r ->
  waypoints_of self (IsPose start) (IsPose goal) r <> [] ->
  exists between : list Node.t,
    waypoints_of self (IsPose start) (IsPose goal) r
    = Node.mk (next_id r) start None
        :: between ++ [Node.mk (S (next_id r)) goal None].
Proof.
  intros Hsearch Hwf Hok. rewrite waypoints_of_poses in *.
  set (s := Node.mk (next_id r) start None) in *.
  set (g := Node.mk (S (next_id r)) goal None) in *.
  pose proof (transient_start_fresh (IsPose start) Hwf I) as Hs.
  pose proof (transient_goal_fresh (IsPose start) (IsPose goal) Hwf I) as Hg.
  change (start_node r (IsPose start)) with s in Hs.
  change (goal_node r (IsPose start) (IsPose goal)) with g in Hg.
  assert (Hsg : Node.id s <> Node.id g) by (simpl; lia).
  pose proof (@wf_query_graph self s g (proj1 Hwf) Hs Hg Hsg) as HG.
  pose proof (@nodes_query_graph_fresh self s g Hs Hg Hsg) as Hnodes.
  destruct (@search_sound E Hsearch (query_graph self s g) s g HG)
    as [Hwalk _]; try assumption.
  { rewrite Hnodes. apply in_or_app. right. now left. }
  { rewrite Hnodes. apply in_or_app. right. right. now left. }
  pose proof (walk_last s Hwalk) as Hlast.
  destruct (walk_head Hwalk) as [tl Htl]. rewrite Htl in *.
  destruct tl as [|n tl]; [simpl in Hlast; congruence|].
  exists (removelast (n :: tl)). f_equal.
  rewrite (app_removelast_last s (l := n :: tl)) at 1 by discriminate.
  f_equal. f_equal. exact Hlast.
Qed.

(** The path [plan] makes of a search result that leads from a node at
    [start] to a node at [goal]. *)
Lemma path_for_between (self : t) (s g : Node.t) (between : list Node.t) :
  CompressorContract E ->
  let path := path_for self (s :: between ++ [g]) in
  hd_error (Path.poses path) = Some (Node.pose s)
  /\ (forall d, last (Path.poses path) d = Node.pose g)
  /\ 2 <= Path.num_poses path <= length (s :: between ++ [g]).
Proof.
  intros Hcomp. cbv zeta. unfold path_for, Path.num_poses.
  rewrite fill_yaws_first, fill_yaws_length.
  assert (Hposes :
    map Node.pose (s :: between ++ [g])
    = Node.pose s :: map Node.pose between ++ [Node.pose g]).
  { simpl. now rewrite map_app. }
  rewrite Hposes.
  destruct (compress_path self).
  - destruct (Hcomp (world self) (Node.pose s) (Node.pose g)
                (map Node.pose between)) as [kept [Hkept Hsub]].
    rewrite Hkept. cbn [Path.poses hd_error].
    split; [reflexivity|]. split.
    + intros d. rewrite fill_yaws_last. cbn [Path.poses].
      change (Node.pose s :: kept ++ [Node.pose g])
        with ((Node.pose s :: kept) ++ [Node.pose g]).
      apply last_last.
    + apply subseq_length in Hsub. rewrite length_map in Hsub.
      cbn [length]. rewrite !length_app. simpl. lia.
  - cbn [Path.poses hd_error]. split; [reflexivity|]. split.
    + intros d. rewrite fill_yaws_last. cbn [Path.poses].
      change (Node.pose s :: map Node.pose between ++ [Node.pose g])
        with ((Node.pose s :: map Node.pose between) ++ [Node.pose g]).
      apply last_last.
    + cbn [length]. rewrite !length_app, length_map. simpl. lia.
Qed.

(** X11.  The path of a successful query on raw poses begins with the
    start pose and ends with the goal pose, with or without compression.
    It has at least these two poses, and never more poses than the search
    returned nodes. *)
Theorem plan_path_runs_from_start_to_goal
    (self : t) (start goal : Pose.t) (r : Runtime) :
  SearchContract E -> CompressorContract E -> wf_state self r ->
  waypoints_of self (IsPose start) (IsPose goal) r <> [] ->
  let path := fst (fst (plan self (IsPose start) (IsPose goal) r)) in
  hd_error (Path.poses path) = Some start
  /\ (forall d, last (Path.poses path) d = goal)
  /\ 2 <= Path.num_poses path
     <= length (waypoints_of self (IsPose start) (IsPose goal) r).
Proof.
  intros Hsearch Hcomp Hwf Hok. cbv zeta. rewrite plan_path.
  destruct (waypoints_between_poses start goal Hsearch Hwf Hok)
    as [between Hwp].
  rewrite Hwp.
  exact (@path_for_between self (Node.mk (next_id r) start None)
           (Node.mk (S (next_id r)) goal None) between Hcomp).
Qed.

End PathEnds.

(* ================================================================== *)
(** ** The roadmap across a query *)

Section RoadmapAcrossQuery.

Context `{E : Externals}.
Import PRMPlannerPolygon.

Lemma wf_query_graph_one_object (self : t) (a c : Node.t) :
  SearchGraph.wf (graph self) ->
  ~ In (Node.id a) (Node.ids (SearchGraph.nodes (graph self))) ->
  ~ In (Node.id c) (Node.ids (SearchGraph.nodes (graph self))) ->
  (Node.id a = Node.id c -> a = c) ->
  SearchGraph.wf (query_graph self a c).
Proof.
  intros Hwf Ha Hc Hone.
  destruct (Nat.eq_dec (Node.id a) (Node.id c)) as [Hsame | Hapart].
  - rewrite <- (Hone Hsame).
    assert (Hin : In a (SearchGraph.nodes (query_graph self a a))).
    { rewrite nodes_query_graph.
      apply add_node_keeps_nodes, add_node_new_in.
      now apply mem_node_false_iff. }
    now apply wf_query_graph_members.
  - now apply wf_query_graph.
Qed.

Lemma query_nodes_one_object (self : t) (r : Runtime)
    (start goal : PoseOrNode) :
  transient self r start -> transient self r goal ->
  one_object_per_identity start goal ->
  Node.id (start_node r start) = Node.id (goal_node r start goal) ->
  start_node r start = goal_node r start goal.
Proof.
  unfold start_node, goal_node.
  destruct start as [p | a], goal as [q | c]; simpl;
    intros Hs Hg Hone Hid; try lia; auto.
Qed.

(** X12.  A query whose start and goal are raw poses or node objects
    outside the roadmap takes nothing from the roadmap, whether it finds a
    path or not: every member node and every edge of before is there
    afterwards.  The only nodes it can add are its own start and goal
    nodes.  The planner is left in a state from which the next query can
    run: the roadmap meets the graph invariant and every member is an
    object that exists. *)
Theorem plan_keeps_roadmap_and_invariant
    (self : t) (start goal : PoseOrNode) (r : Runtime) :
  wf_state self r ->
  transient self r start -> transient self r goal ->
  one_object_per_identity start goal ->
  let self' := snd (fst (plan self start goal r)) in
  let r' := snd (plan self start goal r) in
  (forall n, In n (SearchGraph.nodes (graph self)) ->
             In n (SearchGraph.nodes (graph self')))
  /\ (forall a b, SearchGraph.has_edge (graph self) a b = true ->
                  SearchGraph.has_edge (graph self') a b = true)
  /\ (forall n, In n (SearchGraph.nodes (graph self')) ->
        In n (SearchGraph.nodes (graph self))
        \/ n = start_node r start \/ n = goal_node r start goal)
  /\ wf_state self' r'.
Proof.
  intros Hwf Hs Hg Hone. cbv zeta.
  pose proof (transient_start_fresh _ Hwf Hs) as Ha_new.
  pose proof (transient_goal_fresh start _ Hwf Hg) as Hc_new.
  unfold wf_state. rewrite plan_graph_after, plan_next_id.
  destruct (waypoints_of self start goal r) as [|m l].
  - split; [|split; [|split; [|split]]].
    + intros n Hn. now apply query_graph_keeps_nodes.
    + intros a b Hab. now rewrite has_edge_query_graph, Hab.
    + intros n Hn. now apply query_graph_node_cases.
    + apply wf_query_graph_one_object; try assumption; [apply Hwf|].
      now apply (query_nodes_one_object self r).
    + intros n Hn. now apply (query_nodes_exist start goal Hwf Hs Hg).
  - rewrite remove_query_nodes by (try apply Hwf; assumption).
    split; [auto|]. split; [auto|]. split; [auto|]. split; [apply Hwf|].
    intros n Hn. apply Hwf in Hn.
    destruct (clock_reads_with_nodes r start goal) as [_ [_ [_ Hnext]]].
    lia.
Qed.

End RoadmapAcrossQuery.

(* ================================================================== *)
(** ** [Room]: collision checks and wall polygons *)

Section RoomFacts.

Context `{G : Room.Geometry}.
Import Room.

(** X13.  A room comes out of [__init__] without a collision polygon:
    the constructor computes the wall polygons and never calls
    [update_collision_polygon].  Until that method has run,
    [is_collision_free] ends in an [AttributeError] for every pose; once it
    has run with a radius, the answer is whether the room polygon deflated
    by that radius meets the point of the pose.  A new room has no
    hallways, and its walls are the polygon grown by the wall width
    without the polygon itself. *)
Theorem new_room_has_no_collision_polygon
    (coords : list (float * float)) (label : option string)
    (paint : list float) (width : float) (room : t) :
  init coords label paint width = Ok room ->
  collision_polygon room = None
  /\ (forall p, is_collision_free room (APose p)
                = Fails (AttributeError "collision_polygon"))
  /\ (forall radius p,
        is_collision_free (update_collision_polygon room radius) (APose p)
        = Ok (intersects (inflate_polygon (polygon room) (- radius)%float)
                         (Pose.x p, Pose.y p)))
  /\ hallways room = []
  /\ viz_polygon room
     = Some (difference (inflate_polygon (polygon room) width)
                        (polygon room))
  /\ new_Polygon coords = Some (polygon room)
  /\ hd_error (centroid_coords (polygon room)) = Some (centroid room).
Proof.
  unfold init. intros Hinit.
  destruct (new_Polygon coords) as [shape|]; [|discriminate].
  destruct (centroid_coords shape) as [|c rest] eqn:Hc; [discriminate|].
  inversion Hinit; subst room; clear Hinit.
  cbn. rewrite Hc. repeat split; reflexivity.
Qed.

Lemma point_of_short (pose : PoseArg) :
  too_short pose = true -> point_of pose = Fails IndexError.
Proof.
  destruct pose as [p | [|a [|b l]]]; simpl; intros Hshort;
    try discriminate; reflexivity.
Qed.

Lemma point_of_long (pose : PoseArg) :
  too_short pose = false -> exists point, point_of pose = Ok point.
Proof.
  destruct pose as [p | [|a [|b l]]]; simpl; intros Hlong;
    try discriminate; eauto.
Qed.

(** X14.  The outcomes of [is_collision_free], all of them.  It ends in
    an [IndexError] exactly for a sequence with fewer than two entries,
    with or without a collision polygon: the point is built before the
    polygon is read.  For every other argument it ends in an
    [AttributeError] exactly when the room has no collision polygon yet,
    and returns otherwise.  Only the position counts: a pose and a
    sequence that starts with the pose's [x] and [y] get the same
    outcome, whatever the heading and whatever follows in the sequence. *)
Theorem is_collision_free_outcomes (room : t) (pose : PoseArg) :
  (is_collision_free room pose = Fails IndexError
   <-> too_short pose = true)
  /\ (is_collision_free room pose
      = Fails (AttributeError "collision_polygon")
      <-> too_short pose = false /\ collision_polygon room = None)
  /\ ((exists free, is_collision_free room pose = Ok free)
      <-> too_short pose = false /\ collision_polygon room <> None)
  /\ is_collision_free room pose <> Fails GeometryError
  /\ (forall p rest heading,
        pose = APose p ->
        is_collision_free room (ASeq (Pose.x p :: Pose.y p :: rest))
        = is_collision_free room pose
        /\ is_collision_free room (APose (Pose.set_yaw p heading))
           = is_collision_free room pose).
Proof.
  assert (Houtcomes :
    (is_collision_free room pose = Fails IndexError
     <-> too_short pose = true)
    /\ (is_collision_free room pose
        = Fails (AttributeError "collision_polygon")
        <-> too_short pose = false /\ collision_polygon room = None)
    /\ ((exists free, is_collision_free room pose = Ok free)
        <-> too_short pose = false /\ collision_polygon room <> None)
    /\ is_collision_free room pose <> Fails GeometryError).
  { unfold is_collision_free.
    destruct (too_short pose) eqn:Hshort.
    - rewrite (point_of_short pose Hshort).
      split; [split; reflexivity|].
      split; [split; [discriminate | intros [Hno _]; discriminate]|].
      split; [|discriminate].
      split; [intros [free Hfree] | intros [Hno _]]; discriminate.
    - destruct (point_of_long pose Hshort) as [point Hpoint].
      rewrite Hpoint.
      destruct (collision_polygon room) as [shape|].
      + split; [split; discriminate|].
        split; [split; [discriminate | intros [_ Hno]; discriminate]|].
        split; [|discriminate].
        split; [intros _; split; [reflexivity | discriminate]
               | intros _; eauto].
      + split; [split; discriminate|].
        split; [split; auto|].
        split; [|discriminate].
        split; [intros [free Hfree]; discriminate
               | intros [_ Hno]; congruence]. }
  destruct Houtcomes as [Hindex [Hattribute [Hreturns Hgeometry]]].
  split; [exact Hindex|]. split; [exact Hattribute|].
  split; [exact Hreturns|]. split; [exact Hgeometry|].
  intros p rest heading ->. split; reflexivity.
Qed.

(** X15.  The two update methods do not get in each other's way.
    [update_visualization_polygon] computes the walls from the polygon,
    the wall width and the hallways each time: a second call changes
    nothing, and the collision polygon and the answers of
    [is_collision_free] stay as they are.  [update_collision_polygon]
    overwrites what an earlier call stored and leaves the walls alone: the
    two methods can be called in either order.  A hallway added at the end
    of the list is cut out of the walls the room had without it. *)
Theorem room_updates_compose (room : t) :
  update_visualization_polygon (update_visualization_polygon room)
  = update_visualization_polygon room
  /\ (forall pose,
        is_collision_free (update_visualization_polygon room) pose
        = is_collision_free room pose)
  /\ (forall r1 r2,
        update_collision_polygon (update_collision_polygon room r1) r2
        = update_collision_polygon room r2)
  /\ (forall radius,
        update_visualization_polygon (update_collision_polygon room radius)
        = update_collision_polygon (update_visualization_polygon room)
                                   radius)
  /\ (forall h,
        viz_polygon
          (update_visualization_polygon
             (mk (name room) (wall_width room) (color room)
                 (hallways room ++ [h]) (polygon room) (centroid room)
                 (buffered_polygon room) (viz_polygon room)
                 (viz_patch room) (collision_polygon room)))
        = option_map (fun walls => difference walls (hallway_polygon h))
                     (viz_polygon (update_visualization_polygon room))).
Proof.
  split; [reflexivity|]. split; [reflexivity|]. split; [reflexivity|].
  split; [reflexivity|].
  intros h. cbn. unfold cut_hallways. now rewrite fold_left_app.
Qed.

End RoomFacts.

(* ================================================================== *)
(** ** One query after the other *)

Section ManyQueries.

Context `{E : Externals}.
Import PRMPlannerPolygon.

Lemma plan_each_step (self : t) (q : Pose.t * Pose.t)
    (rest : list (Pose.t * Pose.t)) (r : Runtime) :
  plan_each self (q :: rest) r
  = let first := plan self (IsPose (fst q)) (IsPose (snd q)) r in
    let others := plan_each (snd (fst first)) rest (snd first) in
    (fst (fst first) :: fst (fst others), snd (fst others), snd others).
Proof.
  cbn [plan_each]. unfold bind, ret.
  destruct (plan self (IsPose (fst q)) (IsPose (snd q)) r)
    as [[path self1] r1].
  cbn [fst snd]. now destruct (plan_each self1 rest r1) as [[paths self2] r2].
Qed.

(** What one query on raw poses does to the node list, by the path it
    returns. *)
Lemma plan_poses_node_count (self : t) (start goal : Pose.t) (r : Runtime) :
  SearchContract E -> CompressorContract E -> wf_state self r ->
  let path := fst (fst (plan self (IsPose start) (IsPose goal) r)) in
  let self' := snd (fst (plan self (IsPose start) (IsPose goal) r)) in
  length (SearchGraph.nodes (graph self'))
  = length (SearchGraph.nodes (graph self))
    + 2 * (if is_empty path then 1 else 0)
  /\ (forall n, In n (SearchGraph.nodes (graph self)) ->
                In n (SearchGraph.nodes (graph self'))).
Proof.
  intros Hsearch Hcomp Hwf. cbv zeta.
  pose proof (transient_start_fresh (IsPose start) Hwf I) as Hs.
  pose proof (transient_goal_fresh (IsPose start) (IsPose goal) Hwf I) as Hg.
  rewrite plan_path, plan_graph_after.
  destruct (waypoints_of self (IsPose start) (IsPose goal) r) as [|m l] eqn:Hwp.
  - cbn [path_for is_empty Path.poses Path.empty].
    rewrite (@nodes_query_graph_fresh self _ _ Hs Hg) by (simpl; lia).
    rewrite length_app. split; [simpl; lia|].
    intros n Hn. apply in_or_app. now left.
  - rewrite remove_query_nodes by (try apply Hwf; assumption).
    split; [|auto].
    assert (Hok : waypoints_of self (IsPose start) (IsPose goal) r <> [])
      by (rewrite Hwp; discriminate).
    destruct (waypoints_between_poses start goal Hsearch Hwf Hok)
      as [between Hbetween].
    rewrite Hwp in Hbetween. rewrite Hbetween.
    destruct (@path_for_between E self (Node.mk (next_id r) start None)
                (Node.mk (S (next_id r)) goal None) between Hcomp)
      as [Hfirst _].
    unfold is_empty.
    destruct (Path.poses (path_for self _)); [discriminate | lia].
Qed.

(** X16.  Failed queries pile up in the roadmap.  After a series of
    queries on raw poses the roadmap has its nodes of before and two more
    for every query of the series that returned an empty path; a query
    that found a path leaves none.  The planner stays in a state from
    which the next query can run. *)
Theorem failed_queries_pile_up
    (self : t) (r : Runtime) (queries : list (Pose.t * Pose.t)) :
  SearchContract E -> CompressorContract E -> wf_state self r ->
  let out := plan_each self queries r in
  let paths := fst (fst out) in
  let self' := snd (fst out) in
  length paths = length queries
  /\ length (SearchGraph.nodes (graph self'))
     = length (SearchGraph.nodes (graph self)) + 2 * empty_paths paths
  /\ (forall n, In n (SearchGraph.nodes (graph self)) ->
                In n (SearchGraph.nodes (graph self')))
  /\ wf_state self' (snd out).
Proof.
  intros Hsearch Hcomp. revert self r.
  induction queries as [|q rest IH]; intros self r Hwf; cbv zeta.
  - cbn. split; [reflexivity|]. split; [lia|]. split; [auto | exact Hwf].
  - rewrite plan_each_step. cbv zeta. cbn [fst snd].
    destruct (plan_poses_node_count (fst q) (snd q) Hsearch Hcomp Hwf)
      as [Hcount Hkept].
    pose proof (plan_poses_keeps_wf_state (fst q) (snd q) Hwf) as Hwf1.
    destruct (IH _ _ Hwf1) as [Hlen [Hnodes [Hmembers Hwf2]]].
    split; [cbn [length]; now rewrite Hlen|].
    split; [|split; [auto | exact Hwf2]].
    rewrite Hnodes, Hcount. unfold empty_paths. cbn [filter].
    destruct (is_empty _); cbn [length]; lia.
Qed.

End ManyQueries.

(* ================================================================== *)
(** ** What a query asks the oracle *)

Section OracleUse.

Context `{E : Externals}.
Import PRMPlannerPolygon.

Lemma connect_loop_oracle (w w' : World) (d : float) (n : Node.t)
    (others : list Node.t) (g : SearchGraph.t) :
  (forall q, is_connectable w' (Node.pose n) q d
             = is_connectable w (Node.pose n) q d) ->
  connect_loop w' d n others g = connect_loop w d n others g.
Proof.
  intros Hsame. revert g.
  induction others as [|o rest IH]; intros g; simpl; [reflexivity|].
  rewrite Hsame, !IH. reflexivity.
Qed.

Lemma query_graph_oracle (self self' : t) (s g : Node.t) :
  graph self' = graph self ->
  max_connection_dist self' = max_connection_dist self ->
  (forall q, is_connectable (world self') (Node.pose s) q
               (max_connection_dist self)
             = is_connectable (world self) (Node.pose s) q
                 (max_connection_dist self)) ->
  (forall q, is_connectable (world self') (Node.pose g) q
               (max_connection_dist self)
             = is_connectable (world self) (Node.pose g) q
                 (max_connection_dist self)) ->
  query_graph self' s g = query_graph self s g.
Proof.
  intros Hgraph Hdist Hs Hg. unfold query_graph, connect_graph.
  rewrite Hgraph, Hdist.
  rewrite (@connect_loop_oracle (world self) (world self')
             (max_connection_dist self) s _ _ Hs), !nodes_connect_loop.
  now rewrite (@connect_loop_oracle (world self) (world self')
                 (max_connection_dist self) g _ _ Hg).
Qed.

(** X17.  A query asks the oracle about connections that leave the start
    pose or the goal pose, and about no other: what the oracle would
    answer for any other first pose, a roadmap node's for instance, has no
    influence on the search result, on the roadmap the query leaves, or,
    without compression, on the path. *)
Theorem plan_asks_oracle_from_query_poses_only
    (self self' : t) (start goal : PoseOrNode) (r : Runtime) :
  graph self' = graph self ->
  max_connection_dist self' = max_connection_dist self ->
  (forall q, is_connectable (world self') (Node.pose (start_node r start)) q
               (max_connection_dist self)
             = is_connectable (world self) (Node.pose (start_node r start)) q
                 (max_connection_dist self)) ->
  (forall q, is_connectable (world self')
               (Node.pose (goal_node r start goal)) q
               (max_connection_dist self)
             = is_connectable (world self)
                 (Node.pose (goal_node r start goal)) q
                 (max_connection_dist self)) ->
  waypoints_of self' start goal r = waypoints_of self start goal r
  /\ graph (snd (fst (plan self' start goal r)))
     = graph (snd (fst (plan self start goal r)))
  /\ (compress_path self = false -> compress_path self' = false ->
      fst (fst (plan self' start goal r))
      = fst (fst (plan self start goal r))).
Proof.
  intros Hgraph Hdist Hs Hg.
  pose proof (query_graph_oracle self self' _ _ Hgraph Hdist Hs Hg) as HG.
  assert (Hwp : waypoints_of self' start goal r
                = waypoints_of self start goal r).
  { unfold waypoints_of. now rewrite HG. }
  split; [exact Hwp|]. split.
  - now rewrite !plan_graph_after, Hwp, HG.
  - intros Hc Hc'. rewrite !plan_path, Hwp. unfold path_for.
    now rewrite Hc, Hc'.
Qed.

End OracleUse.

(* ================================================================== *)
(** ** The properties on the example planners and rooms *)

Section MoreInstances.

#[local] Existing Instance Reference.externals.
#[local] Existing Instance Reference.base.
Import Examples MoreExamples.


Lemma factory_builds_with_signature_defaults_witness :
  exists p r',
    PRMPlanner.init plain_config runtime0
    = (Returns (PRMPlanner.Planner p), r')
    /\ PRMPlannerPolygon.max_connection_dist (PRMPlanner.impl p) = 2%float
    /\ PRMPlannerPolygon.compress_path (PRMPlanner.impl p) = false
    /\ length (SearchGraph.nodes
                 (PRMPlannerPolygon.graph (PRMPlanner.impl p))) <= 5.
Proof.
  destruct (@factory_builds_with_signature_defaults Reference.externals
              Reference.base plain_config (open_world [mid]) runtime0
              eq_refl eq_refl)
    as [Hinit [Hcompress [Hdist [_ [_ [Hcount _]]]]]].
  eexists. eexists. split; [exact Hinit|].
  split; [exact Hdist|]. split; [exact Hcompress | exact Hcount].
Defined.

Lemma reset_forgets_previous_state_witness :
  length (SearchGraph.nodes (PRMPlannerPolygon.graph stuck)) = 3
  /\ PRMPlannerPolygon.reset stuck stuck_runtime
     = PRMPlannerPolygon.reset corridor stuck_runtime.
Proof.
  split; [reflexivity|].
  destruct (plan_keeps_parameters corridor (IsPose low) (IsPose far)
              corridor_runtime) as [Hworld [Hdist [Hcompress Hmax]]].
  apply (@reset_forgets_previous_state Reference.externals corridor stuck
           stuck_runtime Hdist Hmax Hworld Hcompress).
Defined.

Lemma connect_neighbors_links_node_only_witness :
  SearchGraph.has_edge
    (PRMPlannerPolygon.graph
       (PRMPlannerPolygon.connect_neighbors ladder low_node))
    low_node mid_node = true
  <-> SearchGraph.has_edge (PRMPlannerPolygon.graph ladder)
        low_node mid_node = true
      \/ is_connectable (PRMPlannerPolygon.world ladder)
           (Node.pose low_node) (Node.pose mid_node)
           (PRMPlannerPolygon.max_connection_dist ladder) = true.
Proof.
  assert (Hnodup : NoDup (Node.ids (SearchGraph.nodes
                                      (PRMPlannerPolygon.graph ladder)))).
  { apply SearchGraph.wf_nodup.
    exact (proj1 (init_wf_state false 1.5%float 3
                    (open_world [low; mid; high]) runtime0)). }
  destruct (@connect_neighbors_links_node_only ladder low_node Hnodup)
    as [_ [_ [Hlinks _]]].
  apply Hlinks.
  - vm_compute. auto.
  - vm_compute. discriminate.
Defined.

Lemma plan_path_runs_from_start_to_goal_witness :
  hd_error
    (Path.poses
       (fst (fst (PRMPlannerPolygon.plan corridor (IsPose low) (IsPose high)
                    corridor_runtime)))) = Some low
  /\ hd_error
       (Path.poses
          (fst (fst (PRMPlannerPolygon.plan short_ladder (IsPose below)
                       (IsPose above) short_ladder_runtime)))) = Some below
  /\ (forall d,
        last (Path.poses
                (fst (fst (PRMPlannerPolygon.plan short_ladder (IsPose below)
                             (IsPose above) short_ladder_runtime)))) d
        = above)
  /\ Path.num_poses
       (fst (fst (PRMPlannerPolygon.plan short_ladder (IsPose below)
                    (IsPose above) short_ladder_runtime)))
     <= length (waypoints_of short_ladder (IsPose below) (IsPose above)
                  short_ladder_runtime).
Proof.
  destruct (@plan_path_runs_from_start_to_goal Reference.externals corridor
              low high corridor_runtime reference_search_contract
              reference_compressor_contract
              (init_wf_state false 1.5%float 5 (open_world [mid]) runtime0))
    as [Hfirst _]; [vm_compute; discriminate|].
  destruct (@plan_path_runs_from_start_to_goal Reference.externals
              short_ladder below above short_ladder_runtime
              reference_search_contract reference_compressor_contract
              (init_wf_state true 1.5%float 3 (open_world [low; mid; high])
                 runtime0))
    as [Hhead [Hlast [Hmin Hmax]]]; [vm_compute; discriminate|].
  split; [exact Hfirst|]. split; [exact Hhead|].
  split; [exact Hlast | exact Hmax].
Defined.

Lemma plan_keeps_roadmap_and_invariant_witness :
  wf_state stuck stuck_runtime
  /\ length (SearchGraph.nodes (PRMPlannerPolygon.graph stuck)) = 3.
Proof.
  destruct (@plan_keeps_roadmap_and_invariant Reference.externals corridor
              (IsPose low) (IsPose far) corridor_runtime
              (init_wf_state false 1.5%float 5 (open_world [mid]) runtime0)
              I I I)
    as [_ [_ [_ Hstate]]].
  split; [exact Hstate | reflexivity].
Defined.

Lemma failed_queries_pile_up_witness :
  empty_paths (fst (fst (plan_each corridor errands corridor_runtime))) = 2
  /\ length (SearchGraph.nodes
               (PRMPlannerPolygon.graph
                  (snd (fst (plan_each corridor errands corridor_runtime)))))
     = length (SearchGraph.nodes (PRMPlannerPolygon.graph corridor))
       + 2 * empty_paths
               (fst (fst (plan_each corridor errands corridor_runtime))).
Proof.
  destruct (@failed_queries_pile_up Reference.externals corridor
              corridor_runtime errands reference_search_contract
              reference_compressor_contract
              (init_wf_state false 1.5%float 5 (open_world [mid]) runtime0))
    as [_ [Hcount _]].
  split; [reflexivity | exact Hcount].
Defined.

Lemma plan_asks_oracle_from_query_poses_only_witness :
  is_connectable walled_world mid low 1.5%float = false
  /\ is_connectable (PRMPlannerPolygon.world corridor) mid low 1.5%float
     = true
  /\ fst (fst (PRMPlannerPolygon.plan walled_corridor (IsPose low)
                 (IsPose high) corridor_runtime))
     = fst (fst (PRMPlannerPolygon.plan corridor (IsPose low) (IsPose high)
                   corridor_runtime)).
Proof.
  split; [reflexivity|]. split; [reflexivity|].
  destruct (@plan_asks_oracle_from_query_poses_only Reference.externals
              corridor walled_corridor (IsPose low) (IsPose high)
              corridor_runtime eq_refl eq_refl)
    as [_ [_ Hpath]].
  - intros q. reflexivity.
  - intros q. reflexivity.
  - apply Hpath; reflexivity.
Defined.

End MoreInstances.

Section RoomInstances.

Import Room Boxes.

Lemma new_room_has_no_collision_polygon_witness :
  match kitchen_built with
  | Ok room =>
      is_collision_free room (APose (Examples.pose_at 1 1))
      = Fails (AttributeError "collision_polygon")
      /\ is_collision_free (update_collision_polygon room 0.5%float)
           (APose (Examples.pose_at 1 1)) = Ok true
      /\ is_collision_free (update_collision_polygon room 0.5%float)
           (APose (Examples.pose_at 0.25 1)) = Ok false
  | Fails _ => False
  end.
Proof.
  destruct kitchen_built as [room | e] eqn:Hbuilt.
  - destruct (@new_room_has_no_collision_polygon geometry kitchen_coords
                (Some "kitchen"%string) default_color default_wall_width
                room Hbuilt)
      as [_ [Hnone [Hfree _]]].
    split; [apply Hnone|]. rewrite !Hfree.
    vm_compute in Hbuilt. inversion Hbuilt; subst room. split; reflexivity.
  - vm_compute in Hbuilt. discriminate.
Defined.

End RoomInstances.
